(** * Galactic Defender: Omega — the simulation loop of [script.js]

    A shallow embedding of the game's entity classes ([Entity], [Player],
    [Bullet], [Enemy], [Particle]) and of the [Game] controller, followed by
    the properties of the simulation loop that the specification states.

    Conventions of the embedding.
    - JavaScript numbers that carry positions, sizes, speeds and times are
      exact rationals ([Q]); hit points, score and wave only ever hold
      integers in the program and are [Z].  The program computes with IEEE
      doubles: module [Double] gives their rounding and, over it, the two
      methods whose yes-or-no outcome rounding changes at positions the
      game produces, [checkCollision] (at edges that touch) and
      [Particle.update] (at a life that runs out), together with the
      distance between the two arithmetics.
    - A method that mutates [this] and the game is a function on the game
      state; an entity that lives in an array is addressed by its index, so
      that a mutation is seen by every later reader of the array.
    - Calls into the audio and UI collaborators are recorded, in order, in
      the [effects] trace of the state.
    - [Math.random()] reads the next value of [randomSource], the sequence
      of the values that the game logic draws.  The noise samples that
      [AudioManager.explosion] draws to fill its sound buffer, as many as the
      sample rate of the audio device asks for and none when muted, are not
      counted in it.
    - [setTimeout] appends to [timers]; a pending timer fires through the
      [TimerFires] event. *)

From Stdlib Require Import String ZArith QArith Bool List Lia Lqa.
Import ListNotations.

Local Open Scope Q_scope.

(** ** JavaScript number primitives *)

Definition Qltb (a b : Q) : bool := (Qnum a * QDen b <? Qnum b * QDen a)%Z.
Definition Qleb (a b : Q) : bool := Qle_bool a b.
Definition Qgtb (a b : Q) : bool := Qltb b a.
Definition Qgeb (a b : Q) : bool := Qleb b a.

Definition Math_max (a b : Q) : Q := if Qltb a b then b else a.
Definition Math_min (a b : Q) : Q := if Qltb b a then b else a.
Definition Math_abs (a : Q) : Q := if Qltb a 0 then - a else a.

(** ** Entity classes: the fields *)

Inductive EnemyType := scout | fighter | boss.

Inductive Color :=
| Named (css : string)
| Hsl (hue : Q).

Module Player.
Record t := mk {
  x : Q; y : Q; width : Q; height : Q; markedForDeletion : bool;
  speed : Q; shootTimer : Q; shootInterval : Q; hp : Z; maxHp : Z }.
End Player.

Module Bullet.
Record t := mk {
  x : Q; y : Q; width : Q; height : Q; markedForDeletion : bool;
  speed : Q; color : Color }.
End Bullet.

(** [oid] stands for the identity of the JavaScript object: the closures
    created by [triggerChainReaction] keep a reference to each enemy. *)
Module Enemy.
Record t := mk {
  oid : nat;
  x : Q; y : Q; width : Q; height : Q; markedForDeletion : bool;
  type : EnemyType; hp : Z; scoreValue : Z;
  speedX : Q; speedY : Q; angle : Q }.
End Enemy.

Module Particle.
Record t := mk {
  x : Q; y : Q; size : Q; speedX : Q; speedY : Q;
  color : Color; life : Q; markedForDeletion : bool }.
End Particle.

(** What [checkCollision] reads of its receiver and of its argument. *)
Class Rect (A : Type) := {
  rect_x : A -> Q; rect_y : A -> Q; rect_width : A -> Q; rect_height : A -> Q }.

#[export] Instance Player_Rect : Rect Player.t :=
  {| rect_x := Player.x; rect_y := Player.y;
     rect_width := Player.width; rect_height := Player.height |}.
#[export] Instance Bullet_Rect : Rect Bullet.t :=
  {| rect_x := Bullet.x; rect_y := Bullet.y;
     rect_width := Bullet.width; rect_height := Bullet.height |}.
#[export] Instance Enemy_Rect : Rect Enemy.t :=
  {| rect_x := Enemy.x; rect_y := Enemy.y;
     rect_width := Enemy.width; rect_height := Enemy.height |}.

(** A bare rectangle, for statements about the collision test alone. *)
Record Box := mkBox { bx : Q; by_ : Q; bw : Q; bh : Q }.
#[export] Instance Box_Rect : Rect Box :=
  {| rect_x := bx; rect_y := by_; rect_width := bw; rect_height := bh |}.

(** [Entity.checkCollision(rect)], script.js 86-96. *)
Definition checkCollision {A B : Type} `{Rect A} `{Rect B} (this : A) (rect : B) : bool :=
  let marginX := rect_width this * 0.1 in
  let marginY := rect_height this * 0.1 in
  Qltb (rect_x this + marginX) (rect_x rect + rect_width rect - rect_width rect * 0.1) &&
  Qgtb (rect_x this + rect_width this - marginX) (rect_x rect + rect_width rect * 0.1) &&
  Qltb (rect_y this + marginY) (rect_y rect + rect_height rect - rect_height rect * 0.1) &&
  Qgtb (rect_y this + rect_height this - marginY) (rect_y rect + rect_height rect * 0.1).

(** ** The controller's state *)

Inductive GameState := MENU | PLAYING | VICTORY | GAME_OVER.

(** Calls into [AudioManager], [UIManager] and the browser. *)
Inductive Effect :=
| AudioResume | AudioShoot | AudioExplosion | AudioEnemyHit
| UiShowStartScreen | UiShowGameUI
| UiShowGameOver (score wave : Z)
| UiShowVictory (score : Z)
| UiTogglePause (isPaused : bool)
| UiToggleCheatIndicator (isActive : bool)
| UiUpdateMuteIcon (isMuted : bool)
| UiUpdateScore (score : Z)
| UiUpdateWave (wave : Z)
| UiUpdateHp (current max : Z)
| RequestAnimationFrame
| Alert.

(** The two closures the program hands to [setTimeout]. *)
Inductive TimerAction :=
| CallVictory
| ChainKill (enemy : nat).

Record Timer := mkTimer { delay : Q; action : TimerAction }.

Module Game.
Record t := mk {
  width : Q; height : Q;
  player : option Player.t;
  bullets : list Bullet.t;
  enemies : list Enemy.t;
  particles : list Particle.t;
  score : Z; wave : Z;
  isRunning : bool; isPaused : bool; cheatMode : bool;
  gameState : GameState;
  lastTime : Q;
  enemyTimer : Q; enemyInterval : Q;
  backgroundY : Q;
  (* InputHandler.keys and AudioManager.isMuted *)
  keys : string -> bool;
  isMuted : bool;
  (* the browser: pending timeouts, enemies only closures still refer to,
     the object counter, Math.random and the trace of collaborator calls *)
  timers : list Timer;
  detached : list Enemy.t;
  nextId : nat;
  randomCalls : nat;
  randomSource : nat -> Q;
  effects : list Effect }.
End Game.
Import Game.

(** ** Field assignment

    [set_f v o] is the object [o] after [o.f = v]. *)

Definition Player_set_x (v : Q) (o : Player.t) : Player.t :=
  Player.mk v (Player.y o) (Player.width o) (Player.height o) (Player.markedForDeletion o) (Player.speed o) (Player.shootTimer o) (Player.shootInterval o) (Player.hp o) (Player.maxHp o).

Definition Player_set_y (v : Q) (o : Player.t) : Player.t :=
  Player.mk (Player.x o) v (Player.width o) (Player.height o) (Player.markedForDeletion o) (Player.speed o) (Player.shootTimer o) (Player.shootInterval o) (Player.hp o) (Player.maxHp o).

Definition Player_set_shootTimer (v : Q) (o : Player.t) : Player.t :=
  Player.mk (Player.x o) (Player.y o) (Player.width o) (Player.height o) (Player.markedForDeletion o) (Player.speed o) v (Player.shootInterval o) (Player.hp o) (Player.maxHp o).

Definition Player_set_hp (v : Z) (o : Player.t) : Player.t :=
  Player.mk (Player.x o) (Player.y o) (Player.width o) (Player.height o) (Player.markedForDeletion o) (Player.speed o) (Player.shootTimer o) (Player.shootInterval o) v (Player.maxHp o).

Definition Bullet_set_y (v : Q) (o : Bullet.t) : Bullet.t :=
  Bullet.mk (Bullet.x o) v (Bullet.width o) (Bullet.height o) (Bullet.markedForDeletion o) (Bullet.speed o) (Bullet.color o).

Definition Bullet_set_markedForDeletion (v : bool) (o : Bullet.t) : Bullet.t :=
  Bullet.mk (Bullet.x o) (Bullet.y o) (Bullet.width o) (Bullet.height o) v (Bullet.speed o) (Bullet.color o).

Definition Enemy_set_x (v : Q) (o : Enemy.t) : Enemy.t :=
  Enemy.mk (Enemy.oid o) v (Enemy.y o) (Enemy.width o) (Enemy.height o) (Enemy.markedForDeletion o) (Enemy.type o) (Enemy.hp o) (Enemy.scoreValue o) (Enemy.speedX o) (Enemy.speedY o) (Enemy.angle o).

Definition Enemy_set_y (v : Q) (o : Enemy.t) : Enemy.t :=
  Enemy.mk (Enemy.oid o) (Enemy.x o) v (Enemy.width o) (Enemy.height o) (Enemy.markedForDeletion o) (Enemy.type o) (Enemy.hp o) (Enemy.scoreValue o) (Enemy.speedX o) (Enemy.speedY o) (Enemy.angle o).

Definition Enemy_set_markedForDeletion (v : bool) (o : Enemy.t) : Enemy.t :=
  Enemy.mk (Enemy.oid o) (Enemy.x o) (Enemy.y o) (Enemy.width o) (Enemy.height o) v (Enemy.type o) (Enemy.hp o) (Enemy.scoreValue o) (Enemy.speedX o) (Enemy.speedY o) (Enemy.angle o).

Definition Enemy_set_hp (v : Z) (o : Enemy.t) : Enemy.t :=
  Enemy.mk (Enemy.oid o) (Enemy.x o) (Enemy.y o) (Enemy.width o) (Enemy.height o) (Enemy.markedForDeletion o) (Enemy.type o) v (Enemy.scoreValue o) (Enemy.speedX o) (Enemy.speedY o) (Enemy.angle o).

Definition Enemy_set_speedX (v : Q) (o : Enemy.t) : Enemy.t :=
  Enemy.mk (Enemy.oid o) (Enemy.x o) (Enemy.y o) (Enemy.width o) (Enemy.height o) (Enemy.markedForDeletion o) (Enemy.type o) (Enemy.hp o) (Enemy.scoreValue o) v (Enemy.speedY o) (Enemy.angle o).

Definition Particle_set_x (v : Q) (o : Particle.t) : Particle.t :=
  Particle.mk v (Particle.y o) (Particle.size o) (Particle.speedX o) (Particle.speedY o) (Particle.color o) (Particle.life o) (Particle.markedForDeletion o).

Definition Particle_set_y (v : Q) (o : Particle.t) : Particle.t :=
  Particle.mk (Particle.x o) v (Particle.size o) (Particle.speedX o) (Particle.speedY o) (Particle.color o) (Particle.life o) (Particle.markedForDeletion o).

Definition Particle_set_life (v : Q) (o : Particle.t) : Particle.t :=
  Particle.mk (Particle.x o) (Particle.y o) (Particle.size o) (Particle.speedX o) (Particle.speedY o) (Particle.color o) v (Particle.markedForDeletion o).

Definition Particle_set_markedForDeletion (v : bool) (o : Particle.t) : Particle.t :=
  Particle.mk (Particle.x o) (Particle.y o) (Particle.size o) (Particle.speedX o) (Particle.speedY o) (Particle.color o) (Particle.life o) v.

Definition set_player (v : option Player.t) (o : Game.t) : Game.t :=
  Game.mk (width o) (height o) v (bullets o) (enemies o) (particles o) (score o) (wave o) (isRunning o) (isPaused o) (cheatMode o) (gameState o) (lastTime o) (enemyTimer o) (enemyInterval o) (backgroundY o) (keys o) (isMuted o) (timers o) (detached o) (nextId o) (randomCalls o) (randomSource o) (effects o).

Definition set_bullets (v : list Bullet.t) (o : Game.t) : Game.t :=
  Game.mk (width o) (height o) (player o) v (enemies o) (particles o) (score o) (wave o) (isRunning o) (isPaused o) (cheatMode o) (gameState o) (lastTime o) (enemyTimer o) (enemyInterval o) (backgroundY o) (keys o) (isMuted o) (timers o) (detached o) (nextId o) (randomCalls o) (randomSource o) (effects o).

Definition set_enemies (v : list Enemy.t) (o : Game.t) : Game.t :=
  Game.mk (width o) (height o) (player o) (bullets o) v (particles o) (score o) (wave o) (isRunning o) (isPaused o) (cheatMode o) (gameState o) (lastTime o) (enemyTimer o) (enemyInterval o) (backgroundY o) (keys o) (isMuted o) (timers o) (detached o) (nextId o) (randomCalls o) (randomSource o) (effects o).

Definition set_particles (v : list Particle.t) (o : Game.t) : Game.t :=
  Game.mk (width o) (height o) (player o) (bullets o) (enemies o) v (score o) (wave o) (isRunning o) (isPaused o) (cheatMode o) (gameState o) (lastTime o) (enemyTimer o) (enemyInterval o) (backgroundY o) (keys o) (isMuted o) (timers o) (detached o) (nextId o) (randomCalls o) (randomSource o) (effects o).

Definition set_score (v : Z) (o : Game.t) : Game.t :=
  Game.mk (width o) (height o) (player o) (bullets o) (enemies o) (particles o) v (wave o) (isRunning o) (isPaused o) (cheatMode o) (gameState o) (lastTime o) (enemyTimer o) (enemyInterval o) (backgroundY o) (keys o) (isMuted o) (timers o) (detached o) (nextId o) (randomCalls o) (randomSource o) (effects o).

Definition set_wave (v : Z) (o : Game.t) : Game.t :=
  Game.mk (width o) (height o) (player o) (bullets o) (enemies o) (particles o) (score o) v (isRunning o) (isPaused o) (cheatMode o) (gameState o) (lastTime o) (enemyTimer o) (enemyInterval o) (backgroundY o) (keys o) (isMuted o) (timers o) (detached o) (nextId o) (randomCalls o) (randomSource o) (effects o).

Definition set_isRunning (v : bool) (o : Game.t) : Game.t :=
  Game.mk (width o) (height o) (player o) (bullets o) (enemies o) (particles o) (score o) (wave o) v (isPaused o) (cheatMode o) (gameState o) (lastTime o) (enemyTimer o) (enemyInterval o) (backgroundY o) (keys o) (isMuted o) (timers o) (detached o) (nextId o) (randomCalls o) (randomSource o) (effects o).

Definition set_isPaused (v : bool) (o : Game.t) : Game.t :=
  Game.mk (width o) (height o) (player o) (bullets o) (enemies o) (particles o) (score o) (wave o) (isRunning o) v (cheatMode o) (gameState o) (lastTime o) (enemyTimer o) (enemyInterval o) (backgroundY o) (keys o) (isMuted o) (timers o) (detached o) (nextId o) (randomCalls o) (randomSource o) (effects o).

Definition set_cheatMode (v : bool) (o : Game.t) : Game.t :=
  Game.mk (width o) (height o) (player o) (bullets o) (enemies o) (particles o) (score o) (wave o) (isRunning o) (isPaused o) v (gameState o) (lastTime o) (enemyTimer o) (enemyInterval o) (backgroundY o) (keys o) (isMuted o) (timers o) (detached o) (nextId o) (randomCalls o) (randomSource o) (effects o).

Definition set_gameState (v : GameState) (o : Game.t) : Game.t :=
  Game.mk (width o) (height o) (player o) (bullets o) (enemies o) (particles o) (score o) (wave o) (isRunning o) (isPaused o) (cheatMode o) v (lastTime o) (enemyTimer o) (enemyInterval o) (backgroundY o) (keys o) (isMuted o) (timers o) (detached o) (nextId o) (randomCalls o) (randomSource o) (effects o).

Definition set_lastTime (v : Q) (o : Game.t) : Game.t :=
  Game.mk (width o) (height o) (player o) (bullets o) (enemies o) (particles o) (score o) (wave o) (isRunning o) (isPaused o) (cheatMode o) (gameState o) v (enemyTimer o) (enemyInterval o) (backgroundY o) (keys o) (isMuted o) (timers o) (detached o) (nextId o) (randomCalls o) (randomSource o) (effects o).

Definition set_enemyTimer (v : Q) (o : Game.t) : Game.t :=
  Game.mk (width o) (height o) (player o) (bullets o) (enemies o) (particles o) (score o) (wave o) (isRunning o) (isPaused o) (cheatMode o) (gameState o) (lastTime o) v (enemyInterval o) (backgroundY o) (keys o) (isMuted o) (timers o) (detached o) (nextId o) (randomCalls o) (randomSource o) (effects o).

Definition set_enemyInterval (v : Q) (o : Game.t) : Game.t :=
  Game.mk (width o) (height o) (player o) (bullets o) (enemies o) (particles o) (score o) (wave o) (isRunning o) (isPaused o) (cheatMode o) (gameState o) (lastTime o) (enemyTimer o) v (backgroundY o) (keys o) (isMuted o) (timers o) (detached o) (nextId o) (randomCalls o) (randomSource o) (effects o).

Definition set_backgroundY (v : Q) (o : Game.t) : Game.t :=
  Game.mk (width o) (height o) (player o) (bullets o) (enemies o) (particles o) (score o) (wave o) (isRunning o) (isPaused o) (cheatMode o) (gameState o) (lastTime o) (enemyTimer o) (enemyInterval o) v (keys o) (isMuted o) (timers o) (detached o) (nextId o) (randomCalls o) (randomSource o) (effects o).

Definition set_keys (v : string -> bool) (o : Game.t) : Game.t :=
  Game.mk (width o) (height o) (player o) (bullets o) (enemies o) (particles o) (score o) (wave o) (isRunning o) (isPaused o) (cheatMode o) (gameState o) (lastTime o) (enemyTimer o) (enemyInterval o) (backgroundY o) v (isMuted o) (timers o) (detached o) (nextId o) (randomCalls o) (randomSource o) (effects o).

Definition set_isMuted (v : bool) (o : Game.t) : Game.t :=
  Game.mk (width o) (height o) (player o) (bullets o) (enemies o) (particles o) (score o) (wave o) (isRunning o) (isPaused o) (cheatMode o) (gameState o) (lastTime o) (enemyTimer o) (enemyInterval o) (backgroundY o) (keys o) v (timers o) (detached o) (nextId o) (randomCalls o) (randomSource o) (effects o).

Definition set_timers (v : list Timer) (o : Game.t) : Game.t :=
  Game.mk (width o) (height o) (player o) (bullets o) (enemies o) (particles o) (score o) (wave o) (isRunning o) (isPaused o) (cheatMode o) (gameState o) (lastTime o) (enemyTimer o) (enemyInterval o) (backgroundY o) (keys o) (isMuted o) v (detached o) (nextId o) (randomCalls o) (randomSource o) (effects o).

Definition set_detached (v : list Enemy.t) (o : Game.t) : Game.t :=
  Game.mk (width o) (height o) (player o) (bullets o) (enemies o) (particles o) (score o) (wave o) (isRunning o) (isPaused o) (cheatMode o) (gameState o) (lastTime o) (enemyTimer o) (enemyInterval o) (backgroundY o) (keys o) (isMuted o) (timers o) v (nextId o) (randomCalls o) (randomSource o) (effects o).

Definition set_nextId (v : nat) (o : Game.t) : Game.t :=
  Game.mk (width o) (height o) (player o) (bullets o) (enemies o) (particles o) (score o) (wave o) (isRunning o) (isPaused o) (cheatMode o) (gameState o) (lastTime o) (enemyTimer o) (enemyInterval o) (backgroundY o) (keys o) (isMuted o) (timers o) (detached o) v (randomCalls o) (randomSource o) (effects o).

Definition set_randomCalls (v : nat) (o : Game.t) : Game.t :=
  Game.mk (width o) (height o) (player o) (bullets o) (enemies o) (particles o) (score o) (wave o) (isRunning o) (isPaused o) (cheatMode o) (gameState o) (lastTime o) (enemyTimer o) (enemyInterval o) (backgroundY o) (keys o) (isMuted o) (timers o) (detached o) (nextId o) v (randomSource o) (effects o).

Definition set_effects (v : list Effect) (o : Game.t) : Game.t :=
  Game.mk (width o) (height o) (player o) (bullets o) (enemies o) (particles o) (score o) (wave o) (isRunning o) (isPaused o) (cheatMode o) (gameState o) (lastTime o) (enemyTimer o) (enemyInterval o) (backgroundY o) (keys o) (isMuted o) (timers o) (detached o) (nextId o) (randomCalls o) (randomSource o) v.


(** ** Helpers of the embedding *)

(** [arr[i] = v] on an index of the array. *)
Fixpoint list_set {A : Type} (i : nat) (v : A) (l : list A) : list A :=
  match l, i with
  | [], _ => []
  | _ :: t, O => v :: t
  | h :: t, S k => h :: list_set k v t
  end.

Definition emit (e : Effect) (g : Game.t) : Game.t :=
  set_effects (effects g ++ [e]) g.

Definition Math_random (g : Game.t) : Q * Game.t :=
  (randomSource g (randomCalls g), set_randomCalls (S (randomCalls g)) g).

Definition setTimeout (a : TimerAction) (ms : Q) (g : Game.t) : Game.t :=
  set_timers (timers g ++ [mkTimer ms a]) g.

(** [InputHandler.isDown(code)], script.js 52-54. *)
Definition isDown (code : string) (g : Game.t) : bool := keys g code.

(** A frame either completes or stops at an uncaught [TypeError]; the state
    carried by [Thrown] is the state at the point of the throw. *)
Inductive outcome :=
| Normal (g : Game.t)
| Thrown (g : Game.t).

Definition bind (o : outcome) (k : Game.t -> outcome) : outcome :=
  match o with
  | Normal g => k g
  | Thrown g => Thrown g
  end.

Definition state_of (o : outcome) : Game.t :=
  match o with Normal g => g | Thrown g => g end.

Notation "x <- c ;; k" := (bind c (fun x => k))
  (at level 61, c at next level, right associativity).

(** [arr.forEach(i => body)] over the indices of an array of [n] elements,
    for a body that may throw. *)
Fixpoint forEachIndex (body : nat -> Game.t -> outcome) (js : list nat) (g : Game.t) : outcome :=
  match js with
  | [] => Normal g
  | j :: rest => g' <- body j g ;; forEachIndex body rest g'
  end.

(** ** Particle, script.js 294-323 *)

Definition Particle_new (x y : Q) (color : option string) (g : Game.t) : Particle.t * Game.t :=
  let (r1, g) := Math_random g in
  let (r2, g) := Math_random g in
  let (r3, g) := Math_random g in
  match color with
  | Some c =>
      (Particle.mk x y (r1 * 5 + 2) (r2 * 200 - 100) (r3 * 200 - 100) (Named c) 1 false, g)
  | None =>
      let (r4, g) := Math_random g in
      (Particle.mk x y (r1 * 5 + 2) (r2 * 200 - 100) (r3 * 200 - 100)
         (Hsl (r4 * 60 + 180)) 1 false, g)
  end.

Definition Particle_update (deltaTime : Q) (p : Particle.t) : Particle.t :=
  let p := Particle_set_x (Particle.x p + Particle.speedX p * deltaTime) p in
  let p := Particle_set_y (Particle.y p + Particle.speedY p * deltaTime) p in
  let p := Particle_set_life (Particle.life p - deltaTime * 2) p in
  if Qleb (Particle.life p) 0 then Particle_set_markedForDeletion true p else p.

(** ** Game: transitions and explosions, script.js 638-664 *)

Definition Game_gameOver (g : Game.t) : Game.t :=
  let g := set_gameState GAME_OVER g in
  emit (UiShowGameOver (score g) (wave g)) g.

Definition Game_victory (g : Game.t) : Game.t :=
  let g := set_gameState VICTORY g in
  emit (UiShowVictory (score g)) g.

Fixpoint pushParticles (count : nat) (x y : Q) (color : option string) (g : Game.t) : Game.t :=
  match count with
  | O => g
  | S n =>
      let (p, g) := Particle_new x y color g in
      pushParticles n x y color (set_particles (particles g ++ [p]) g)
  end.

(** [createExplosion(x, y, count, color)].  The call of
    [audio.explosion()] is the [AudioExplosion] effect; the random noise it
    fills its buffer with is not drawn from [randomSource]. *)
Definition Game_createExplosion (x y : Q) (count : nat) (color : option string) (g : Game.t) : Game.t :=
  pushParticles count x y color (emit AudioExplosion g).

Fixpoint scheduleChain (es : list Enemy.t) (index : nat) (g : Game.t) : Game.t :=
  match es with
  | [] => g
  | enemy :: rest =>
      scheduleChain rest (S index)
        (setTimeout (ChainKill (Enemy.oid enemy)) (inject_Z (Z.of_nat index) * 100) g)
  end.

Definition Game_triggerChainReaction (g : Game.t) : Game.t :=
  scheduleChain (enemies g) 0 g.

Definition findOid (id : nat) (es : list Enemy.t) : option Enemy.t :=
  find (fun e => Nat.eqb (Enemy.oid e) id) es.

Definition markOid (id : nat) (es : list Enemy.t) : list Enemy.t :=
  map (fun e => if Nat.eqb (Enemy.oid e) id then Enemy_set_markedForDeletion true e else e) es.

(** The closure scheduled by [triggerChainReaction], script.js 657-662. *)
Definition chainKill (id : nat) (g : Game.t) : Game.t :=
  match findOid id (enemies g ++ detached g) with
  | Some enemy =>
      if Enemy.markedForDeletion enemy then g
      else
        let g := set_enemies (markOid id (enemies g)) g in
        let g := set_detached (markOid id (detached g)) g in
        Game_createExplosion (Enemy.x enemy + Enemy.width enemy / 2)
          (Enemy.y enemy + Enemy.height enemy / 2) 20 None g
  | None => g
  end.

(** ** Player, script.js 99-191 *)

Definition Player_new (g : Game.t) : Player.t :=
  Player.mk (width g / 2 - 60 / 2) (height g - 60 - 20) 60 60 false 400 0 0.2 100 100.

Definition Bullet_new (x y speed : Q) : Bullet.t :=
  Bullet.mk x y 5 15 false speed (Named "#00f3ff").

Definition Player_updateManual (deltaTime : Q) (g : Game.t) (this : Player.t) : Player.t :=
  let this :=
    if isDown "ArrowLeft" g || isDown "KeyA" g
    then Player_set_x (Player.x this - Player.speed this * deltaTime) this else this in
  let this :=
    if isDown "ArrowRight" g || isDown "KeyD" g
    then Player_set_x (Player.x this + Player.speed this * deltaTime) this else this in
  let this :=
    if isDown "ArrowUp" g || isDown "KeyW" g
    then Player_set_y (Player.y this - Player.speed this * deltaTime) this else this in
  if isDown "ArrowDown" g || isDown "KeyS" g
  then Player_set_y (Player.y this + Player.speed this * deltaTime) this else this.

(** The scan of [updateAI]: [minDistance] starts at [Infinity] ([None]). *)
Definition nearestEnemy (px : Q) (es : list Enemy.t) : option Enemy.t :=
  snd (fold_left
         (fun (acc : option Q * option Enemy.t) enemy =>
            let dist := Math_abs (Enemy.x enemy - px) in
            let closer := match fst acc with None => true | Some m => Qltb dist m end in
            if closer then (Some dist, Some enemy) else acc)
         es (None, None)).

Definition Player_updateAI (deltaTime : Q) (g : Game.t) (this : Player.t) : Player.t :=
  match nearestEnemy (Player.x this) (enemies g) with
  | Some nearest =>
      if Qltb (Player.x this + Player.width this / 2)
              (Enemy.x nearest + Enemy.width nearest / 2 - 10)
      then Player_set_x (Player.x this + Player.speed this * deltaTime) this
      else if Qgtb (Player.x this + Player.width this / 2)
                   (Enemy.x nearest + Enemy.width nearest / 2 + 10)
      then Player_set_x (Player.x this - Player.speed this * deltaTime) this
      else this
  | None =>
      if Qltb (Player.x this + Player.width this / 2) (width g / 2)
      then Player_set_x (Player.x this + Player.speed this * deltaTime) this
      else Player_set_x (Player.x this - Player.speed this * deltaTime) this
  end.

Definition Player_shoot (this : Player.t) (g : Game.t) : Game.t :=
  let bulletX := Player.x this + Player.width this / 2 - 2.5 in
  let bulletY := Player.y this in
  let g := set_bullets (bullets g ++ [Bullet_new bulletX bulletY (-600)]) g in
  emit AudioShoot g.

Definition Player_update (deltaTime : Q) (this : Player.t) (g : Game.t) : Game.t :=
  let this :=
    if cheatMode g then Player_updateAI deltaTime g this
    else Player_updateManual deltaTime g this in
  let this :=
    Player_set_x (Math_max 0 (Math_min (width g - Player.width this) (Player.x this))) this in
  let this :=
    Player_set_y (Math_max 0 (Math_min (height g - Player.height this) (Player.y this))) this in
  let this :=
    if Qgtb (Player.shootTimer this) 0
    then Player_set_shootTimer (Player.shootTimer this - deltaTime) this else this in
  if (isDown "Space" g || cheatMode g) && Qleb (Player.shootTimer this) 0
  then
    let g := Player_shoot this g in
    set_player (Some (Player_set_shootTimer (Player.shootInterval this) this)) g
  else set_player (Some this) g.

Definition Player_takeDamage (amount : Z) (this : Player.t) (g : Game.t) : Game.t :=
  if cheatMode g then g
  else
    let this := Player_set_hp (Player.hp this - amount) this in
    if (Player.hp this <=? 0)%Z
    then
      let this := Player_set_hp 0 this in
      let g := Game_gameOver (set_player (Some this) g) in
      emit (UiUpdateHp (Player.hp this) (Player.maxHp this)) g
    else
      emit (UiUpdateHp (Player.hp this) (Player.maxHp this)) (set_player (Some this) g).

(** ** Bullet, script.js 193-214 *)

Definition Bullet_update (deltaTime : Q) (g : Game.t) (this : Bullet.t) : Bullet.t :=
  let this := Bullet_set_y (Bullet.y this + Bullet.speed this * deltaTime) this in
  if Qltb (Bullet.y this) 0 || Qgtb (Bullet.y this) (height g)
  then Bullet_set_markedForDeletion true this else this.

(** ** Enemy, script.js 216-292 *)

Definition Enemy_new (x y : Q) (type : EnemyType) (g : Game.t) : Enemy.t * Game.t :=
  let id := nextId g in
  let g := set_nextId (S id) g in
  match type with
  | scout =>
      let (r, g) := Math_random g in
      (Enemy.mk id x y 40 40 false scout 1 10 (if Qltb r 0.5 then -50 else 50) 150 0, g)
  | fighter => (Enemy.mk id x y 50 50 false fighter 3 30 0 80 0, g)
  | boss => (Enemy.mk id x y 120 100 false boss 50 500 0 20 0, g)
  end.

Definition Enemy_update (deltaTime : Q) (g : Game.t) (this : Enemy.t) : Enemy.t :=
  let this := Enemy_set_y (Enemy.y this + Enemy.speedY this * deltaTime) this in
  let this := Enemy_set_x (Enemy.x this + Enemy.speedX this * deltaTime) this in
  let this :=
    if Qleb (Enemy.x this) 0 || Qgeb (Enemy.x this + Enemy.width this) (width g)
    then Enemy_set_speedX (Enemy.speedX this * -1) this else this in
  if Qgtb (Enemy.y this) (height g)
  then Enemy_set_markedForDeletion true this else this.

(** [this.enemies[j].takeDamage(amount)], script.js 272-291. *)
Definition Enemy_takeDamage (j : nat) (amount : Z) (g : Game.t) : Game.t :=
  match nth_error (enemies g) j with
  | None => g
  | Some this =>
      let this := Enemy_set_hp (Enemy.hp this - amount) this in
      let g := set_enemies (list_set j this (enemies g)) g in
      let g := emit AudioEnemyHit g in
      if (Enemy.hp this <=? 0)%Z
      then
        let this := Enemy_set_markedForDeletion true this in
        let g := set_enemies (list_set j this (enemies g)) g in
        let g := set_score (score g + Enemy.scoreValue this) g in
        let g := emit (UiUpdateScore (score g)) g in
        match Enemy.type this with
        | boss =>
            let g := Game_createExplosion (Enemy.x this + Enemy.width this / 2)
                       (Enemy.y this + Enemy.height this / 2) 100 (Some "#ff0055"%string) g in
            let g := Game_triggerChainReaction g in
            setTimeout CallVictory 2000 g
        | _ =>
            Game_createExplosion (Enemy.x this + Enemy.width this / 2)
              (Enemy.y this + Enemy.height this / 2) 10 None g
        end
      else g
  end.

(** ** Game: spawning, script.js 710-721 *)

Definition Game_spawnEnemy (g : Game.t) : Game.t :=
  let (r1, g) := Math_random g in
  let x := r1 * (width g - 50) in
  let (r2, g) := Math_random g in
  let type := if Qltb r2 (0.3 + inject_Z (wave g) * 0.05) then fighter else scout in
  let (enemy, g) := Enemy_new x (-50) type g in
  set_enemies (enemies g ++ [enemy]) g.

Definition isBoss (e : Enemy.t) : bool :=
  match Enemy.type e with boss => true | _ => false end.

Definition Game_spawnBoss (g : Game.t) : Game.t :=
  if negb (existsb isBoss (enemies g))
  then
    let (enemy, g) := Enemy_new (width g / 2 - 60) (-100) boss g in
    set_enemies (enemies g ++ [enemy]) g
  else g.

(** ** Game: the collision pass, script.js 723-742 *)

(** The body of the inner loop for bullet [i] and enemy [j]. *)
Definition bulletMeetsEnemy (i j : nat) (g : Game.t) : Game.t :=
  match nth_error (bullets g) i, nth_error (enemies g) j with
  | Some bullet, Some enemy =>
      if checkCollision bullet enemy
      then
        let g := set_bullets
                   (list_set i (Bullet_set_markedForDeletion true bullet) (bullets g)) g in
        Enemy_takeDamage j 1 g
      else g
  | _, _ => g
  end.

Definition bulletMeetsEnemies (i : nat) (g : Game.t) : Game.t :=
  fold_left (fun g j => bulletMeetsEnemy i j g) (seq 0 (length (enemies g))) g.

Definition bulletsHitEnemies (g : Game.t) : Game.t :=
  fold_left (fun g i => bulletMeetsEnemies i g) (seq 0 (length (bullets g))) g.

(** The body of the second loop for enemy [j]; [this.player] is read at
    each call, and a missing player is a [TypeError]. *)
Definition enemyMeetsPlayer (j : nat) (g : Game.t) : outcome :=
  match nth_error (enemies g) j with
  | None => Normal g
  | Some enemy =>
      match player g with
      | None => Thrown g
      | Some thePlayer =>
          if checkCollision enemy thePlayer
          then
            let g := set_enemies
                       (list_set j (Enemy_set_markedForDeletion true enemy) (enemies g)) g in
            let g := Player_takeDamage 20 thePlayer g in
            Normal (Game_createExplosion (Enemy.x enemy) (Enemy.y enemy) 10 None g)
          else Normal g
      end
  end.

Definition enemiesHitPlayer (g : Game.t) : outcome :=
  forEachIndex enemyMeetsPlayer (seq 0 (length (enemies g))) g.

Definition Game_checkCollisions (g : Game.t) : outcome :=
  enemiesHitPlayer (bulletsHitEnemies g).

(** ** Game: one update, script.js 666-708, by its phases *)

Definition update_background (deltaTime : Q) (g : Game.t) : Game.t :=
  let g := set_backgroundY (backgroundY g + 50 * deltaTime) g in
  if Qgeb (backgroundY g) (height g) then set_backgroundY 0 g else g.

Definition update_particles (deltaTime : Q) (g : Game.t) : Game.t :=
  let g := set_particles (map (Particle_update deltaTime) (particles g)) g in
  set_particles (filter (fun p => negb (Particle.markedForDeletion p)) (particles g)) g.

Definition update_bullets (deltaTime : Q) (g : Game.t) : Game.t :=
  let g := set_bullets (map (Bullet_update deltaTime g) (bullets g)) g in
  set_bullets (filter (fun b => negb (Bullet.markedForDeletion b)) (bullets g)) g.

Definition update_enemies (deltaTime : Q) (g : Game.t) : Game.t :=
  let g := set_enemyTimer (enemyTimer g - deltaTime) g in
  let g :=
    if Qleb (enemyTimer g) 0
    then set_enemyTimer (enemyInterval g) (Game_spawnEnemy g) else g in
  let g := set_enemies (map (Enemy_update deltaTime g) (enemies g)) g in
  set_enemies (filter (fun e => negb (Enemy.markedForDeletion e)) (enemies g)) g.

Definition update_wave (g : Game.t) : Game.t :=
  if (score g >? wave g * 500)%Z
  then
    let g := set_wave (wave g + 1)%Z g in
    let g := emit (UiUpdateWave (wave g)) g in
    let g := set_enemyInterval (Math_max 0.5 (1.5 - inject_Z (wave g) * 0.1)) g in
    if (wave g mod 5 =? 0)%Z then Game_spawnBoss g else g
  else g.

Definition Game_update (deltaTime : Q) (g : Game.t) : outcome :=
  if negb (isRunning g) || isPaused g then Normal g
  else
    let g := update_background deltaTime g in
    let g := update_particles deltaTime g in
    match gameState g with
    | PLAYING =>
        match player g with
        | None => Thrown g
        | Some thePlayer =>
            let g := Player_update deltaTime thePlayer g in
            let g := update_bullets deltaTime g in
            let g := update_enemies deltaTime g in
            g <- Game_checkCollisions g ;;
            Normal (update_wave g)
        end
    | _ => Normal g
    end.

(** ** Game: drawing and the frame loop, script.js 744-782 *)

Inductive DrawOp :=
| ClearRect
| DrawBackground (y : Q)
| DrawPlayer (p : Player.t)
| DrawBullet (b : Bullet.t)
| DrawEnemy (e : Enemy.t)
| DrawParticle (p : Particle.t).

Definition Game_draw (g : Game.t) : list DrawOp :=
  [ClearRect; DrawBackground (backgroundY g); DrawBackground (backgroundY g - height g)]
  ++ match gameState g with
     | PLAYING =>
         match player g with Some p => [DrawPlayer p] | None => [] end
         ++ map DrawBullet (bullets g)
         ++ map DrawEnemy (enemies g)
     | _ => []
     end
  ++ map DrawParticle (particles g).

Definition Game_loop (timestamp : Q) (g : Game.t) : Game.t * list DrawOp :=
  if negb (isRunning g) then (g, [])
  else
    let deltaTime := (timestamp - lastTime g) / 1000 in
    let g := set_lastTime timestamp g in
    match Game_update deltaTime g with
    | Normal g => (emit RequestAnimationFrame g, Game_draw g)
    | Thrown g => (set_isRunning false (emit Alert g), [])
    end.

(** ** Game: construction and the entry points, script.js 534-636 *)

Definition Game_new (width height : Q) (random : nat -> Q) : Game.t :=
  Game.mk width height None [] [] [] 0 1 false false false MENU 0 0 1.5 0
    (fun _ => false) false [] [] 0 0 random [].

Definition Game_togglePause (g : Game.t) : Game.t :=
  let g := set_isPaused (negb (isPaused g)) g in
  emit (UiTogglePause (isPaused g)) g.

Definition Game_toggleCheatMode (g : Game.t) : Game.t :=
  let g := set_cheatMode (negb (cheatMode g)) g in
  emit (UiToggleCheatIndicator (cheatMode g)) g.

Definition Game_toggleMute (g : Game.t) : Game.t :=
  let g := set_isMuted (negb (isMuted g)) g in
  emit (UiUpdateMuteIcon (isMuted g)) g.

Definition Game_handleInput (code : string) (altKey : bool) (g : Game.t) : Game.t :=
  let g := if String.eqb code "Escape" && isRunning g then Game_togglePause g else g in
  let g := if altKey && String.eqb code "KeyC" then Game_toggleCheatMode g else g in
  if String.eqb code "KeyM" then Game_toggleMute g else g.

Definition Game_quitGame (g : Game.t) : Game.t :=
  let g := set_isRunning false g in
  let g := set_isPaused false g in
  let g := set_gameState MENU g in
  emit UiShowStartScreen g.

(** [start()]; [now] is the value of [performance.now()].  The enemies of
    the array that is dropped stay reachable from pending closures. *)
Definition Game_start (now : Q) (g : Game.t) : Game.t :=
  let g := emit AudioResume g in
  let g := set_isRunning true g in
  let g := set_isPaused false g in
  let g := set_gameState PLAYING g in
  let g := set_score 0 g in
  let g := set_wave 1 g in
  let g := set_player (Some (Player_new g)) g in
  let g := set_bullets [] g in
  let g := set_detached (detached g ++ enemies g) g in
  let g := set_enemies [] g in
  let g := set_particles [] g in
  let g := emit UiShowGameUI g in
  let g := emit (UiUpdateScore 0) g in
  let g := emit (UiUpdateWave 1) g in
  let g := emit (UiUpdateHp 100 100) g in
  let g := set_lastTime now g in
  emit RequestAnimationFrame g.

Definition Game_restart (now : Q) (g : Game.t) : Game.t := Game_start now g.

(** ** The browser's events *)

Inductive Event :=
| ClickStart (now : Q)
| ClickRestart (now : Q)
| ClickPlayAgain (now : Q)
| ClickResume
| ClickQuit
| ClickMute
| KeyDown (code : string) (altKey : bool)
| KeyUp (code : string)
| AnimationFrame (timestamp : Q)
| TimerFires (n : nat).

Fixpoint remove_nth {A : Type} (n : nat) (l : list A) : list A :=
  match l, n with
  | [], _ => []
  | _ :: t, O => t
  | h :: t, S k => h :: remove_nth k t
  end.

Definition fireTimer (n : nat) (g : Game.t) : Game.t :=
  match nth_error (timers g) n with
  | None => g
  | Some timer =>
      let g := set_timers (remove_nth n (timers g)) g in
      match action timer with
      | CallVictory => Game_victory g
      | ChainKill id => chainKill id g
      end
  end.

Definition step (g : Game.t) (ev : Event) : Game.t :=
  match ev with
  | ClickStart now => Game_start now g
  | ClickRestart now | ClickPlayAgain now => Game_restart now g
  | ClickResume => Game_togglePause g
  | ClickQuit => Game_quitGame g
  | ClickMute => Game_toggleMute g
  | KeyDown code altKey =>
      let g := set_keys (fun c => if String.eqb c code then true else keys g c) g in
      Game_handleInput code altKey g
  | KeyUp code =>
      set_keys (fun c => if String.eqb c code then false else keys g c) g
  | AnimationFrame timestamp => fst (Game_loop timestamp g)
  | TimerFires n => fireTimer n g
  end.

Definition run (evs : list Event) (g : Game.t) : Game.t := fold_left step evs g.

(** The page's [new Game(800, 600)]. *)
Definition theGame (random : nat -> Q) : Game.t := Game_new 800 600 random.

(** ** Vocabulary of the statements *)

(** *** Footprints

    A method assigns only some fields of the game.  [frame f fields] says
    that the observation [f] of the state does not depend on any of
    [fields]; such an observation is unchanged by a method whose
    assignments all fall in [fields]. *)

Inductive Field :=
| Fplayer | Fbullets | Fenemies | Fparticles | Fscore | Fwave
| FisRunning | FisPaused | FcheatMode | FgameState | FlastTime
| FenemyTimer | FenemyInterval | FbackgroundY | Fkeys | FisMuted
| Ftimers | Fdetached | FnextId | FrandomCalls | Feffects.

Definition indep {X : Type} (f : Game.t -> X) (fld : Field) : Prop :=
  match fld with
  | Fplayer => forall v g, f (set_player v g) = f g
  | Fbullets => forall v g, f (set_bullets v g) = f g
  | Fenemies => forall v g, f (set_enemies v g) = f g
  | Fparticles => forall v g, f (set_particles v g) = f g
  | Fscore => forall v g, f (set_score v g) = f g
  | Fwave => forall v g, f (set_wave v g) = f g
  | FisRunning => forall v g, f (set_isRunning v g) = f g
  | FisPaused => forall v g, f (set_isPaused v g) = f g
  | FcheatMode => forall v g, f (set_cheatMode v g) = f g
  | FgameState => forall v g, f (set_gameState v g) = f g
  | FlastTime => forall v g, f (set_lastTime v g) = f g
  | FenemyTimer => forall v g, f (set_enemyTimer v g) = f g
  | FenemyInterval => forall v g, f (set_enemyInterval v g) = f g
  | FbackgroundY => forall v g, f (set_backgroundY v g) = f g
  | Fkeys => forall v g, f (set_keys v g) = f g
  | FisMuted => forall v g, f (set_isMuted v g) = f g
  | Ftimers => forall v g, f (set_timers v g) = f g
  | Fdetached => forall v g, f (set_detached v g) = f g
  | FnextId => forall v g, f (set_nextId v g) = f g
  | FrandomCalls => forall v g, f (set_randomCalls v g) = f g
  | Feffects => forall v g, f (set_effects v g) = f g
  end.

Definition frame {X : Type} (f : Game.t -> X) (fields : list Field) : Prop :=
  forall fld, In fld fields -> indep f fld.

(** *** The collision test in the words of the specification *)

(** An entity's box moved inward by a tenth of its width at the left and
    right and by a tenth of its height at the top and bottom. *)
Record Shrunk := mkShrunk { s_left : Q; s_right : Q; s_top : Q; s_bottom : Q }.

Definition spec_shrink {A : Type} `{Rect A} (r : A) : Shrunk :=
  {| s_left := rect_x r + 0.1 * rect_width r;
     s_right := rect_x r + rect_width r - 0.1 * rect_width r;
     s_top := rect_y r + 0.1 * rect_height r;
     s_bottom := rect_y r + rect_height r - 0.1 * rect_height r |}.

(** Overlap on both axes, touching edges excluded. *)
Definition spec_overlap (a b : Shrunk) : Prop :=
  (s_left a < s_right b /\ s_left b < s_right a) /\
  (s_top a < s_bottom b /\ s_top b < s_bottom a).

(** *** Damage to the player *)

(** [game.player.takeDamage(amount)] on a game that has a player. *)
Definition playerTakesDamage (g : Game.t) (amount : Z) : Game.t :=
  match player g with
  | Some p => Player_takeDamage amount p g
  | None => g
  end.

Definition playerHp (g : Game.t) : option Z := option_map Player.hp (player g).

Definition isGameOverCall (e : Effect) : bool :=
  match e with UiShowGameOver _ _ => true | _ => false end.

(** How many times [gameOver()] has run: each run shows the game-over
    screen once. *)
Definition gameOvers (g : Game.t) : nat := length (filter isGameOverCall (effects g)).

(** The running totals [acc + a1], [acc + a1 + a2], ... *)
Fixpoint prefixSums (acc : Z) (amounts : list Z) : list Z :=
  match amounts with
  | [] => []
  | a :: rest => (acc + a)%Z :: prefixSums (acc + a)%Z rest
  end.

(** *** The chain reaction *)

(** The timeouts [triggerChainReaction] creates for an array of enemies
    whose first element has index [index]. *)
Fixpoint chainTimers (index : nat) (ids : list nat) : list Timer :=
  match ids with
  | [] => []
  | id :: rest =>
      mkTimer (inject_Z (Z.of_nat index) * 100) (ChainKill id) :: chainTimers (S index) rest
  end.

(** *** States used as concrete inputs *)

Definition halves : nat -> Q := fun _ => 0.5.

(** The page's game after a click on the start button at time 0. *)
Definition started : Game.t := Game_start 0 (theGame halves).

Definition startedPlayer : Player.t := Player_new (theGame halves).

(** *** Damage to an enemy and the collision pass *)

(** The enemy after [hp -= amount] and, at [hp <= 0], the death mark. *)
Definition Enemy_damaged (amount : Z) (e : Enemy.t) : Enemy.t :=
  let e := Enemy_set_hp (Enemy.hp e - amount) e in
  if (Enemy.hp e <=? 0)%Z then Enemy_set_markedForDeletion true e else e.

(** How many bullets of [bs] pass the collision test against [e]. *)
Definition hitsOn (bs : list Bullet.t) (e : Enemy.t) : nat :=
  length (filter (fun b => checkCollision b e) bs).

(** The bullet after a pass over the enemies [es]. *)
Definition Bullet_spent (es : list Enemy.t) (b : Bullet.t) : Bullet.t :=
  if existsb (checkCollision b) es then Bullet_set_markedForDeletion true b else b.

(** One bullet over two fighters that stand on the same spot. *)
Definition twoFightersOneBullet : Game.t :=
  set_bullets [Bullet_new 115 110 (-600)]
    (set_enemies
       [Enemy.mk 0 100 100 50 50 false fighter 3 30 0 80 0;
        Enemy.mk 1 100 100 50 50 false fighter 3 30 0 80 0]
       started).

(** Two bullets over one scout. *)
Definition twoBulletsOneScout : Game.t :=
  set_bullets [Bullet_new 115 110 (-600); Bullet_new 120 110 (-600)]
    (set_enemies [Enemy.mk 0 100 100 40 40 false scout 1 10 50 150 0] started).

(** A boss that is already dead, followed by a live scout. *)
Definition deadBossAndScout : Game.t :=
  set_enemies
    [Enemy.mk 0 340 100 120 100 true boss 0 500 0 20 0;
     Enemy.mk 1 100 100 40 40 false scout 1 10 50 150 0]
    started.

(** The particles of one colourless explosion of [count] particles at
    [(x, y)], when [k] calls of [Math.random] came before it. *)
Fixpoint burst (x y : Q) (random : nat -> Q) (k : nat) (count : nat) : list Particle.t :=
  match count with
  | O => []
  | S n =>
      Particle.mk x y (random k * 5 + 2) (random (1 + k)%nat * 200 - 100)
        (random (2 + k)%nat * 200 - 100) (Hsl (random (3 + k)%nat * 60 + 180)) 1 false
      :: burst x y random (4 + k) n
  end.

(** The enemy after the test against the player [p]. *)
Definition Enemy_rammed (p : Player.t) (e : Enemy.t) : Enemy.t :=
  if checkCollision e p then Enemy_set_markedForDeletion true e else e.

(** The explosions of the enemies of [es] that collide with [p], in the
    order of the array. *)
Fixpoint ramBursts (p : Player.t) (random : nat -> Q) (k : nat) (es : list Enemy.t)
  : list Particle.t :=
  match es with
  | [] => []
  | e :: rest =>
      if checkCollision e p
      then burst (Enemy.x e) (Enemy.y e) random k 10 ++ ramBursts p random (40 + k) rest
      else ramBursts p random k rest
  end.

(** A scout that overlaps the player, in autonomous mode. *)
Definition scoutOnPlayerCheat : Game.t :=
  set_cheatMode true
    (set_enemies [Enemy.mk 0 380 530 40 40 false scout 1 10 50 150 0] started).

(** Two player records that occupy the same box. *)
Definition Player_sameBox (p q : Player.t) : Prop :=
  Player.x p = Player.x q /\ Player.y p = Player.y q /\
  Player.width p = Player.width q /\ Player.height p = Player.height q.

(** *** The wave schedule *)

(** The spawn interval of the specification for wave [w]. *)
Definition spec_spawnInterval (w : Z) : Q := Math_max 0.5 (1.5 - inject_Z w * 0.1).

(** What the wave director keeps between frames. *)
Definition schedule (g : Game.t) : Z * Q := (wave g, enemyInterval g).

(** A started game whose score is already past three thresholds. *)
Definition scored1600 : Game.t := set_score 1600 started.

(** Whether a frame of [g] gets to the wave check of [update]: the game
    runs, is not paused and is in the Playing state, with its player. *)
Definition checksWave (g : Game.t) : bool :=
  isRunning g && negb (isPaused g) &&
  match gameState g, player g with
  | PLAYING, Some _ => true
  | _, _ => false
  end.

(** *** Liveness of the members of the collections *)

Definition Particle_live (p : Particle.t) : Prop := Particle.markedForDeletion p = false.

(** [g'] has the particles of [g] followed by freshly spawned, live ones. *)
Definition spawnsParticles (g g' : Game.t) : Prop :=
  exists news, particles g' = particles g ++ news /\ Forall Particle_live news.

(** The particles of [g] after the particle phase of an update. *)
Definition agedParticles (deltaTime : Q) (g : Game.t) : list Particle.t :=
  filter (fun p => negb (Particle.markedForDeletion p))
    (map (Particle_update deltaTime) (particles g)).



(** What a frame draws of each collection, in drawing order. *)
Definition drawnBullets (ops : list DrawOp) : list Bullet.t :=
  flat_map (fun op => match op with DrawBullet b => [b] | _ => [] end) ops.

Definition drawnEnemies (ops : list DrawOp) : list Enemy.t :=
  flat_map (fun op => match op with DrawEnemy e => [e] | _ => [] end) ops.

Definition drawnParticles (ops : list DrawOp) : list Particle.t :=
  flat_map (fun op => match op with DrawParticle p => [p] | _ => [] end) ops.

(** A started game with one particle, and the same game after Escape. *)
Definition startedWithParticle : Game.t :=
  set_particles [Particle.mk 100 100 3 10 10 (Hsl 200) 1 false] started.

Definition pausedWithParticle : Game.t :=
  run [KeyDown "Escape" false] startedWithParticle.


(** The started game in autonomous mode; no enemy has been spawned yet and
    the player stands at the horizontal centre of the arena. *)
Definition autonomousStarted : Game.t := run [KeyDown "KeyC" true] started.

(** A player with 20 hp under two scouts at once. *)
Definition weakPlayerTwoScouts : Game.t :=
  set_player (Some (Player_set_hp 20 startedPlayer))
    (set_enemies
       [Enemy.mk 0 380 530 40 40 false scout 1 10 50 150 0;
        Enemy.mk 1 385 530 40 40 false scout 1 10 50 150 0]
       started).

(** The same player and scouts with a bullet over the scouts: the frame in
    which the bullet hits is the frame in which the player dies. *)
Definition lastStand : Game.t :=
  set_bullets [Bullet_new 395 545 (-600)] weakPlayerTwoScouts.

(** * Further vocabulary

    Definitions used by the properties of the code outside the collision
    pass and the wave director. *)

(** The horizontal distance [updateAI] minimises. *)
Definition aiDistance (px : Q) (e : Enemy.t) : Q := Math_abs (Enemy.x e - px).

(** 1 for a key that is held, 0 otherwise. *)
Definition held (code1 code2 : string) (g : Game.t) : Q :=
  if isDown code1 g || isDown code2 g then 1 else 0.

(** A fresh particle, as [new Particle] leaves it. *)
Definition freshParticle : Particle.t := Particle.mk 100 100 3 10 10 (Hsl 200) 1 false.

(** A particle after a sequence of frames. *)
Definition Particle_aged (deltaTimes : list Q) (p : Particle.t) : Particle.t :=
  fold_left (fun p deltaTime => Particle_update deltaTime p) deltaTimes p.

Definition Qsum (l : list Q) : Q := fold_right Qplus 0 l.

(** Whether [Player.update] fires: the fire key or the autopilot, and a
    cooldown that is over or ends within this frame. *)
Definition fires (deltaTime : Q) (this : Player.t) (g : Game.t) : bool :=
  (isDown "Space" g || cheatMode g) &&
  (Qleb (Player.shootTimer this) 0 || Qleb (Player.shootTimer this) deltaTime).

Definition bossCount (es : list Enemy.t) : nat := length (filter isBoss es).

(** What [Math.random] promises of its values. *)
Definition unitRandom (random : nat -> Q) : Prop := forall k, 0 <= random k /\ random k < 1.

(** A particle as [new Particle(game, x, y, color)] makes it. *)
Definition Particle_freshAt (x y : Q) (p : Particle.t) : Prop :=
  Particle.x p = x /\ Particle.y p = y /\
  Particle.life p = 1 /\ Particle.markedForDeletion p = false /\
  (2 <= Particle.size p /\ Particle.size p < 7) /\
  (-100 <= Particle.speedX p /\ Particle.speedX p < 100) /\
  (-100 <= Particle.speedY p /\ Particle.speedY p < 100).

(** The chain-reaction closures for the enemies [ids], run in that order. *)
Definition fireChain (ids : list nat) (g : Game.t) : Game.t :=
  fold_left (fun g id => chainKill id g) ids g.

(** The game after the dead boss of [deadBossAndScout] is hit once more:
    two chain-reaction timeouts and the delayed victory are pending. *)
Definition bossJustDied : Game.t := Enemy_takeDamage 0 1 deadBossAndScout.

(** *** Invariants of a run *)

(** The archetype and the score value of every enemy of the array. *)
Definition enemyKinds (g : Game.t) : list (EnemyType * Z) :=
  map (fun e => (Enemy.type e, Enemy.scoreValue e)) (enemies g).

Definition payNonneg (g : Game.t) : Prop :=
  Forall (fun k : EnemyType * Z => (0 <= snd k)%Z) (enemyKinds g).

Definition bossKinds (g : Game.t) : nat :=
  length (filter (fun k : EnemyType * Z => match fst k with boss => true | _ => false end)
            (enemyKinds g)).

(** The player's hp is within [0, 100] and positive while playing, and a
    game in the Playing state has a player. *)
Definition healthy (g : Game.t) : Prop :=
  match player g with
  | Some p =>
      (0 <= Player.hp p /\ Player.hp p <= 100)%Z /\
      (gameState g = PLAYING -> (0 < Player.hp p)%Z)
  | None => gameState g <> PLAYING
  end.

Definition sound (g : Game.t) : Prop :=
  healthy g /\ payNonneg g /\ (bossKinds g <= 1)%nat /\ (0 <= score g)%Z.

(** What [sound] reads of the state. *)
Definition core (g : Game.t) : option Player.t * GameState * list Enemy.t * Z :=
  (player g, gameState g, enemies g, score g).

(** The enemy kinds stay and the score does not fall. *)
Definition scoresUp (g g' : Game.t) : Prop :=
  enemyKinds g' = enemyKinds g /\ (payNonneg g -> (score g <= score g')%Z).

Definition isStart (ev : Event) : bool :=
  match ev with ClickStart _ | ClickRestart _ | ClickPlayAgain _ => true | _ => false end.

(** *** Frames and the keyboard *)

(** What no frame assigns: the flags set by the entry points, the clock
    apart, and the key state. *)
Definition controls (g : Game.t) : bool * bool * bool * bool * list Enemy.t :=
  (isRunning g, isPaused g, cheatMode g, isMuted g, detached g).

(** How many enemies of [es] pass the collision test against [p]. *)
Definition rams (p : Player.t) (es : list Enemy.t) : nat :=
  length (filter (fun e => checkCollision e p) es).

(** The started game after Escape. *)
Definition pausedStarted : Game.t := run [KeyDown "Escape" false] started.

(** ** AssetManager, script.js 7-38

    [images] is the list of the assignments [this.images[key] = img],
    newest first; an image object is represented by its [src].  The
    browser's [onload] event of an image is a call of [handleLoad];
    [completions] counts the runs of the [onComplete] callback, which
    [onLoad] registers.

    [this.images] is a plain object literal, so a lookup that finds no
    property of the object itself goes on to its prototype.  That is
    [Object.prototype] until an assignment to the key ["__proto__"], which
    makes the assigned image the prototype instead of creating a property;
    reading ["__proto__"] gives the prototype back.  Every other
    assignment creates or replaces a property of the object itself as long
    as the prototype is [Object.prototype], which has no other setter; what
    an assignment does under the name of a setter of an image element,
    once such an element is the prototype, is left to the browser and
    outside these definitions. *)

(** The object a lookup can fall through to. *)
Inductive Prototype :=
| ObjectPrototype
| ImageElement (src : string).

(** The result of [this.images[key]]. *)
Inductive Property :=
| Image (src : string)
| Inherited (from : Prototype) (key : string)
| Undefined.

(** The names [Object.prototype] defines in a browser. *)
Definition objectPrototypeKeys : list string :=
  ["constructor"; "hasOwnProperty"; "isPrototypeOf"; "propertyIsEnumerable";
   "toLocaleString"; "toString"; "valueOf"; "__proto__";
   "__defineGetter__"; "__defineSetter__"; "__lookupGetter__"; "__lookupSetter__"]%string.

Module AssetManager.
Record t := mk {
  images : list (string * string);
  totalAssets : nat;
  loadedAssets : nat;
  onComplete : bool;
  completions : nat }.
End AssetManager.

Definition AssetManager_new : AssetManager.t := AssetManager.mk [] 0 0 false 0.

Definition AssetManager_loadImage (key src : string) (a : AssetManager.t) : AssetManager.t :=
  AssetManager.mk ((key, src) :: AssetManager.images a) (S (AssetManager.totalAssets a))
    (AssetManager.loadedAssets a) (AssetManager.onComplete a) (AssetManager.completions a).

Definition AssetManager_handleLoad (a : AssetManager.t) : AssetManager.t :=
  let loaded := S (AssetManager.loadedAssets a) in
  if Nat.eqb loaded (AssetManager.totalAssets a) && AssetManager.onComplete a
  then AssetManager.mk (AssetManager.images a) (AssetManager.totalAssets a) loaded
         (AssetManager.onComplete a) (S (AssetManager.completions a))
  else AssetManager.mk (AssetManager.images a) (AssetManager.totalAssets a) loaded
         (AssetManager.onComplete a) (AssetManager.completions a).

Definition AssetManager_onLoad (a : AssetManager.t) : AssetManager.t :=
  AssetManager.mk (AssetManager.images a) (AssetManager.totalAssets a)
    (AssetManager.loadedAssets a) true (AssetManager.completions a).

(** The latest assignment to [key], if any. *)
Definition assigned (key : string) (a : AssetManager.t) : option string :=
  option_map snd (find (fun kv => String.eqb (fst kv) key) (AssetManager.images a)).

(** [getImage(key)]: the image assigned to the key; failing that, what
    the prototype has under that name. *)
Definition AssetManager_getImage (key : string) (a : AssetManager.t) : Property :=
  match assigned key a with
  | Some src => Image src
  | None =>
      match assigned "__proto__" a with
      | Some src => Inherited (ImageElement src) key
      | None =>
          if existsb (String.eqb key) objectPrototypeKeys
          then Inherited ObjectPrototype key
          else Undefined
      end
  end.

(** [loadImage] for each pair of a list, first to last. *)
Definition loadImages (srcs : list (string * string)) (a : AssetManager.t) : AssetManager.t :=
  fold_left (fun a kv => AssetManager_loadImage (fst kv) (snd kv) a) srcs a.

(** [Game.loadAssets()], script.js 568-579. *)
Definition Game_loadAssets (a : AssetManager.t) : AssetManager.t :=
  let a := AssetManager_loadImage "player" "assets/player_ship.png" a in
  let a := AssetManager_loadImage "scout" "assets/enemy_scout.png" a in
  let a := AssetManager_loadImage "fighter" "assets/enemy_fighter.png" a in
  let a := AssetManager_loadImage "boss" "assets/boss_ship.png" a in
  let a := AssetManager_loadImage "bg" "assets/background_stars.png" a in
  AssetManager_onLoad a.

(** ** UIManager.updateScore, script.js 511-513

    [score.toString().padStart(6, '0')] for an integer score. *)

From Stdlib Require Import Ascii.
From Stdlib Require DecimalString DecimalZ.

Definition Number_toString (z : Z) : string :=
  DecimalString.NilZero.string_of_int (Z.to_int z).

Fixpoint zeros (k : nat) : string :=
  match k with
  | O => EmptyString
  | S k => String "0"%char (zeros k)
  end.

(** [s.padStart(targetLength, '0')]. *)
Definition padStart0 (targetLength : nat) (s : string) : string :=
  String.append (zeros (targetLength - String.length s)) s.

Definition UIManager_scoreText (score : Z) : string := padStart0 6 (Number_toString score).

(** Reading a decimal numeral back, as [parseInt] would. *)
Definition readNumber (s : string) : option Z :=
  option_map Z.of_int (DecimalString.NilZero.int_of_string s).

(** *** Hits and waves *)

(** The least wave at which a score stops the wave from advancing: the
    score divided by 500, rounded up. *)
Definition waveTarget (score : Z) : Z := ((score + 499) / 500)%Z.

(** A started game with one live fighter in the array. *)
Definition oneFighter : Game.t :=
  set_enemies [Enemy.mk 0 100 100 50 50 false fighter 3 30 0 80 0] started.
(** ** Binary64 arithmetic

    The numbers of the program are IEEE 754 doubles.  The definitions above
    compute with exact rationals; this module gives the two methods whose
    outcome rounding decides at positions the game produces,
    [Entity.checkCollision] and [Particle.update], over doubles.

    A double is the rational it denotes.  [round] is the rounding every
    arithmetic operation and every numeric literal of the source goes
    through: to the nearest number with a 53-bit significand, ties to the
    even significand, with the gradual underflow of the format (no unit in
    the last place below [2^-1074]).  Overflow is left out: a result of
    magnitude [2^1024] or more, where the program would hold an infinity,
    stays finite here.  Signed zeros are not told apart; the two methods
    only add, subtract, multiply and compare. *)

From Stdlib Require Import Qround Qabs Qpower.
From Stdlib Require Floats.

Module Double.

Definition pow2 (e : Z) : Q := 2 ^ e.

(** The exponent [e] of the binade of a positive rational:
    [2^e <= q < 2^(e+1)]. *)
Definition ilog2 (q : Q) : Z :=
  let e := (Z.log2 (Qnum q) - Z.log2 (Zpos (Qden q)))%Z in
  if Qleb (pow2 e) q then e else (e - 1)%Z.

(** The nearest integer, a tie going to the even one. *)
Definition nearestEven (x : Q) : Z :=
  let f := Qfloor x in
  match Qcompare (x - inject_Z f) (1 # 2) with
  | Lt => f
  | Gt => (f + 1)%Z
  | Eq => if Z.even f then f else (f + 1)%Z
  end.

(** The exponent of the unit in the last place at a positive [q]. *)
Definition ulpExponent (q : Q) : Z := Z.max (ilog2 q - 52) (-1074).

Definition roundPos (q : Q) : Q :=
  let k := ulpExponent q in inject_Z (nearestEven (q / pow2 k)) * pow2 k.

Definition round (q : Q) : Q :=
  Qred match Qcompare q 0 with
       | Eq => 0
       | Gt => roundPos q
       | Lt => - roundPos (- q)
       end.

(** The operators [+], [-] and [*] of the source, and a numeric literal. *)
Definition add (a b : Q) : Q := round (a + b).
Definition sub (a b : Q) : Q := round (a - b).
Definition mul (a b : Q) : Q := round (a * b).
Definition lit (q : Q) : Q := round q.

(** [Entity.checkCollision(rect)], script.js 86-96. *)
Definition checkCollision {A B : Type} `{Rect A} `{Rect B} (this : A) (rect : B) : bool :=
  let marginX := mul (rect_width this) (lit 0.1) in
  let marginY := mul (rect_height this) (lit 0.1) in
  Qltb (add (rect_x this) marginX)
       (sub (add (rect_x rect) (rect_width rect)) (mul (rect_width rect) (lit 0.1))) &&
  Qgtb (sub (add (rect_x this) (rect_width this)) marginX)
       (add (rect_x rect) (mul (rect_width rect) (lit 0.1))) &&
  Qltb (add (rect_y this) marginY)
       (sub (add (rect_y rect) (rect_height rect)) (mul (rect_height rect) (lit 0.1))) &&
  Qgtb (sub (add (rect_y this) (rect_height this)) marginY)
       (add (rect_y rect) (mul (rect_height rect) (lit 0.1))).

(** [Particle.update(deltaTime)], script.js 307-312. *)
Definition Particle_update (deltaTime : Q) (p : Particle.t) : Particle.t :=
  let p := Particle_set_x (add (Particle.x p) (mul (Particle.speedX p) deltaTime)) p in
  let p := Particle_set_y (add (Particle.y p) (mul (Particle.speedY p) deltaTime)) p in
  let p := Particle_set_life (sub (Particle.life p) (mul deltaTime 2)) p in
  if Qleb (Particle.life p) 0 then Particle_set_markedForDeletion true p else p.

(** A particle after a sequence of frames. *)
Definition Particle_aged (deltaTimes : list Q) (p : Particle.t) : Particle.t :=
  fold_left (fun p deltaTime => Particle_update deltaTime p) deltaTimes p.

(** *** Distance from the exact test *)

(** How far rounding can move a shrunk edge from its exact place: eight
    units of relative precision of the magnitudes that enter it. *)
Definition slack (position extent : Q) : Q :=
  (Qabs position + Qabs extent) * pow2 (-50) + pow2 (-1072).

(** Magnitudes far below the largest double, so that no sum overflows. *)
Definition inRange {A : Type} `{Rect A} (r : A) : Prop :=
  Qabs (rect_x r) + Qabs (rect_width r) <= pow2 1000 /\
  Qabs (rect_y r) + Qabs (rect_height r) <= pow2 1000.

(** Two boxes in range of which no two edges that the test compares lie
    within rounding distance of each other. *)
Definition clear {A B : Type} `{Rect A} `{Rect B} (a : A) (b : B) : Prop :=
  let sa := spec_shrink a in
  let sb := spec_shrink b in
  let tx := slack (rect_x a) (rect_width a) + slack (rect_x b) (rect_width b) in
  let ty := slack (rect_y a) (rect_height a) + slack (rect_y b) (rect_height b) in
  (inRange a /\ inRange b) /\
  tx < Qabs (s_left sa - s_right sb) /\ tx < Qabs (s_right sa - s_left sb) /\
  ty < Qabs (s_top sa - s_bottom sb) /\ ty < Qabs (s_bottom sa - s_top sb).

(** *** The collision test in the words of the specification, in doubles *)

(** The margin the test takes off each side of an extent. *)
Definition margin (extent : Q) : Q := mul extent (lit 0.1).

(** The box moved inward by its margins, each edge as the program
    computes it. *)
Definition spec_shrink {A : Type} `{Rect A} (r : A) : Shrunk :=
  {| s_left := add (rect_x r) (margin (rect_width r));
     s_right := sub (add (rect_x r) (rect_width r)) (margin (rect_width r));
     s_top := add (rect_y r) (margin (rect_height r));
     s_bottom := sub (add (rect_y r) (rect_height r)) (margin (rect_height r)) |}.

(** The value of a machine double, for comparison with [round]. *)
Definition ofFloat (f : PrimFloat.float) : option Q :=
  match FloatOps.Prim2SF f with
  | SpecFloat.S754_zero _ => Some 0
  | SpecFloat.S754_finite negative m e =>
      Some (Qred ((if negative then -1 else 1) * inject_Z (Zpos m) * pow2 e))
  | _ => None
  end.

End Double.

(** *** Positions at which rounding decides *)

(** A bullet at 59.4 and a scout at 59.9: in exact arithmetic the right
    edge of the bullet's shrunk box and the left edge of the scout's are
    the same number. *)
Definition touchingBullet : Bullet.t := Bullet_new (Double.lit 59.4) 100 (-600).
Definition touchedScout : Enemy.t :=
  Enemy.mk 0 (Double.lit 59.9) 100 40 40 false scout 1 10 50 150 0.

(** A bullet at 35.8 and a scout at 0.3: in exact arithmetic the left edge
    of the bullet's shrunk box is inside the scout's by less than a
    hundred-million-millionth of a pixel. *)
Definition grazingBullet : Bullet.t := Bullet_new (Double.lit 35.8) 100 (-600).
Definition grazedScout : Enemy.t :=
  Enemy.mk 0 (Double.lit 0.3) 100 40 40 false scout 1 10 50 150 0.

(** A bullet well inside a scout. *)
Definition centredBullet : Bullet.t := Bullet_new 115 125 (-600).
Definition centredScout : Enemy.t := Enemy.mk 0 100 100 40 40 false scout 1 10 50 150 0.

(** * Properties *)

(** ** Comparison of JavaScript numbers *)

Lemma Qltb_lt (a b : Q) : Qltb a b = true <-> a < b.
Proof. unfold Qltb, Qlt. apply Z.ltb_lt. Qed.

Lemma Qltb_ge (a b : Q) : Qltb a b = false <-> b <= a.
Proof. unfold Qltb, Qle. apply Z.ltb_ge. Qed.

Lemma Math_max_lower (a b : Q) : a <= Math_max a b.
Proof.
  unfold Math_max. destruct (Qltb a b) eqn:E.
  - apply Qltb_lt in E. lra.
  - lra.
Qed.

(** ** The collision test *)

Lemma checkCollision_true {A B : Type} `{Rect A} `{Rect B} (a : A) (b : B) :
  checkCollision a b = true <-> spec_overlap (spec_shrink a) (spec_shrink b).
Proof.
  unfold checkCollision, spec_overlap, spec_shrink, Qgtb; cbn.
  rewrite !andb_true_iff, !Qltb_lt.
  split; intros; repeat match goal with H : _ /\ _ |- _ => destruct H end;
    repeat split; lra.
Qed.

(** ** Footprints of the methods *)

Ltac solve_frame :=
  let fld := fresh "fld" in
  let Hin := fresh "Hin" in
  intros fld Hin; cbn in Hin;
  repeat (destruct Hin as [<- | Hin]; [cbn; intros; reflexivity|]);
  contradiction.

(** From a footprint to one of its subsets. *)
Ltac sub_frame H :=
  let fld := fresh "fld" in
  let Hin := fresh "Hin" in
  intros fld Hin; apply H; cbn in Hin |- *; tauto.

Section Frames.
Context {X : Type} (f : Game.t -> X).

Lemma emit_frame e g : frame f [Feffects] -> f (emit e g) = f g.
Proof. intros H. apply (H Feffects). now left. Qed.

Lemma setTimeout_frame a ms g : frame f [Ftimers] -> f (setTimeout a ms g) = f g.
Proof. intros H. apply (H Ftimers). now left. Qed.

Lemma Particle_new_frame x y c g :
  frame f [FrandomCalls] -> f (snd (Particle_new x y c g)) = f g.
Proof.
  intros H. pose proof (H FrandomCalls (or_introl eq_refl)) as Hr. cbn in Hr.
  unfold Particle_new, Math_random. destruct c; cbn [snd]; now rewrite !Hr.
Qed.

Lemma pushParticles_frame n x y c g :
  frame f [Fparticles; FrandomCalls] -> f (pushParticles n x y c g) = f g.
Proof.
  intros H. revert g. induction n as [|n IH]; intros g; [reflexivity|].
  cbn [pushParticles].
  destruct (Particle_new x y c g) as [p g1] eqn:E.
  rewrite IH.
  pose proof (H Fparticles) as Hp. cbn in Hp. rewrite Hp by tauto.
  change g1 with (snd (p, g1)). rewrite <- E.
  apply Particle_new_frame. sub_frame H.
Qed.

Lemma createExplosion_frame x y n c g :
  frame f [Fparticles; FrandomCalls; Feffects] -> f (Game_createExplosion x y n c g) = f g.
Proof.
  intros H. unfold Game_createExplosion.
  rewrite pushParticles_frame by sub_frame H.
  apply emit_frame. sub_frame H.
Qed.

Lemma scheduleChain_frame es k g : frame f [Ftimers] -> f (scheduleChain es k g) = f g.
Proof.
  intros H. revert k g. induction es as [|e es IH]; intros k g; [reflexivity|].
  cbn [scheduleChain]. rewrite IH. now apply setTimeout_frame.
Qed.

Lemma triggerChainReaction_frame g : frame f [Ftimers] -> f (Game_triggerChainReaction g) = f g.
Proof. apply scheduleChain_frame. Qed.

Lemma gameOver_frame g : frame f [FgameState; Feffects] -> f (Game_gameOver g) = f g.
Proof.
  intros H. unfold Game_gameOver. rewrite emit_frame by sub_frame H.
  apply (H FgameState). now left.
Qed.

Lemma victory_frame g : frame f [FgameState; Feffects] -> f (Game_victory g) = f g.
Proof.
  intros H. unfold Game_victory. rewrite emit_frame by sub_frame H.
  apply (H FgameState). now left.
Qed.

Lemma Player_takeDamage_frame a p g :
  frame f [Fplayer; FgameState; Feffects] -> f (Player_takeDamage a p g) = f g.
Proof.
  intros H. unfold Player_takeDamage.
  pose proof (H Fplayer) as Hp. cbn in Hp.
  destruct (cheatMode g); [reflexivity|].
  cbn. destruct (_ <=? 0)%Z.
  - rewrite emit_frame by sub_frame H. rewrite gameOver_frame by sub_frame H.
    apply Hp. tauto.
  - rewrite emit_frame by sub_frame H. apply Hp. tauto.
Qed.

Lemma Enemy_takeDamage_frame j a g :
  frame f [Fenemies; Fparticles; Fscore; Ftimers; FrandomCalls; Feffects] ->
  f (Enemy_takeDamage j a g) = f g.
Proof.
  intros H. unfold Enemy_takeDamage.
  pose proof (H Fenemies) as He. cbn in He.
  pose proof (H Fscore) as Hs. cbn in Hs.
  destruct (nth_error (enemies g) j) as [e|]; [|reflexivity].
  cbn zeta.
  destruct (_ <=? 0)%Z.
  - destruct (Enemy.type _).
    + rewrite createExplosion_frame by sub_frame H.
      rewrite emit_frame by sub_frame H.
      rewrite Hs, He by tauto. rewrite emit_frame by sub_frame H. apply He. tauto.
    + rewrite createExplosion_frame by sub_frame H.
      rewrite emit_frame by sub_frame H.
      rewrite Hs, He by tauto. rewrite emit_frame by sub_frame H. apply He. tauto.
    + rewrite setTimeout_frame by sub_frame H.
      rewrite triggerChainReaction_frame by sub_frame H.
      rewrite createExplosion_frame by sub_frame H.
      rewrite emit_frame by sub_frame H.
      rewrite Hs, He by tauto. rewrite emit_frame by sub_frame H. apply He. tauto.
  - rewrite emit_frame by sub_frame H. apply He. tauto.
Qed.

End Frames.

(** ** Arrays *)

Lemma nth_error_list_set_eq {A : Type} (l : list A) (j : nat) (v w : A) :
  nth_error l j = Some w -> nth_error (list_set j v l) j = Some v.
Proof.
  revert j. induction l as [|h t IH]; intros [|j]; cbn; try discriminate; auto.
Qed.

Lemma list_set_twice {A : Type} (l : list A) (j : nat) (v w : A) :
  list_set j w (list_set j v l) = list_set j w l.
Proof.
  revert j. induction l as [|h t IH]; intros [|j]; cbn; auto. now rewrite IH.
Qed.

Lemma map_list_set {A B : Type} (f : A -> B) (l : list A) (j : nat) (v w : A) :
  nth_error l j = Some w -> f v = f w -> map f (list_set j v l) = map f l.
Proof.
  revert j. induction l as [|h t IH]; intros [|j]; cbn; try discriminate.
  - intros [= ->] ->. reflexivity.
  - intros Hj Hf. f_equal. now apply IH.
Qed.

(** ** Damage to the player *)

Lemma gameOvers_emit e g :
  gameOvers (emit e g) = (gameOvers g + if isGameOverCall e then 1 else 0)%nat.
Proof.
  unfold gameOvers, emit. cbn [effects set_effects].
  rewrite filter_app, length_app. cbn. now destruct (isGameOverCall e).
Qed.

Lemma Player_takeDamage_player a p g :
  cheatMode g = false ->
  player (Player_takeDamage a p g) = Some (Player_set_hp (Z.max 0 (Player.hp p - a)) p).
Proof.
  intros Hc. unfold Player_takeDamage. rewrite Hc. cbn.
  destruct (Player.hp p - a <=? 0)%Z eqn:E.
  - apply Z.leb_le in E. rewrite Z.max_l by lia. reflexivity.
  - apply Z.leb_gt in E. rewrite Z.max_r by lia. reflexivity.
Qed.

Lemma Player_takeDamage_gameOvers a p g :
  cheatMode g = false ->
  gameOvers (Player_takeDamage a p g)
  = (gameOvers g + if (Player.hp p - a <=? 0)%Z then 1 else 0)%nat.
Proof.
  intros Hc. unfold Player_takeDamage. rewrite Hc. cbn.
  destruct (Player.hp p - a <=? 0)%Z.
  - rewrite gameOvers_emit. unfold Game_gameOver. rewrite gameOvers_emit.
    unfold gameOvers. cbn. lia.
  - rewrite gameOvers_emit. unfold gameOvers. cbn. lia.
Qed.

Lemma takeDamage_run (H0 : Z) (amounts : list Z) :
  forall (acc : Z) (g : Game.t) (p : Player.t),
    player g = Some p -> cheatMode g = false ->
    (0 <= acc)%Z -> Player.hp p = Z.max 0 (H0 - acc) ->
    forallb (fun a => 0 <=? a)%Z amounts = true ->
    let g' := fold_left playerTakesDamage amounts g in
    playerHp g' = Some (Z.max 0 (H0 - acc - fold_right Z.add 0%Z amounts)) /\
    gameOvers g'
    = (gameOvers g + length (filter (fun s => H0 <=? s)%Z (prefixSums acc amounts)))%nat.
Proof.
  induction amounts as [|a rest IH]; intros acc g p Hp Hc Hacc Hhp Hpos; cbn.
  - unfold playerHp. rewrite Hp. cbn. rewrite Hhp. split; [f_equal; lia | lia].
  - cbn in Hpos. apply andb_true_iff in Hpos as [Ha Hrest]. apply Z.leb_le in Ha.
    assert (Hc' : cheatMode (playerTakesDamage g a) = false).
    { unfold playerTakesDamage. rewrite Hp.
      rewrite (Player_takeDamage_frame cheatMode) by solve_frame. exact Hc. }
    assert (Hp' : player (playerTakesDamage g a)
                  = Some (Player_set_hp (Z.max 0 (Player.hp p - a)) p)).
    { unfold playerTakesDamage. rewrite Hp. now apply Player_takeDamage_player. }
    destruct (IH (acc + a)%Z _ _ Hp' Hc' ltac:(lia) ltac:(cbn; lia) Hrest) as [IH1 IH2].
    split.
    + rewrite IH1. f_equal. lia.
    + rewrite IH2. unfold playerTakesDamage at 1. rewrite Hp.
      rewrite Player_takeDamage_gameOvers by exact Hc.
      rewrite Hhp.
      destruct (Z.max 0 (H0 - acc) - a <=? 0)%Z eqn:E1;
        destruct (H0 <=? acc + a)%Z eqn:E2; cbn; lia.
Qed.

(** C4 (as amended). Outside autonomous mode [takeDamage] subtracts the
    amount and clamps hp at 0, so hp is never negative; [gameOver()] runs in
    every call that leaves hp at 0, and in no other.  For a player with
    positive hp and a sequence of non-negative amounts, hp ends at
    [max 0 (hp - total)] and the number of game-over transitions is the
    number of calls at or after the one that brings hp to 0. *)
Theorem Player_takeDamage_floor_and_gameOver :
  forall (g : Game.t) (p : Player.t) (amount : Z) (amounts : list Z),
    player g = Some p ->
    cheatMode g = false ->
    (0 < Player.hp p)%Z ->
    forallb (fun a => 0 <=? a)%Z amounts = true ->
    (playerHp (playerTakesDamage g amount) = Some (Z.max 0 (Player.hp p - amount)) /\
     gameOvers (playerTakesDamage g amount)
     = (gameOvers g + if (Player.hp p - amount <=? 0)%Z then 1 else 0)%nat) /\
    (playerHp (fold_left playerTakesDamage amounts g)
     = Some (Z.max 0 (Player.hp p - fold_right Z.add 0%Z amounts)) /\
     gameOvers (fold_left playerTakesDamage amounts g)
     = (gameOvers g
        + length (filter (fun total => Player.hp p <=? total)%Z (prefixSums 0 amounts)))%nat).
Proof.
  intros g p amount amounts Hp Hc Hhp Hpos. split.
  - unfold playerTakesDamage. rewrite Hp. split.
    + unfold playerHp. rewrite Player_takeDamage_player by exact Hc. reflexivity.
    + now apply Player_takeDamage_gameOvers.
  - pose proof (takeDamage_run (Player.hp p) amounts 0%Z g p Hp Hc ltac:(lia)
                  ltac:(lia) Hpos) as [H1 H2].
    cbn zeta in H1, H2. split.
    + rewrite H1. f_equal. lia.
    + exact H2.
Qed.

Lemma Player_takeDamage_floor_and_gameOver_witness :
  (playerHp (playerTakesDamage started 20) = Some (Z.max 0 (100 - 20)) /\
   gameOvers (playerTakesDamage started 20)
   = (gameOvers started + if (100 - 20 <=? 0)%Z then 1 else 0)%nat) /\
  (playerHp (fold_left playerTakesDamage [20; 20; 20; 20; 20; 20]%Z started)
   = Some (Z.max 0 (100 - fold_right Z.add 0%Z [20; 20; 20; 20; 20; 20]%Z)) /\
   gameOvers (fold_left playerTakesDamage [20; 20; 20; 20; 20; 20]%Z started)
   = (gameOvers started
      + length (filter (fun total => 100 <=? total)%Z
                  (prefixSums 0 [20; 20; 20; 20; 20; 20]%Z)))%nat).
Proof.
  apply (Player_takeDamage_floor_and_gameOver started startedPlayer 20
           [20; 20; 20; 20; 20; 20]%Z).
  - reflexivity.
  - reflexivity.
  - reflexivity.
  - reflexivity.
Defined.

(** C4, the claim as stated fails: six hits of 20 on the fresh player take
    hp from 100 to 0 once, and [gameOver()] runs twice, at the fifth hit
    and again at the sixth. *)
Lemma gameOver_fires_twice :
  let g := fold_left playerTakesDamage [20; 20; 20; 20; 20; 20]%Z started in
  playerHp started = Some 100%Z /\
  playerHp g = Some 0%Z /\
  gameOvers started = 0%nat /\
  gameOvers g = 2%nat /\
  gameOvers g <> 1%nat.
Proof. vm_compute. repeat split; discriminate. Qed.

(** The same inside the game: two scouts that touch a player with 20 hp in
    the same collision pass run [gameOver()] once each. *)
Example two_rams_two_gameOvers :
  let g' := state_of (Game_checkCollisions weakPlayerTwoScouts) in
  playerHp weakPlayerTwoScouts = Some 20%Z /\
  gameState weakPlayerTwoScouts = PLAYING /\
  gameOvers weakPlayerTwoScouts = 0%nat /\
  playerHp g' = Some 0%Z /\
  gameState g' = GAME_OVER /\
  gameOvers g' = 2%nat.
Proof. vm_compute. repeat split. Qed.


(** ** Damage to an enemy *)

Lemma timers_scheduleChain es k g :
  timers (scheduleChain es k g) = timers g ++ chainTimers k (map Enemy.oid es).
Proof.
  revert k g. induction es as [|e es IH]; intros k g; cbn.
  - now rewrite app_nil_r.
  - rewrite IH. cbn. now rewrite <- app_assoc.
Qed.

Lemma length_particles_pushParticles n x y c g :
  length (particles (pushParticles n x y c g)) = (length (particles g) + n)%nat.
Proof.
  revert g. induction n as [|n IH]; intros g; cbn [pushParticles]; [lia|].
  destruct (Particle_new x y c g) as [p g1] eqn:E.
  rewrite IH. cbn. rewrite length_app. cbn.
  change g1 with (snd (p, g1)). rewrite <- E.
  rewrite (Particle_new_frame particles) by solve_frame. lia.
Qed.

Lemma length_particles_createExplosion x y n c g :
  length (particles (Game_createExplosion x y n c g)) = (length (particles g) + n)%nat.
Proof. unfold Game_createExplosion. now rewrite length_particles_pushParticles. Qed.

Lemma Enemy_takeDamage_enemies j a g e :
  nth_error (enemies g) j = Some e ->
  enemies (Enemy_takeDamage j a g) = list_set j (Enemy_damaged a e) (enemies g).
Proof.
  intros He. unfold Enemy_takeDamage, Enemy_damaged. rewrite He. cbn zeta.
  cbn [Enemy.hp Enemy_set_hp].
  destruct (Enemy.hp e - a <=? 0)%Z.
  - cbn [Enemy.type Enemy_set_hp Enemy_set_markedForDeletion].
    destruct (Enemy.type e).
    + rewrite (createExplosion_frame enemies) by solve_frame. cbn. apply list_set_twice.
    + rewrite (createExplosion_frame enemies) by solve_frame. cbn. apply list_set_twice.
    + rewrite (setTimeout_frame enemies) by solve_frame.
      rewrite (triggerChainReaction_frame enemies) by solve_frame.
      rewrite (createExplosion_frame enemies) by solve_frame. cbn. apply list_set_twice.
  - reflexivity.
Qed.

(** C8. [takeDamage] has no guard on the death mark: called with a
    non-negative amount on an enemy whose hp is already at or below 0 it
    runs the death branch again.  The enemy's score value is added to the
    score once more and an explosion is spawned; for a boss the
    chain-reaction timeouts and the delayed victory are scheduled again. *)
Theorem Enemy_takeDamage_dead_again :
  forall (g : Game.t) (j : nat) (e : Enemy.t) (amount : Z),
    nth_error (enemies g) j = Some e ->
    (Enemy.hp e <= 0)%Z ->
    (0 <= amount)%Z ->
    let g' := Enemy_takeDamage j amount g in
    score g' = (score g + Enemy.scoreValue e)%Z /\
    nth_error (enemies g') j
    = Some (Enemy_set_markedForDeletion true (Enemy_set_hp (Enemy.hp e - amount) e)) /\
    match Enemy.type e with
    | boss =>
        timers g'
        = timers g ++ chainTimers 0 (map Enemy.oid (enemies g)) ++ [mkTimer 2000 CallVictory] /\
        length (particles g') = (length (particles g) + 100)%nat
    | _ =>
        timers g' = timers g /\
        length (particles g') = (length (particles g) + 10)%nat
    end.
Proof.
  intros g j e amount He Hhp Ha g'.
  assert (Hle : (Enemy.hp e - amount <=? 0)%Z = true) by (apply Z.leb_le; lia).
  split; [|split].
  - subst g'. unfold Enemy_takeDamage. rewrite He. cbn zeta.
    cbn [Enemy.hp Enemy_set_hp]. rewrite Hle.
    cbn [Enemy.type Enemy_set_hp Enemy_set_markedForDeletion Enemy.scoreValue].
    destruct (Enemy.type e).
    + rewrite (createExplosion_frame score) by solve_frame. reflexivity.
    + rewrite (createExplosion_frame score) by solve_frame. reflexivity.
    + rewrite (setTimeout_frame score) by solve_frame.
      rewrite (triggerChainReaction_frame score) by solve_frame.
      rewrite (createExplosion_frame score) by solve_frame. reflexivity.
  - subst g'. rewrite (Enemy_takeDamage_enemies _ _ _ _ He).
    unfold Enemy_damaged. cbn [Enemy.hp Enemy_set_hp]. rewrite Hle.
    eapply nth_error_list_set_eq. exact He.
  - subst g'. unfold Enemy_takeDamage. rewrite He. cbn zeta.
    cbn [Enemy.hp Enemy_set_hp]. rewrite Hle.
    cbn [Enemy.type Enemy_set_hp Enemy_set_markedForDeletion Enemy.scoreValue
         Enemy.x Enemy.y Enemy.width Enemy.height].
    destruct (Enemy.type e).
    + split.
      * rewrite (createExplosion_frame timers) by solve_frame. reflexivity.
      * rewrite length_particles_createExplosion. reflexivity.
    + split.
      * rewrite (createExplosion_frame timers) by solve_frame. reflexivity.
      * rewrite length_particles_createExplosion. reflexivity.
    + split.
      * unfold setTimeout. cbn [timers set_timers].
        unfold Game_triggerChainReaction. rewrite timers_scheduleChain.
        rewrite (createExplosion_frame timers) by solve_frame.
        rewrite (createExplosion_frame enemies) by solve_frame.
        cbn [timers enemies emit set_effects set_score set_enemies].
        rewrite (map_list_set Enemy.oid _ _ _ (Enemy_set_hp (Enemy.hp e - amount) e))
          by (try reflexivity; eapply nth_error_list_set_eq; exact He).
        rewrite (map_list_set Enemy.oid _ _ _ e) by (try reflexivity; exact He).
        now rewrite <- app_assoc.
      * rewrite (setTimeout_frame particles) by solve_frame.
        rewrite (triggerChainReaction_frame particles) by solve_frame.
        rewrite length_particles_createExplosion. reflexivity.
Qed.

Lemma Enemy_takeDamage_dead_again_witness :
  let g' := Enemy_takeDamage 0 1 deadBossAndScout in
  score g' = (score deadBossAndScout + 500)%Z /\
  nth_error (enemies g') 0
  = Some (Enemy.mk 0 340 100 120 100 true boss (-1) 500 0 20 0) /\
  timers g'
  = timers deadBossAndScout
    ++ chainTimers 0 (map Enemy.oid (enemies deadBossAndScout))
    ++ [mkTimer 2000 CallVictory] /\
  length (particles g') = (length (particles deadBossAndScout) + 100)%nat.
Proof.
  apply (Enemy_takeDamage_dead_again deadBossAndScout 0
           (Enemy.mk 0 340 100 120 100 true boss 0 500 0 20 0) 1).
  - reflexivity.
  - cbn. lia.
  - lia.
Defined.

(** Two bullets over the same scout in one collision pass: the scout dies
    at the first hit and its 10 points are awarded at both. *)
Example two_bullets_score_twice :
  Enemy.hp (Enemy.mk 0 100 100 40 40 false scout 1 10 50 150 0) = 1%Z /\
  score twoBulletsOneScout = 0%Z /\
  score (state_of (Game_checkCollisions twoBulletsOneScout)) = 20%Z.
Proof. vm_compute. repeat split. Qed.

(** ** The collision pass: bullets against enemies *)

Lemma list_set_same {A : Type} (l : list A) (j : nat) (v : A) :
  nth_error l j = Some v -> list_set j v l = l.
Proof.
  revert j. induction l as [|h t IH]; intros [|j]; cbn; try discriminate.
  - now intros [= ->].
  - intros Hj. now rewrite IH.
Qed.

Lemma list_set_middle {A : Type} (pre suf : list A) (v w : A) :
  list_set (length pre) w (pre ++ v :: suf) = pre ++ w :: suf.
Proof. induction pre as [|h t IH]; cbn; [reflexivity | now rewrite IH]. Qed.

Lemma nth_error_middle {A : Type} (pre suf : list A) (v : A) :
  nth_error (pre ++ v :: suf) (length pre) = Some v.
Proof. induction pre as [|h t IH]; cbn; auto. Qed.

Lemma checkCollision_damaged (b : Bullet.t) (a : Z) (e : Enemy.t) :
  checkCollision b (Enemy_damaged a e) = checkCollision b e.
Proof. unfold Enemy_damaged. cbn. now destruct (_ <=? 0)%Z. Qed.

Lemma checkCollision_damaged_iter (b : Bullet.t) (n : nat) (e : Enemy.t) :
  checkCollision b (Nat.iter n (Enemy_damaged 1) e) = checkCollision b e.
Proof.
  induction n as [|n IH]; [reflexivity|].
  now rewrite Nat.iter_succ, checkCollision_damaged.
Qed.

Lemma hp_damaged_iter (n : nat) (e : Enemy.t) :
  Enemy.hp (Nat.iter n (Enemy_damaged 1) e) = (Enemy.hp e - Z.of_nat n)%Z.
Proof.
  induction n as [|n IH]; [cbn; lia|].
  rewrite Nat.iter_succ. unfold Enemy_damaged at 1. cbn zeta.
  destruct (_ <=? 0)%Z; cbn [Enemy.hp Enemy_set_hp Enemy_set_markedForDeletion];
    rewrite IH; lia.
Qed.

Lemma existsb_map_ext {A B : Type} (f : B -> bool) (h : A -> B) (k : A -> bool) (l : list A) :
  (forall x, f (h x) = k x) -> existsb f (map h l) = existsb k l.
Proof. intros E. induction l as [|x l IH]; cbn; [reflexivity | now rewrite E, IH]. Qed.

Lemma bulletMeetsEnemy_spec i j g b e :
  nth_error (bullets g) i = Some b ->
  nth_error (enemies g) j = Some e ->
  enemies (bulletMeetsEnemy i j g)
  = list_set j (if checkCollision b e then Enemy_damaged 1 e else e) (enemies g) /\
  bullets (bulletMeetsEnemy i j g)
  = list_set i (if checkCollision b e then Bullet_set_markedForDeletion true b else b)
      (bullets g).
Proof.
  intros Hb He. unfold bulletMeetsEnemy. rewrite Hb, He.
  destruct (checkCollision b e).
  - split.
    + now rewrite (Enemy_takeDamage_enemies _ _ _ e).
    + now rewrite (Enemy_takeDamage_frame bullets) by solve_frame.
  - now rewrite !list_set_same.
Qed.

(** The inner loop, from enemy [length done] on: [done] and [todo] are the
    enemies as they were when the loop began. *)
Lemma bulletMeetsEnemies_from i b bs0 :
  nth_error bs0 i = Some b ->
  forall todo done g,
    enemies g
    = map (fun e => if checkCollision b e then Enemy_damaged 1 e else e) done ++ todo ->
    bullets g = list_set i (Bullet_spent done b) bs0 ->
    let g' := fold_left (fun g j => bulletMeetsEnemy i j g)
                (seq (length done) (length todo)) g in
    enemies g'
    = map (fun e => if checkCollision b e then Enemy_damaged 1 e else e) (done ++ todo) /\
    bullets g' = list_set i (Bullet_spent (done ++ todo) b) bs0.
Proof.
  intros Hb. induction todo as [|e todo IH]; intros done g He Hbs; cbn zeta.
  - cbn. rewrite !app_nil_r in *. now split.
  - cbn [length seq fold_left].
    assert (Hbi : nth_error (bullets g) i = Some (Bullet_spent done b)).
    { rewrite Hbs. eapply nth_error_list_set_eq. exact Hb. }
    assert (Hej : nth_error (enemies g) (length done) = Some e).
    { rewrite He.
      rewrite <- (length_map (fun e => if checkCollision b e then Enemy_damaged 1 e else e) done).
      apply nth_error_middle. }
    destruct (bulletMeetsEnemy_spec i (length done) g _ _ Hbi Hej) as [E1 E2].
    assert (Hc : checkCollision (Bullet_spent done b) e = checkCollision b e).
    { unfold Bullet_spent. now destruct (existsb _ done). }
    rewrite Hc in E1, E2.
    specialize (IH (done ++ [e]) (bulletMeetsEnemy i (length done) g)).
    rewrite length_app, Nat.add_1_r, <- app_assoc in IH. cbn [app] in IH.
    apply IH.
    + rewrite E1, He.
      rewrite <- (length_map (fun e => if checkCollision b e then Enemy_damaged 1 e else e) done)
        at 1.
      rewrite list_set_middle, map_app, <- app_assoc. reflexivity.
    + rewrite E2, Hbs, list_set_twice. f_equal.
      unfold Bullet_spent. rewrite existsb_app. cbn [existsb].
      destruct (existsb _ done), (checkCollision b e); reflexivity.
Qed.

Lemma bulletMeetsEnemies_spec i b g :
  nth_error (bullets g) i = Some b ->
  enemies (bulletMeetsEnemies i g)
  = map (fun e => if checkCollision b e then Enemy_damaged 1 e else e) (enemies g) /\
  bullets (bulletMeetsEnemies i g) = list_set i (Bullet_spent (enemies g) b) (bullets g).
Proof.
  intros Hb. unfold bulletMeetsEnemies.
  apply (bulletMeetsEnemies_from i b (bullets g) Hb (enemies g) [] g).
  - reflexivity.
  - cbn. symmetry. now apply list_set_same.
Qed.

Lemma hitsOn_snoc bs b e :
  hitsOn (bs ++ [b]) e = (hitsOn bs e + if checkCollision b e then 1 else 0)%nat.
Proof.
  unfold hitsOn. rewrite filter_app, length_app. cbn.
  now destruct (checkCollision b e).
Qed.

(** The outer loop, from bullet [length done] on. *)
Lemma bulletsHitEnemies_from es0 :
  forall todo done g,
    enemies g = map (fun e => Nat.iter (hitsOn done e) (Enemy_damaged 1) e) es0 ->
    bullets g = map (Bullet_spent es0) done ++ todo ->
    let g' := fold_left (fun g i => bulletMeetsEnemies i g)
                (seq (length done) (length todo)) g in
    enemies g' = map (fun e => Nat.iter (hitsOn (done ++ todo) e) (Enemy_damaged 1) e) es0 /\
    bullets g' = map (Bullet_spent es0) (done ++ todo).
Proof.
  induction todo as [|b todo IH]; intros done g He Hbs; cbn zeta.
  - cbn. rewrite !app_nil_r in *. now split.
  - cbn [length seq fold_left].
    assert (Hbi : nth_error (bullets g) (length done) = Some b).
    { rewrite Hbs. rewrite <- (length_map (Bullet_spent es0) done). apply nth_error_middle. }
    destruct (bulletMeetsEnemies_spec _ _ _ Hbi) as [E1 E2].
    specialize (IH (done ++ [b]) (bulletMeetsEnemies (length done) g)).
    rewrite length_app, Nat.add_1_r, <- app_assoc in IH. cbn [app] in IH.
    apply IH.
    + rewrite E1, He, map_map. apply map_ext. intros e.
      rewrite checkCollision_damaged_iter, hitsOn_snoc.
      destruct (checkCollision b e).
      * now rewrite Nat.add_1_r, Nat.iter_succ.
      * now rewrite Nat.add_0_r.
    + rewrite E2, Hbs.
      rewrite <- (length_map (Bullet_spent es0) done) at 1.
      rewrite list_set_middle, map_app, <- app_assoc. cbn [map app].
      do 2 f_equal. rewrite He. unfold Bullet_spent.
      rewrite (existsb_map_ext _ _ (checkCollision b)); [reflexivity|].
      intros e. apply checkCollision_damaged_iter.
Qed.

Lemma bulletsHitEnemies_spec g :
  enemies (bulletsHitEnemies g)
  = map (fun e => Nat.iter (hitsOn (bullets g) e) (Enemy_damaged 1) e) (enemies g) /\
  bullets (bulletsHitEnemies g) = map (Bullet_spent (enemies g)) (bullets g).
Proof.
  unfold bulletsHitEnemies.
  apply (bulletsHitEnemies_from (enemies g) (bullets g) [] g).
  - cbn. now rewrite map_id.
  - reflexivity.
Qed.

(** ** The collision pass: enemies against the player *)

Section LoopFrames.
Context {X : Type} (f : Game.t -> X).

Lemma fold_left_frame {I : Type} (body : Game.t -> I -> Game.t) (l : list I) (g : Game.t) :
  (forall g i, f (body g i) = f g) -> f (fold_left body l g) = f g.
Proof.
  intros Hb. revert g. induction l as [|i l IH]; intros g; cbn; [reflexivity|].
  now rewrite IH.
Qed.

Lemma forEachIndex_frame (body : nat -> Game.t -> outcome) (l : list nat) (g : Game.t) :
  (forall j g, f (state_of (body j g)) = f g) -> f (state_of (forEachIndex body l g)) = f g.
Proof.
  intros Hb. revert g. induction l as [|j l IH]; intros g; cbn; [reflexivity|].
  specialize (Hb j g). destruct (body j g) as [g1|g1]; cbn in *.
  - now rewrite IH.
  - exact Hb.
Qed.

Lemma bulletMeetsEnemy_frame i j g :
  frame f [Fbullets; Fenemies; Fparticles; Fscore; Ftimers; FrandomCalls; Feffects] ->
  f (bulletMeetsEnemy i j g) = f g.
Proof.
  intros H. unfold bulletMeetsEnemy.
  destruct (nth_error (bullets g) i) as [b|]; [|reflexivity].
  destruct (nth_error (enemies g) j) as [e|]; [|reflexivity].
  destruct (checkCollision b e); [|reflexivity].
  rewrite Enemy_takeDamage_frame by sub_frame H.
  apply (H Fbullets). now left.
Qed.

Lemma bulletsHitEnemies_frame g :
  frame f [Fbullets; Fenemies; Fparticles; Fscore; Ftimers; FrandomCalls; Feffects] ->
  f (bulletsHitEnemies g) = f g.
Proof.
  intros H. unfold bulletsHitEnemies. apply fold_left_frame. intros g1 i.
  unfold bulletMeetsEnemies. apply fold_left_frame. intros g2 j.
  now apply bulletMeetsEnemy_frame.
Qed.

Lemma enemyMeetsPlayer_frame j g :
  frame f [Fplayer; Fenemies; Fparticles; FgameState; FrandomCalls; Feffects] ->
  f (state_of (enemyMeetsPlayer j g)) = f g.
Proof.
  intros H. unfold enemyMeetsPlayer.
  destruct (nth_error (enemies g) j) as [e|]; [|reflexivity].
  destruct (player g) as [p|]; [|reflexivity].
  destruct (checkCollision e p); [|reflexivity].
  cbn [state_of].
  rewrite createExplosion_frame by sub_frame H.
  rewrite Player_takeDamage_frame by sub_frame H.
  apply (H Fenemies). cbn. tauto.
Qed.

Lemma checkCollisions_frame g :
  frame f [Fplayer; Fbullets; Fenemies; Fparticles; Fscore; FgameState; Ftimers;
           FrandomCalls; Feffects] ->
  f (state_of (Game_checkCollisions g)) = f g.
Proof.
  intros H. unfold Game_checkCollisions, enemiesHitPlayer.
  rewrite forEachIndex_frame.
  - apply bulletsHitEnemies_frame. sub_frame H.
  - intros j g1. apply enemyMeetsPlayer_frame. sub_frame H.
Qed.

End LoopFrames.

Lemma pushParticles_burst n x y g :
  particles (pushParticles n x y None g)
  = particles g ++ burst x y (randomSource g) (randomCalls g) n /\
  randomCalls (pushParticles n x y None g) = (4 * n + randomCalls g)%nat.
Proof.
  revert g. induction n as [|n IH]; intros g.
  - cbn. now rewrite app_nil_r.
  - cbn [pushParticles burst]. unfold Particle_new, Math_random. cbn -[Nat.mul].
    match goal with |- context [pushParticles n x y None ?g1] =>
      destruct (IH g1) as [IH1 IH2] end.
    rewrite IH1, IH2. cbn -[Nat.mul]. rewrite <- app_assoc. cbn [app]. split.
    + reflexivity.
    + lia.
Qed.

Lemma length_burst x y random k n : length (burst x y random k n) = n.
Proof. revert k. induction n as [|n IH]; intros k; cbn; [reflexivity | now rewrite IH]. Qed.

Lemma length_ramBursts p random k es :
  length (ramBursts p random k es)
  = (10 * length (filter (fun e => checkCollision e p) es))%nat.
Proof.
  revert k. induction es as [|e es IH]; intros k; [reflexivity|].
  cbn [ramBursts filter]. destruct (checkCollision e p).
  - rewrite length_app, length_burst, IH. cbn [length]. lia.
  - apply IH.
Qed.

Lemma checkCollision_sameBox (e : Enemy.t) (p q : Player.t) :
  Player_sameBox p q -> checkCollision e p = checkCollision e q.
Proof.
  intros (Hx & Hy & Hw & Hh). unfold checkCollision. cbn.
  now rewrite Hx, Hy, Hw, Hh.
Qed.

Lemma set_player_same g p : player g = Some p -> set_player (Some p) g = g.
Proof. destruct g; cbn. now intros ->. Qed.

Lemma Player_takeDamage_sameBox a p g :
  exists p', player (Player_takeDamage a p (set_player (Some p) g)) = Some p' /\
             Player_sameBox p' p /\
             (cheatMode g = true -> p' = p).
Proof.
  unfold Player_takeDamage. cbn [cheatMode set_player].
  destruct (cheatMode g).
  - exists p. repeat split.
  - cbn. destruct (_ <=? 0)%Z; eexists; (split; [reflexivity|]);
      (split; [repeat split | discriminate]).
Qed.

(** One iteration of the second loop, for a game that has a player. *)
Lemma enemyMeetsPlayer_spec j g p e :
  player g = Some p ->
  nth_error (enemies g) j = Some e ->
  exists g' p',
    enemyMeetsPlayer j g = Normal g' /\
    enemies g' = list_set j (Enemy_rammed p e) (enemies g) /\
    particles g'
    = particles g ++ (if checkCollision e p
                      then burst (Enemy.x e) (Enemy.y e) (randomSource g) (randomCalls g) 10
                      else []) /\
    randomCalls g' = ((if checkCollision e p then 40 else 0) + randomCalls g)%nat /\
    randomSource g' = randomSource g /\
    cheatMode g' = cheatMode g /\
    player g' = Some p' /\
    Player_sameBox p' p /\
    (cheatMode g = true ->
     p' = p /\ gameState g' = gameState g /\ gameOvers g' = gameOvers g).
Proof.
  intros Hp He. unfold enemyMeetsPlayer, Enemy_rammed. rewrite He, Hp.
  destruct (checkCollision e p).
  - cbn zeta.
    set (g1 := set_enemies _ g).
    assert (Hp1 : player g1 = Some p) by exact Hp.
    destruct (Player_takeDamage_sameBox 20 p g1) as (p' & Hp' & Hbox & Hcheat).
    rewrite (set_player_same _ _ Hp1) in Hp'.
    eexists. exists p'. split; [reflexivity|].
    unfold Game_createExplosion.
    match goal with |- context [pushParticles 10 ?x ?y None ?g2] =>
      destruct (pushParticles_burst 10 x y g2) as [B1 B2] end.
    repeat split.
    + rewrite (pushParticles_frame enemies) by solve_frame.
      rewrite (emit_frame enemies) by solve_frame.
      now rewrite (Player_takeDamage_frame enemies) by solve_frame.
    + rewrite B1. cbn [randomSource randomCalls particles emit set_effects].
      rewrite (Player_takeDamage_frame particles) by solve_frame.
      rewrite (Player_takeDamage_frame randomCalls) by solve_frame.
      rewrite (Player_takeDamage_frame randomSource) by solve_frame.
      reflexivity.
    + rewrite B2. cbn [randomCalls emit set_effects].
      rewrite (Player_takeDamage_frame randomCalls) by solve_frame. reflexivity.
    + rewrite (pushParticles_frame randomSource) by solve_frame.
      rewrite (emit_frame randomSource) by solve_frame.
      now rewrite (Player_takeDamage_frame randomSource) by solve_frame.
    + rewrite (pushParticles_frame cheatMode) by solve_frame.
      rewrite (emit_frame cheatMode) by solve_frame.
      now rewrite (Player_takeDamage_frame cheatMode) by solve_frame.
    + rewrite (pushParticles_frame player) by solve_frame.
      rewrite (emit_frame player) by solve_frame. exact Hp'.
    + apply Hbox.
    + apply Hbox.
    + apply Hbox.
    + apply Hbox.
    + now apply Hcheat.
    + rewrite (pushParticles_frame gameState) by solve_frame.
      rewrite (emit_frame gameState) by solve_frame.
      unfold Player_takeDamage. cbn [cheatMode g1 set_enemies]. now rewrite H.
    + rewrite (pushParticles_frame gameOvers) by solve_frame.
      rewrite gameOvers_emit.
      unfold Player_takeDamage. cbn [cheatMode g1 set_enemies]. rewrite H.
      unfold gameOvers. cbn. lia.
  - exists g, p. rewrite app_nil_r. repeat split; auto.
    symmetry. now apply list_set_same.
Qed.

Lemma Player_sameBox_trans p q r :
  Player_sameBox p q -> Player_sameBox q r -> Player_sameBox p r.
Proof.
  intros (A1 & A2 & A3 & A4) (B1 & B2 & B3 & B4).
  repeat split; etransitivity; eassumption.
Qed.

(** The second loop, from enemy [length done] on. *)
Lemma enemiesHitPlayer_from p :
  forall todo done g pc,
    player g = Some pc ->
    Player_sameBox pc p ->
    enemies g = map (Enemy_rammed p) done ++ todo ->
    exists g' pc',
      forEachIndex enemyMeetsPlayer (seq (length done) (length todo)) g = Normal g' /\
      enemies g' = map (Enemy_rammed p) (done ++ todo) /\
      particles g' = particles g ++ ramBursts p (randomSource g) (randomCalls g) todo /\
      player g' = Some pc' /\
      Player_sameBox pc' p /\
      (cheatMode g = true ->
       pc' = pc /\ gameState g' = gameState g /\ gameOvers g' = gameOvers g).
Proof.
  induction todo as [|e todo IH]; intros done g pc Hp Hbox He.
  - rewrite app_nil_r in *. exists g, pc. cbn. rewrite app_nil_r.
    repeat split; auto; apply Hbox.
  - cbn [length seq forEachIndex].
    assert (Hej : nth_error (enemies g) (length done) = Some e).
    { rewrite He. rewrite <- (length_map (Enemy_rammed p) done). apply nth_error_middle. }
    destruct (enemyMeetsPlayer_spec _ _ _ _ Hp Hej)
      as (g1 & p1 & Hstep & He1 & Hpa1 & Hrc1 & Hrs1 & Hch1 & Hp1 & Hbox1 & Hcheat1).
    rewrite Hstep. cbn [bind].
    assert (Hc : checkCollision e pc = checkCollision e p)
      by now apply checkCollision_sameBox.
    assert (Hr : Enemy_rammed pc e = Enemy_rammed p e)
      by (unfold Enemy_rammed; now rewrite Hc).
    rewrite Hc in Hpa1, Hrc1. rewrite Hr in He1.
    destruct (IH (done ++ [e]) g1 p1 Hp1 (Player_sameBox_trans _ _ _ Hbox1 Hbox))
      as (g' & p' & Hloop & He' & Hpa' & Hp' & Hbox' & Hcheat').
    { rewrite He1, He.
      rewrite <- (length_map (Enemy_rammed p) done) at 1.
      rewrite list_set_middle, map_app, <- app_assoc. reflexivity. }
    rewrite length_app, Nat.add_1_r in Hloop.
    rewrite <- app_assoc in He'. cbn [app] in He'.
    exists g', p'. repeat split; auto; try apply Hbox'.
    + rewrite Hpa', Hpa1, Hrs1, Hrc1, <- app_assoc. cbn [ramBursts].
      now destruct (checkCollision e p).
    + rewrite <- Hch1 in H. destruct (Hcheat' H) as (-> & _ & _).
      rewrite Hch1 in H. now destruct (Hcheat1 H).
    + rewrite <- Hch1 in H. destruct (Hcheat' H) as (_ & -> & _).
      rewrite Hch1 in H. now destruct (Hcheat1 H) as (_ & -> & _).
    + rewrite <- Hch1 in H. destruct (Hcheat' H) as (_ & _ & ->).
      rewrite Hch1 in H. now destruct (Hcheat1 H) as (_ & _ & ->).
Qed.

(** C9. In the loop of the enemies against the player, every enemy that
    collides with the player is marked dead and spawns an explosion of ten
    particles at its position, whatever the value of [cheatMode]: the
    enemies and the particles after the loop do not depend on it.  With
    [cheatMode] set the player (and so its hp) and the game state are left
    as they were and no game-over transition runs. *)
Theorem enemiesHitPlayer_in_cheat_mode :
  forall (g : Game.t) (p : Player.t) (cheat : bool),
    player g = Some p ->
    exists g',
      enemiesHitPlayer (set_cheatMode cheat g) = Normal g' /\
      enemies g' = map (Enemy_rammed p) (enemies g) /\
      particles g' = particles g ++ ramBursts p (randomSource g) (randomCalls g) (enemies g) /\
      length (particles g')
      = (length (particles g)
         + 10 * length (filter (fun e => checkCollision e p) (enemies g)))%nat /\
      (cheat = true ->
       player g' = Some p /\ gameState g' = gameState g /\ gameOvers g' = gameOvers g).
Proof.
  intros g p cheat Hp.
  destruct (enemiesHitPlayer_from p (enemies g) [] (set_cheatMode cheat g) p)
    as (g' & p' & Hloop & He & Hpa & Hp' & Hbox & Hcheat).
  - exact Hp.
  - repeat split.
  - reflexivity.
  - exists g'. cbn in Hloop, He, Hpa, Hcheat.
    split; [exact Hloop|]. split; [exact He|]. split; [exact Hpa|]. split.
    + rewrite Hpa, length_app, length_ramBursts. reflexivity.
    + intros Hc. destruct (Hcheat Hc) as (-> & Hs & Hg). now rewrite Hp'.
Qed.

Lemma enemiesHitPlayer_in_cheat_mode_witness :
  exists g',
    enemiesHitPlayer (set_cheatMode true scoutOnPlayerCheat) = Normal g' /\
    enemies g' = map (Enemy_rammed startedPlayer) (enemies scoutOnPlayerCheat) /\
    particles g'
    = particles scoutOnPlayerCheat
      ++ ramBursts startedPlayer (randomSource scoutOnPlayerCheat)
           (randomCalls scoutOnPlayerCheat) (enemies scoutOnPlayerCheat) /\
    length (particles g')
    = (length (particles scoutOnPlayerCheat)
       + 10 * length (filter (fun e => checkCollision e startedPlayer)
                        (enemies scoutOnPlayerCheat)))%nat /\
    (true = true ->
     player g' = Some startedPlayer /\
     gameState g' = gameState scoutOnPlayerCheat /\
     gameOvers g' = gameOvers scoutOnPlayerCheat).
Proof.
  apply (enemiesHitPlayer_in_cheat_mode scoutOnPlayerCheat startedPlayer true).
  reflexivity.
Defined.

(** In autonomous mode the scout that touches the player is destroyed and
    bursts into ten particles; the player keeps its 100 hp. *)
Example scout_rams_autonomous_player :
  let g' := state_of (Game_checkCollisions scoutOnPlayerCheat) in
  cheatMode scoutOnPlayerCheat = true /\
  map Enemy.markedForDeletion (enemies scoutOnPlayerCheat) = [false] /\
  map Enemy.markedForDeletion (enemies g') = [true] /\
  length (particles scoutOnPlayerCheat) = 0%nat /\
  length (particles g') = 10%nat /\
  playerHp g' = Some 100%Z /\
  gameState g' = PLAYING.
Proof. vm_compute. repeat split. Qed.

(** ** The collision pass as a whole *)

Lemma enemiesHitPlayer_hp g :
  map Enemy.hp (enemies (state_of (enemiesHitPlayer g))) = map Enemy.hp (enemies g).
Proof.
  unfold enemiesHitPlayer.
  apply (forEachIndex_frame (fun g => map Enemy.hp (enemies g))).
  intros j g1. unfold enemyMeetsPlayer.
  destruct (nth_error (enemies g1) j) as [e|] eqn:He; [|reflexivity].
  destruct (player g1) as [p|]; [|reflexivity].
  destruct (checkCollision e p); [|reflexivity].
  cbn [state_of].
  rewrite (createExplosion_frame (fun g => map Enemy.hp (enemies g))) by solve_frame.
  rewrite (Player_takeDamage_frame (fun g => map Enemy.hp (enemies g))) by solve_frame.
  cbn [enemies set_enemies].
  now apply map_list_set with (w := e).
Qed.

(** C1 (as amended). In a collision pass a bullet is tested against every
    enemy of the array, whether or not it has already hit one: each enemy
    loses one hp for every bullet whose shrunk rectangle overlaps its own,
    and a bullet ends the pass marked dead exactly when it was marked
    before or overlaps at least one enemy. *)
Theorem checkCollisions_damages_every_overlap :
  forall g : Game.t,
    let g' := state_of (Game_checkCollisions g) in
    map Enemy.hp (enemies g')
    = map (fun e => (Enemy.hp e - Z.of_nat (hitsOn (bullets g) e))%Z) (enemies g) /\
    map Bullet.markedForDeletion (bullets g')
    = map (fun b => Bullet.markedForDeletion b || existsb (checkCollision b) (enemies g))
        (bullets g).
Proof.
  intros g g'. subst g'. unfold Game_checkCollisions.
  destruct (bulletsHitEnemies_spec g) as [He Hb]. split.
  - rewrite enemiesHitPlayer_hp, He, map_map. apply map_ext. intros e.
    apply hp_damaged_iter.
  - unfold enemiesHitPlayer.
    rewrite (forEachIndex_frame bullets)
      by (intros; apply enemyMeetsPlayer_frame; solve_frame).
    rewrite Hb, map_map. apply map_ext. intros b. unfold Bullet_spent.
    destruct (existsb _ _); cbn.
    + now rewrite orb_true_r.
    + now rewrite orb_false_r.
Qed.

(** C1, the claim as stated fails: a live bullet over two live fighters
    that both overlap it takes one hp from each of them in the same pass,
    not only from the first. *)
Lemma one_bullet_damages_two_fighters :
  let g := twoFightersOneBullet in
  let g' := state_of (Game_checkCollisions g) in
  map Bullet.markedForDeletion (bullets g) = [false] /\
  map Enemy.markedForDeletion (enemies g) = [false; false] /\
  map (fun b => map (checkCollision b) (enemies g)) (bullets g) = [[true; true]] /\
  map Enemy.hp (enemies g) = [3; 3]%Z /\
  map Enemy.hp (enemies g') = [2; 2]%Z /\
  map Bullet.markedForDeletion (bullets g') = [true].
Proof. vm_compute. repeat split. Qed.

(** ** Footprints of the update phases and of the entry points *)

Section UpdateFrames.
Context {X : Type} (f : Game.t -> X).

Lemma Player_update_frame dt p g :
  frame f [Fplayer; Fbullets; Feffects] -> f (Player_update dt p g) = f g.
Proof.
  intros H. unfold Player_update.
  pose proof (H Fplayer) as Hp. cbn in Hp.
  pose proof (H Fbullets) as Hb. cbn in Hb.
  cbv zeta. destruct (_ && _).
  - rewrite Hp by tauto. unfold Player_shoot.
    rewrite emit_frame by sub_frame H. apply Hb. tauto.
  - apply Hp. tauto.
Qed.

Lemma update_background_frame dt g :
  frame f [FbackgroundY] -> f (update_background dt g) = f g.
Proof.
  intros H. pose proof (H FbackgroundY) as Hb. cbn in Hb.
  unfold update_background. cbv zeta.
  destruct (Qgeb _ _); rewrite ?Hb by tauto; reflexivity.
Qed.

Lemma update_particles_frame dt g :
  frame f [Fparticles] -> f (update_particles dt g) = f g.
Proof.
  intros H. pose proof (H Fparticles) as Hb. cbn in Hb.
  unfold update_particles. cbv zeta. rewrite !Hb by tauto. reflexivity.
Qed.

Lemma update_bullets_frame dt g :
  frame f [Fbullets] -> f (update_bullets dt g) = f g.
Proof.
  intros H. pose proof (H Fbullets) as Hb. cbn in Hb.
  unfold update_bullets. cbv zeta. rewrite !Hb by tauto. reflexivity.
Qed.

Lemma Enemy_new_frame x y ty g :
  frame f [FnextId; FrandomCalls] -> f (snd (Enemy_new x y ty g)) = f g.
Proof.
  intros H.
  pose proof (H FnextId) as Hn. cbn in Hn.
  pose proof (H FrandomCalls) as Hr. cbn in Hr.
  unfold Enemy_new, Math_random. destruct ty; cbn [snd]; rewrite ?Hr, ?Hn by tauto;
    reflexivity.
Qed.

Lemma spawnEnemy_frame g :
  frame f [Fenemies; FnextId; FrandomCalls] -> f (Game_spawnEnemy g) = f g.
Proof.
  intros H.
  pose proof (H Fenemies) as He. cbn in He.
  pose proof (H FrandomCalls) as Hr. cbn in Hr.
  unfold Game_spawnEnemy, Math_random. cbv zeta.
  match goal with |- context [Enemy_new ?x ?y ?ty ?g1] =>
    pose proof (Enemy_new_frame x y ty g1 ltac:(sub_frame H)) as E;
    destruct (Enemy_new x y ty g1) as [e g2] end.
  cbn [snd] in E. rewrite He by tauto. rewrite E, !Hr by tauto. reflexivity.
Qed.

Lemma spawnBoss_frame g :
  frame f [Fenemies; FnextId; FrandomCalls] -> f (Game_spawnBoss g) = f g.
Proof.
  intros H.
  pose proof (H Fenemies) as He. cbn in He.
  unfold Game_spawnBoss. destruct (negb _); [|reflexivity].
  match goal with |- context [Enemy_new ?x ?y ?ty ?g1] =>
    pose proof (Enemy_new_frame x y ty g1 ltac:(sub_frame H)) as E;
    destruct (Enemy_new x y ty g1) as [e g2] end.
  cbn [snd] in E. rewrite He by tauto. exact E.
Qed.

Lemma update_enemies_frame dt g :
  frame f [Fenemies; FenemyTimer; FnextId; FrandomCalls] -> f (update_enemies dt g) = f g.
Proof.
  intros H.
  pose proof (H Fenemies) as He. cbn in He.
  pose proof (H FenemyTimer) as Ht. cbn in Ht.
  unfold update_enemies. cbv zeta. rewrite !He by tauto.
  destruct (Qleb _ _).
  - rewrite Ht by tauto. rewrite spawnEnemy_frame by sub_frame H. apply Ht. tauto.
  - apply Ht. tauto.
Qed.

Lemma chainKill_frame id g :
  frame f [Fenemies; Fdetached; Fparticles; FrandomCalls; Feffects] -> f (chainKill id g) = f g.
Proof.
  intros H.
  pose proof (H Fenemies) as He. cbn in He.
  pose proof (H Fdetached) as Hd. cbn in Hd.
  unfold chainKill. destruct (findOid _ _) as [e|]; [|reflexivity].
  destruct (Enemy.markedForDeletion e); [reflexivity|].
  cbv zeta. rewrite createExplosion_frame by sub_frame H.
  rewrite Hd, He by tauto. reflexivity.
Qed.

Lemma fireTimer_frame n g :
  frame f [Fenemies; Fdetached; Fparticles; FgameState; Ftimers; FrandomCalls; Feffects] ->
  f (fireTimer n g) = f g.
Proof.
  intros H. pose proof (H Ftimers) as Ht. cbn in Ht.
  unfold fireTimer. destruct (nth_error _ _) as [t|]; [|reflexivity].
  cbv zeta. destruct (action t).
  - rewrite victory_frame by sub_frame H. apply Ht. tauto.
  - rewrite chainKill_frame by sub_frame H. apply Ht. tauto.
Qed.

End UpdateFrames.

(** ** Wave progression *)

Lemma update_wave_schedule g :
  schedule (update_wave g) = schedule g \/
  schedule (update_wave g) = ((wave g + 1)%Z, spec_spawnInterval (wave g + 1)).
Proof.
  unfold update_wave. destruct (score g >? wave g * 500)%Z; [right | now left].
  cbv zeta. destruct (_ =? 0)%Z.
  - now rewrite (spawnBoss_frame schedule) by solve_frame.
  - reflexivity.
Qed.

Lemma Game_update_schedule dt g :
  schedule (state_of (Game_update dt g)) = schedule g \/
  schedule (state_of (Game_update dt g))
  = ((wave g + 1)%Z, spec_spawnInterval (wave g + 1)).
Proof.
  unfold Game_update. destruct (_ || _); [now left|]. cbv zeta.
  set (g1 := update_particles dt (update_background dt g)).
  assert (H1 : schedule g1 = schedule g).
  { subst g1. rewrite (update_particles_frame schedule) by solve_frame.
    now rewrite (update_background_frame schedule) by solve_frame. }
  destruct (gameState g1); try (left; exact H1).
  destruct (player g1) as [p|]; [|left; exact H1].
  set (g2 := update_enemies dt (update_bullets dt (Player_update dt p g1))).
  assert (H2 : schedule g2 = schedule g).
  { subst g2. rewrite (update_enemies_frame schedule) by solve_frame.
    rewrite (update_bullets_frame schedule) by solve_frame.
    now rewrite (Player_update_frame schedule) by solve_frame. }
  pose proof (checkCollisions_frame schedule g2 ltac:(solve_frame)) as H3.
  destruct (Game_checkCollisions g2) as [g3|g3]; cbn [bind state_of] in *.
  - rewrite H2 in H3.
    assert (Hw : wave g3 = wave g) by (now injection H3).
    destruct (update_wave_schedule g3) as [E|E]; rewrite E, ?Hw; auto.
  - left. congruence.
Qed.

Lemma Game_loop_schedule ts g :
  schedule (fst (Game_loop ts g)) = schedule g \/
  schedule (fst (Game_loop ts g)) = ((wave g + 1)%Z, spec_spawnInterval (wave g + 1)).
Proof.
  unfold Game_loop. destruct (negb _); [now left|]. cbv zeta.
  pose proof (Game_update_schedule ((ts - lastTime g) / 1000) (set_lastTime ts g)) as H.
  destruct (Game_update _ _) as [g1|g1]; cbn [fst state_of] in *; exact H.
Qed.

(** A score of 1600 at wave 1 is past the thresholds 500, 1000 and 1500:
    the wave becomes 2, 3 and 4 on three successive frames and stays at 4
    on the fourth. *)
Example wave_catches_up_frame_by_frame :
  wave scored1600 = 1%Z /\
  map (fun evs => wave (run evs scored1600))
    [[AnimationFrame 16];
     [AnimationFrame 16; AnimationFrame 32];
     [AnimationFrame 16; AnimationFrame 32; AnimationFrame 48];
     [AnimationFrame 16; AnimationFrame 32; AnimationFrame 48; AnimationFrame 64]]
  = [2; 3; 4; 4]%Z.
Proof. vm_compute. split; reflexivity. Qed.

(** ** The spawn interval along a run *)

Lemma spec_spawnInterval_floor w : 0.5 <= spec_spawnInterval w.
Proof. apply Math_max_lower. Qed.

Lemma spec_spawnInterval_decreases w :
  0.5 < spec_spawnInterval w -> spec_spawnInterval (w + 1) < spec_spawnInterval w.
Proof.
  unfold spec_spawnInterval, Math_max.
  assert (Hp : inject_Z (w + 1) == inject_Z w + 1)
    by (rewrite inject_Z_plus; reflexivity).
  destruct (Qltb 0.5 (1.5 - inject_Z w * 0.1)) eqn:E1;
    destruct (Qltb 0.5 (1.5 - inject_Z (w + 1) * 0.1)) eqn:E2;
    first [apply Qltb_lt in E1 | apply Qltb_ge in E1];
    first [apply Qltb_lt in E2 | apply Qltb_ge in E2];
    intros H; lra.
Qed.

Lemma step_schedule g ev :
  schedule (step g ev) = schedule g \/
  schedule (step g ev) = ((wave g + 1)%Z, spec_spawnInterval (wave g + 1)) \/
  schedule (step g ev) = (1%Z, enemyInterval g).
Proof.
  destruct ev; cbn [step].
  - right; right; reflexivity.
  - right; right; reflexivity.
  - right; right; reflexivity.
  - left; reflexivity.
  - left; reflexivity.
  - left; reflexivity.
  - left. unfold Game_handleInput. cbv zeta.
    repeat match goal with |- context [if ?c then _ else _] => destruct c end;
      reflexivity.
  - left; reflexivity.
  - destruct (Game_loop_schedule timestamp g) as [E|E]; auto.
  - left. apply (fireTimer_frame schedule). solve_frame.
Qed.

Lemma run_schedule_invariant evs :
  forall g,
    (1 <= wave g)%Z ->
    ((2 <= wave g)%Z -> enemyInterval g = spec_spawnInterval (wave g)) ->
    0.5 <= enemyInterval g ->
    (1 <= wave (run evs g))%Z /\
    ((2 <= wave (run evs g))%Z ->
     enemyInterval (run evs g) = spec_spawnInterval (wave (run evs g))) /\
    0.5 <= enemyInterval (run evs g).
Proof.
  induction evs as [|ev evs IH]; intros g H1 H2 H3; [now cbn|].
  cbn [run fold_left]. apply IH.
  - destruct (step_schedule g ev) as [E|[E|E]]; injection E as -> _; lia.
  - destruct (step_schedule g ev) as [E|[E|E]]; injection E as Ew Ei; rewrite Ew, Ei.
    + exact H2.
    + reflexivity.
    + lia.
  - destruct (step_schedule g ev) as [E|[E|E]]; injection E as _ ->; auto.
    apply spec_spawnInterval_floor.
Qed.

(** C5 (as amended). Along every run of the page's game the spawn interval
    is recomputed only when the wave advances: at every wave [w >= 2] it is
    [max(0.5, 1.5 - w*0.1)], and it is never below 0.5.  That value is
    strictly decreasing in [w] while above the floor, 1.3 at wave 2 and 0.5
    from wave 10 on.  The first [start()] of a fresh game leaves the
    constructor's 1.5 in place for wave 1. *)
Theorem spawn_interval_follows_wave :
  forall (random : nat -> Q) (evs : list Event) (now : Q),
    let g := run evs (theGame random) in
    schedule (Game_start now (theGame random)) = (1%Z, 1.5) /\
    (1 <= wave g)%Z /\
    ((2 <= wave g)%Z -> enemyInterval g = spec_spawnInterval (wave g)) /\
    0.5 <= enemyInterval g /\
    (forall w, 0.5 <= spec_spawnInterval w) /\
    (forall w, 0.5 < spec_spawnInterval w ->
               spec_spawnInterval (w + 1) < spec_spawnInterval w) /\
    spec_spawnInterval 2 == 1.3 /\
    (forall w, (10 <= w)%Z -> spec_spawnInterval w == 0.5).
Proof.
  intros random evs now g.
  destruct (run_schedule_invariant evs (theGame random)) as (H1 & H2 & H3).
  - cbn. lia.
  - cbn. lia.
  - cbn. lra.
  - split; [reflexivity|]. repeat split; auto.
    + apply spec_spawnInterval_floor.
    + apply spec_spawnInterval_decreases.
    + intros w Hw. unfold spec_spawnInterval, Math_max.
      assert (10 <= inject_Z w) by (change 10 with (inject_Z 10); now rewrite <- Zle_Qle).
      destruct (Qltb _ _) eqn:E;
        first [apply Qltb_lt in E | apply Qltb_ge in E]; lra.
Qed.

(** C5, the claim as stated fails at wave 1: in the freshly started game
    the wave is 1 and the spawn interval is the constructor's 1.5, not
    [max(0.5, 1.5 - 0.1) = 1.4]; the first frame arms the spawn timer with
    1.5. *)
Lemma spawn_interval_at_wave_1 :
  started = run [ClickStart 0] (theGame halves) /\
  wave started = 1%Z /\
  enemyInterval started = 1.5 /\
  spec_spawnInterval 1 == 1.4 /\
  ~ enemyInterval started == spec_spawnInterval 1 /\
  wave (run [AnimationFrame 16] started) = 1%Z /\
  enemyTimer (run [AnimationFrame 16] started) = 1.5.
Proof.
  vm_compute. repeat split; try discriminate.
Qed.

(** The interval after the first advance: one frame takes the game with
    1600 points from wave 1 to wave 2 and sets the interval to 1.3. *)
Example spawn_interval_at_wave_2 :
  wave (run [AnimationFrame 16] scored1600) = 2%Z /\
  enemyInterval (run [AnimationFrame 16] scored1600) == 1.3.
Proof. vm_compute. split; reflexivity. Qed.


(** ** Particles along an update *)

Lemma spawnsParticles_refl g : spawnsParticles g g.
Proof. exists []. now rewrite app_nil_r. Qed.

Lemma spawnsParticles_same g g' : particles g' = particles g -> spawnsParticles g g'.
Proof. intros E. exists []. now rewrite app_nil_r. Qed.

Lemma spawnsParticles_trans g1 g2 g3 :
  spawnsParticles g1 g2 -> spawnsParticles g2 g3 -> spawnsParticles g1 g3.
Proof.
  intros (n1 & E1 & L1) (n2 & E2 & L2). exists (n1 ++ n2). split.
  - now rewrite E2, E1, app_assoc.
  - apply Forall_app. now split.
Qed.


Lemma pushParticles_spawns n x y c g : spawnsParticles g (pushParticles n x y c g).
Proof.
  revert g. induction n as [|n IH]; intros g; [apply spawnsParticles_refl|].
  cbn [pushParticles].
  destruct (Particle_new x y c g) as [p g1] eqn:E.
  eapply spawnsParticles_trans; [|apply IH].
  exists [p]. cbn [particles set_particles]. split.
  - f_equal. change g1 with (snd (p, g1)). rewrite <- E.
    apply (Particle_new_frame particles). solve_frame.
  - constructor; [|constructor].
    change p with (fst (p, g1)). rewrite <- E.
    unfold Particle_new, Math_random. now destruct c.
Qed.

Lemma createExplosion_spawns x y n c g : spawnsParticles g (Game_createExplosion x y n c g).
Proof.
  unfold Game_createExplosion.
  apply (spawnsParticles_trans _ (emit AudioExplosion g)).
  - now apply spawnsParticles_same.
  - apply pushParticles_spawns.
Qed.

Lemma Enemy_takeDamage_spawns j a g : spawnsParticles g (Enemy_takeDamage j a g).
Proof.
  unfold Enemy_takeDamage.
  destruct (nth_error (enemies g) j) as [e|]; [|apply spawnsParticles_refl].
  cbv zeta. destruct (_ <=? 0)%Z; [|now apply spawnsParticles_same].
  destruct (Enemy.type _).
  - match goal with |- spawnsParticles _ (Game_createExplosion _ _ _ _ ?h) =>
      apply (spawnsParticles_trans _ h); [now apply spawnsParticles_same|] end.
    apply createExplosion_spawns.
  - match goal with |- spawnsParticles _ (Game_createExplosion _ _ _ _ ?h) =>
      apply (spawnsParticles_trans _ h); [now apply spawnsParticles_same|] end.
    apply createExplosion_spawns.
  - match goal with
    | |- spawnsParticles _ (setTimeout _ _ (Game_triggerChainReaction ?k)) =>
        apply (spawnsParticles_trans _ k)
    end.
    + match goal with |- spawnsParticles _ (Game_createExplosion _ _ _ _ ?h) =>
        apply (spawnsParticles_trans _ h); [now apply spawnsParticles_same|] end.
      apply createExplosion_spawns.
    + apply spawnsParticles_same.
      rewrite (setTimeout_frame particles) by solve_frame.
      rewrite (triggerChainReaction_frame particles) by solve_frame.
      reflexivity.
Qed.

Lemma fold_left_spawns {I : Type} (body : Game.t -> I -> Game.t) (l : list I) (g : Game.t) :
  (forall g i, spawnsParticles g (body g i)) -> spawnsParticles g (fold_left body l g).
Proof.
  intros Hb. revert g. induction l as [|i l IH]; intros g; cbn.
  - apply spawnsParticles_refl.
  - eapply spawnsParticles_trans; [apply Hb | apply IH].
Qed.

Lemma forEachIndex_spawns (body : nat -> Game.t -> outcome) (l : list nat) (g : Game.t) :
  (forall j g, spawnsParticles g (state_of (body j g))) ->
  spawnsParticles g (state_of (forEachIndex body l g)).
Proof.
  intros Hb. revert g. induction l as [|j l IH]; intros g; cbn.
  - apply spawnsParticles_refl.
  - specialize (Hb j g). destruct (body j g) as [g1|g1]; cbn in *.
    + eapply spawnsParticles_trans; [exact Hb | apply IH].
    + exact Hb.
Qed.

Lemma checkCollisions_spawns g : spawnsParticles g (state_of (Game_checkCollisions g)).
Proof.
  unfold Game_checkCollisions, enemiesHitPlayer.
  apply (spawnsParticles_trans _ (bulletsHitEnemies g)).
  - unfold bulletsHitEnemies. apply fold_left_spawns. intros g1 i.
    unfold bulletMeetsEnemies. apply fold_left_spawns. intros g2 j.
    unfold bulletMeetsEnemy.
    destruct (nth_error (bullets g2) i) as [b|]; [|apply spawnsParticles_refl].
    destruct (nth_error (enemies g2) j) as [e|]; [|apply spawnsParticles_refl].
    destruct (checkCollision b e); [|apply spawnsParticles_refl].
    match goal with |- spawnsParticles _ (Enemy_takeDamage _ _ ?h) =>
      apply (spawnsParticles_trans _ h); [now apply spawnsParticles_same|] end.
    apply Enemy_takeDamage_spawns.
  - apply forEachIndex_spawns. intros j g1. unfold enemyMeetsPlayer.
    destruct (nth_error (enemies g1) j) as [e|]; [|apply spawnsParticles_refl].
    destruct (player g1) as [p|]; [|apply spawnsParticles_refl].
    destruct (checkCollision e p); [|apply spawnsParticles_refl].
    cbn [state_of].
    match goal with |- spawnsParticles _ (Game_createExplosion _ _ _ _ ?h) =>
      apply (spawnsParticles_trans _ h) end.
    + apply spawnsParticles_same.
      now rewrite (Player_takeDamage_frame particles) by solve_frame.
    + apply createExplosion_spawns.
Qed.

(** The part of [update] that runs only while playing. *)
Lemma playing_phase_spawns dt p g :
  spawnsParticles g
    (state_of (g3 <- Game_checkCollisions
                       (update_enemies dt (update_bullets dt (Player_update dt p g))) ;;
               Normal (update_wave g3))).
Proof.
  set (g2 := update_enemies dt (update_bullets dt (Player_update dt p g))).
  assert (H2 : spawnsParticles g g2).
  { apply spawnsParticles_same. subst g2.
    rewrite (update_enemies_frame particles) by solve_frame.
    rewrite (update_bullets_frame particles) by solve_frame.
    now rewrite (Player_update_frame particles) by solve_frame. }
  pose proof (checkCollisions_spawns g2) as H3.
  destruct (Game_checkCollisions g2) as [g3|g3]; cbn [bind state_of] in *.
  - eapply spawnsParticles_trans; [exact H2|].
    eapply spawnsParticles_trans; [exact H3|].
    apply spawnsParticles_same. unfold update_wave.
    destruct (_ >? _)%Z; [|reflexivity]. cbv zeta.
    destruct (_ =? 0)%Z; [|reflexivity].
    now rewrite (spawnBoss_frame particles) by solve_frame.
  - eapply spawnsParticles_trans; eassumption.
Qed.

(** C7 (as amended). [update] does nothing at all, to particles or to
    anything else, while the game is paused or not running.  In every
    frame of a running, unpaused game the particles are advanced, aged and
    purged, whatever the game state; outside the Playing state that and the
    background scroll are all that happens, so player, bullets and enemies
    are left as they were; in the Playing state the frame may in addition
    append freshly spawned particles. *)
Theorem particles_update_unless_paused :
  forall (deltaTime : Q) (g : Game.t),
    match negb (isRunning g) || isPaused g, gameState g with
    | true, _ => Game_update deltaTime g = Normal g
    | false, PLAYING =>
        exists news,
          particles (state_of (Game_update deltaTime g)) = agedParticles deltaTime g ++ news /\
          Forall Particle_live news
    | false, _ =>
        Game_update deltaTime g
        = Normal (set_particles (agedParticles deltaTime g) (update_background deltaTime g)) /\
        player (state_of (Game_update deltaTime g)) = player g /\
        bullets (state_of (Game_update deltaTime g)) = bullets g /\
        enemies (state_of (Game_update deltaTime g)) = enemies g
    end.
Proof.
  intros dt g. unfold Game_update.
  destruct (negb (isRunning g) || isPaused g); [reflexivity|]. cbv zeta.
  set (g1 := update_particles dt (update_background dt g)).
  assert (Hs : gameState g1 = gameState g).
  { subst g1. rewrite (update_particles_frame gameState) by solve_frame.
    now rewrite (update_background_frame gameState) by solve_frame. }
  assert (Hp : particles g1 = agedParticles dt g).
  { subst g1. unfold update_particles, agedParticles. cbn [particles set_particles].
    now rewrite (update_background_frame particles) by solve_frame. }
  assert (Hg : g1 = set_particles (agedParticles dt g) (update_background dt g)).
  { subst g1. unfold update_particles, agedParticles. cbv zeta.
    cbn [particles set_particles].
    rewrite (update_background_frame particles) by solve_frame.
    destruct (update_background dt g); reflexivity. }
  assert (Hrest : player g1 = player g /\ bullets g1 = bullets g /\ enemies g1 = enemies g).
  { subst g1. repeat split.
    - rewrite (update_particles_frame player) by solve_frame.
      now rewrite (update_background_frame player) by solve_frame.
    - rewrite (update_particles_frame bullets) by solve_frame.
      now rewrite (update_background_frame bullets) by solve_frame.
    - rewrite (update_particles_frame enemies) by solve_frame.
      now rewrite (update_background_frame enemies) by solve_frame. }
  rewrite Hs. destruct (gameState g); cbn [state_of];
    try (split; [now rewrite Hg | exact Hrest]).
  destruct (player g1) as [p|].
  - destruct (playing_phase_spawns dt p g1) as (news & E & L).
    exists news. split; [rewrite E, Hp; reflexivity | exact L].
  - exists []. cbn [state_of]. now rewrite app_nil_r.
Qed.

(** C7, the claim as stated fails in the Paused state: after Escape the
    game is running and paused, and two frames leave its particle exactly
    as it was, while one frame of the unpaused game ages it. *)
Lemma paused_particles_freeze :
  isRunning pausedWithParticle = true /\
  isPaused pausedWithParticle = true /\
  particles (run [AnimationFrame 16; AnimationFrame 32] pausedWithParticle)
  = particles pausedWithParticle /\
  particles pausedWithParticle = particles startedWithParticle /\
  particles (run [AnimationFrame 16] startedWithParticle) <> particles startedWithParticle.
Proof.
  vm_compute. repeat split. intros H. discriminate H.
Qed.

(** ** The purge of dead entities *)


Lemma Particle_update_stays_dead dt p :
  Particle.markedForDeletion p = true ->
  Particle.markedForDeletion (Particle_update dt p) = true.
Proof. intros H. unfold Particle_update. cbv zeta. now destruct (Qleb _ _). Qed.















(** The frame whose collision pass ends the game draws none of the
    entities it marked: the bullet and the two scouts of [lastStand] are
    marked and still in their collections when the frame ends in the
    GAME_OVER state, and that frame draws no bullet and no enemy. *)
Example game_over_frame_draws_no_entity :
  let frame := Game_loop 16 lastStand in
  gameState lastStand = PLAYING /\
  gameState (fst frame) = GAME_OVER /\
  isRunning (fst frame) = true /\
  map Bullet.markedForDeletion (bullets (fst frame)) = [true] /\
  map Enemy.markedForDeletion (enemies (fst frame)) = [true; true; false] /\
  drawnBullets (snd frame) = [] /\
  drawnEnemies (snd frame) = [] /\
  drawnParticles (snd frame) = particles (fst frame) /\
  length (particles (fst frame)) = 40%nat.
Proof. vm_compute. repeat split. Qed.

(** ** The autonomous player *)

(** C6. With no enemy in the array, [updateAI] has no deadband: it moves
    the player by [speed * deltaTime] to the right when the player's centre
    is left of the arena's centre and to the left in every other case, also
    when the player is exactly centred.  The player of the freshly started
    game stands at the centre ([370 + 30 = 400]) and is moved to 363.6 by a
    16 ms frame.  [updateAI] never changes [y]. *)
Theorem autopilot_recentres_without_deadband :
  (forall (deltaTime : Q) (g : Game.t) (this : Player.t),
      let this' := Player_updateAI deltaTime (set_enemies [] g) this in
      Player.x this'
      = (if Qltb (Player.x this + Player.width this / 2) (width g / 2)
         then Player.x this + Player.speed this * deltaTime
         else Player.x this - Player.speed this * deltaTime) /\
      Player.y (Player_updateAI deltaTime g this) = Player.y this) /\
  (cheatMode autonomousStarted = true /\
   enemies autonomousStarted = [] /\
   player autonomousStarted = Some startedPlayer /\
   Player.x startedPlayer + Player.width startedPlayer / 2 == width autonomousStarted / 2 /\
   Player.x startedPlayer == 370 /\
   Player.x (Player_updateAI 0.016 autonomousStarted startedPlayer) == 363.6 /\
   option_map (fun p => Qeq_bool (Player.x p) 363.6)
     (player (run [AnimationFrame 16] autonomousStarted)) = Some true).
Proof.
  split.
  - intros dt g this. split.
    + unfold Player_updateAI. cbn. now destruct (Qltb _ _).
    + unfold Player_updateAI. destruct (nearestEnemy _ _).
      * destruct (Qltb _ _); [reflexivity|]. now destruct (Qgtb _ _).
      * now destruct (Qltb _ _).
  - vm_compute. repeat split.
Qed.

(** * Further properties of the code *)

(** ** Entity.checkCollision *)

(** X1. The collision test is symmetric, between entities of any two
    classes, and an entity collides with itself exactly when its width and
    height are positive. *)
Theorem checkCollision_symmetric :
  forall (A B : Type) (RA : Rect A) (RB : Rect B) (a : A) (b : B),
    checkCollision a b = checkCollision b a /\
    (checkCollision a a = true <-> 0 < rect_width a /\ 0 < rect_height a).
Proof.
  intros A B RA RB a b. split.
  - unfold checkCollision, Qgtb. cbv zeta.
    repeat match goal with |- context [Qltb ?u ?v] =>
      let c := fresh "c" in generalize (Qltb u v); intro c end.
    repeat match goal with c : bool |- _ => destruct c end; reflexivity.
  - rewrite checkCollision_true. unfold spec_overlap, spec_shrink. cbn.
    split; intros; repeat match goal with H : _ /\ _ |- _ => destruct H end;
      repeat split; lra.
Qed.

(** ** Player *)

Lemma Math_clamp_bounds (hi v : Q) :
  0 <= hi -> 0 <= Math_max 0 (Math_min hi v) /\ Math_max 0 (Math_min hi v) <= hi.
Proof.
  intros H. unfold Math_max, Math_min.
  destruct (Qltb v hi) eqn:E1.
  - apply Qltb_lt in E1. destruct (Qltb 0 v) eqn:E2.
    + apply Qltb_lt in E2. split; lra.
    + split; lra.
  - apply Qltb_ge in E1. destruct (Qltb 0 hi) eqn:E2.
    + apply Qltb_lt in E2. split; lra.
    + split; lra.
Qed.

Lemma Player_update_player dt p g :
  exists p',
    player (Player_update dt p g) = Some p' /\
    Player.x p' = Math_max 0 (Math_min (width g - Player.width p)
                                (Player.x (if cheatMode g then Player_updateAI dt g p
                                           else Player_updateManual dt g p))) /\
    Player.y p' = Math_max 0 (Math_min (height g - Player.height p)
                                (Player.y (if cheatMode g then Player_updateAI dt g p
                                           else Player_updateManual dt g p))) /\
    Player.width p' = Player.width p /\ Player.height p' = Player.height p /\
    Player.hp p' = Player.hp p /\ Player.maxHp p' = Player.maxHp p /\
    Player.shootInterval p' = Player.shootInterval p.
Proof.
  unfold Player_update. cbv zeta.
  set (p1 := if cheatMode g then Player_updateAI dt g p else Player_updateManual dt g p).
  assert (Hw : Player.width p1 = Player.width p /\ Player.height p1 = Player.height p /\
               Player.hp p1 = Player.hp p /\ Player.maxHp p1 = Player.maxHp p /\
               Player.shootInterval p1 = Player.shootInterval p).
  { subst p1. destruct (cheatMode g).
    - unfold Player_updateAI. destruct (nearestEnemy _ _).
      + destruct (Qltb _ _); [now repeat split|]. destruct (Qgtb _ _); now repeat split.
      + destruct (Qltb _ _); now repeat split.
    - unfold Player_updateManual. cbv zeta.
      repeat match goal with |- context [if ?c then _ else _] => destruct c end;
        now repeat split. }
  destruct Hw as (Hw & Hh & Hhp & Hm & Hi).
  destruct (_ && _).
  - eexists. split; [reflexivity|].
    destruct (Qgtb _ _); cbn; rewrite ?Hw, ?Hh; repeat split; assumption.
  - eexists. split; [reflexivity|].
    destruct (Qgtb _ _); cbn; rewrite ?Hw, ?Hh; repeat split; assumption.
Qed.

(** X2. After [Player.update] the player lies inside the arena, whatever
    the input, the frame time and the control mode, provided the arena is
    at least as large as the player; its size, hp and fire interval are
    untouched. *)
Theorem Player_update_stays_in_arena :
  forall (deltaTime : Q) (this : Player.t) (g : Game.t),
    Player.width this <= width g ->
    Player.height this <= height g ->
    exists this',
      player (Player_update deltaTime this g) = Some this' /\
      (0 <= Player.x this' /\ Player.x this' + Player.width this' <= width g) /\
      (0 <= Player.y this' /\ Player.y this' + Player.height this' <= height g) /\
      Player.width this' = Player.width this /\
      Player.height this' = Player.height this /\
      Player.hp this' = Player.hp this.
Proof.
  intros dt p g Hw Hh.
  destruct (Player_update_player dt p g) as (p' & Hp & Hx & Hy & Ew & Eh & Ehp & _).
  exists p'. split; [exact Hp|].
  rewrite Hx, Hy, Ew, Eh.
  pose proof (Math_clamp_bounds (width g - Player.width p)
                (Player.x (if cheatMode g then Player_updateAI dt g p
                           else Player_updateManual dt g p)) ltac:(lra)) as [X1 X2].
  pose proof (Math_clamp_bounds (height g - Player.height p)
                (Player.y (if cheatMode g then Player_updateAI dt g p
                           else Player_updateManual dt g p)) ltac:(lra)) as [Y1 Y2].
  repeat split; try assumption; lra.
Qed.

Lemma Player_update_stays_in_arena_witness :
  exists this',
    player (Player_update 10 startedPlayer (run [KeyDown "ArrowRight" false] started))
    = Some this' /\
    (0 <= Player.x this' /\
     Player.x this' + Player.width this' <= width (run [KeyDown "ArrowRight" false] started)) /\
    (0 <= Player.y this' /\
     Player.y this' + Player.height this' <= height (run [KeyDown "ArrowRight" false] started)) /\
    Player.width this' = Player.width startedPlayer /\
    Player.height this' = Player.height startedPlayer /\
    Player.hp this' = Player.hp startedPlayer.
Proof.
  apply (Player_update_stays_in_arena 10 startedPlayer
           (run [KeyDown "ArrowRight" false] started)).
  - vm_compute. discriminate.
  - vm_compute. discriminate.
Defined.

Lemma Qleb_false (a b : Q) : Qleb a b = false <-> b < a.
Proof.
  unfold Qleb. split; intros H.
  - destruct (Qlt_le_dec b a) as [L|L]; [exact L|].
    apply Qle_bool_iff in L. congruence.
  - destruct (Qle_bool a b) eqn:E; [|reflexivity].
    apply Qle_bool_iff in E. lra.
Qed.

(** X3. [Player.update] fires exactly when the fire key is held or the
    autopilot is on, and the cooldown is already over or ends within this
    frame.  It then appends one bullet, 5 wide, centred on the player as
    clamped to the arena and at its top edge, with speed -600, resets the
    cooldown to the fire interval and triggers the shoot sound; otherwise
    bullets and sounds are left alone. *)
Theorem Player_update_fire_gate :
  forall (deltaTime : Q) (this : Player.t) (g : Game.t),
  exists this',
    player (Player_update deltaTime this g) = Some this' /\
    (if fires deltaTime this g
     then
       bullets (Player_update deltaTime this g)
       = bullets g
         ++ [Bullet_new (Player.x this' + Player.width this' / 2 - 2.5) (Player.y this') (-600)] /\
       effects (Player_update deltaTime this g) = effects g ++ [AudioShoot] /\
       Player.shootTimer this' = Player.shootInterval this
     else
       bullets (Player_update deltaTime this g) = bullets g /\
       effects (Player_update deltaTime this g) = effects g).
Proof.
  intros dt p g. unfold Player_update, fires. cbv zeta.
  set (p1 := if cheatMode g then Player_updateAI dt g p else Player_updateManual dt g p).
  assert (Ht : Player.shootTimer p1 = Player.shootTimer p /\
               Player.shootInterval p1 = Player.shootInterval p).
  { subst p1. destruct (cheatMode g).
    - unfold Player_updateAI. destruct (nearestEnemy _ _).
      + destruct (Qltb _ _); [now split|]. destruct (Qgtb _ _); now split.
      + destruct (Qltb _ _); now split.
    - unfold Player_updateManual. cbv zeta.
      repeat match goal with |- context [if ?c then _ else _] => destruct c end;
        now split. }
  destruct Ht as [Ht Hi].
  cbn [Player.shootTimer Player_set_x Player_set_y].
  rewrite Ht.
  destruct (isDown "Space" g || cheatMode g); cbn [andb].
  - unfold Qgtb. destruct (Qltb 0 (Player.shootTimer p)) eqn:E0.
    + apply Qltb_lt in E0.
      assert (E1 : Qleb (Player.shootTimer p) 0 = false) by now apply Qleb_false.
      rewrite E1. cbn [orb Player.shootTimer Player_set_shootTimer].
      destruct (Qleb (Player.shootTimer p - dt) 0) eqn:E2.
      * assert (E3 : Qleb (Player.shootTimer p) dt = true).
        { apply Qle_bool_iff. apply Qle_bool_iff in E2. lra. }
        rewrite E3. eexists. split; [reflexivity|]. cbn. now rewrite Hi.
      * assert (E3 : Qleb (Player.shootTimer p) dt = false).
        { apply Qleb_false. apply Qleb_false in E2. lra. }
        rewrite E3. eexists. split; [reflexivity|]. now cbn.
    + apply Qltb_ge in E0.
      assert (E1 : Qleb (Player.shootTimer p) 0 = true) by now apply Qle_bool_iff.
      cbn [Player.shootTimer Player_set_x Player_set_y]. rewrite Ht, E1. cbn [orb].
      eexists. split; [reflexivity|]. cbn. now rewrite Hi.
  - eexists. split; [reflexivity|]. now cbn.
Qed.

(** X4. [updateManual] moves the player by [speed * deltaTime] per held
    direction, each axis on its own: opposite keys held together cancel
    and a diagonal is the plain sum of both axes. *)
Theorem Player_updateManual_displacement :
  forall (deltaTime : Q) (g : Game.t) (this : Player.t),
    let this' := Player_updateManual deltaTime g this in
    Player.x this'
    == Player.x this
       + Player.speed this * deltaTime
         * (held "ArrowRight" "KeyD" g - held "ArrowLeft" "KeyA" g) /\
    Player.y this'
    == Player.y this
       + Player.speed this * deltaTime
         * (held "ArrowDown" "KeyS" g - held "ArrowUp" "KeyW" g).
Proof.
  intros dt g p. unfold Player_updateManual, held. cbv zeta.
  destruct (isDown "ArrowLeft" g || isDown "KeyA" g);
    destruct (isDown "ArrowRight" g || isDown "KeyD" g);
    destruct (isDown "ArrowUp" g || isDown "KeyW" g);
    destruct (isDown "ArrowDown" g || isDown "KeyS" g);
    cbn; split; ring.
Qed.

(** ** The autopilot's choice of a target *)

Lemma nearestEnemy_fold px es :
  forall e pre post,
    (forall e', In e' pre -> aiDistance px e < aiDistance px e') ->
    (forall e', In e' post -> aiDistance px e <= aiDistance px e') ->
    exists e2 pre2 post2,
      snd (fold_left
             (fun (acc : option Q * option Enemy.t) enemy =>
                let dist := Math_abs (Enemy.x enemy - px) in
                let closer := match fst acc with None => true | Some m => Qltb dist m end in
                if closer then (Some dist, Some enemy) else acc)
             es (Some (aiDistance px e), Some e)) = Some e2 /\
      pre ++ e :: post ++ es = pre2 ++ e2 :: post2 /\
      (forall e', In e' pre2 -> aiDistance px e2 < aiDistance px e') /\
      (forall e', In e' post2 -> aiDistance px e2 <= aiDistance px e').
Proof.
  induction es as [|h es IH]; intros e pre post Hpre Hpost.
  - exists e, pre, post. cbn. rewrite app_nil_r. auto.
  - cbn [fold_left fst]. cbv zeta.
    fold (aiDistance px h).
    destruct (Qltb (aiDistance px h) (aiDistance px e)) eqn:E.
    + apply Qltb_lt in E.
      destruct (IH h (pre ++ e :: post) []) as (e2 & pre2 & post2 & H1 & H2 & H3 & H4).
      * intros e' Hin. apply in_app_or in Hin as [Hin|[<-|Hin]].
        -- specialize (Hpre _ Hin). lra.
        -- exact E.
        -- specialize (Hpost _ Hin). lra.
      * intros e' [].
      * exists e2, pre2, post2. repeat split; auto.
        rewrite <- H2. cbn [app]. now rewrite <- !app_assoc.
    + apply Qltb_ge in E.
      destruct (IH e pre (post ++ [h])) as (e2 & pre2 & post2 & H1 & H2 & H3 & H4).
      * exact Hpre.
      * intros e' Hin. apply in_app_or in Hin as [Hin|[<-|[]]]; auto.
      * exists e2, pre2, post2. repeat split; auto.
        rewrite <- H2. now rewrite <- !app_assoc.
Qed.

(** X5. The target of [updateAI] is the first enemy of the array, dead or
    alive, at the least horizontal distance [|enemy.x - player.x|]: every
    enemy before it is strictly farther, every enemy after it at least as
    far.  There is no target exactly when the array is empty. *)
Theorem nearestEnemy_first_minimum :
  forall (px : Q) (es : list Enemy.t),
    match nearestEnemy px es with
    | None => es = []
    | Some e =>
        exists before after,
          es = before ++ e :: after /\
          (forall e', In e' before -> aiDistance px e < aiDistance px e') /\
          (forall e', In e' after -> aiDistance px e <= aiDistance px e')
    end.
Proof.
  intros px [|h es]; [reflexivity|].
  destruct (nearestEnemy_fold px es h [] []) as (e2 & pre2 & post2 & H1 & H2 & H3 & H4).
  - intros e' [].
  - intros e' [].
  - replace (nearestEnemy px (h :: es)) with (Some e2) by (symmetry; exact H1).
    exists pre2, post2. auto.
Qed.

(** ** Bullets and enemies in the update phases *)

(** X6. After the bullet phase of [update] every bullet of the collection
    is live, lies within the vertical bounds of the arena and is a bullet
    that was live before the phase, moved by [speed * deltaTime] along [y]
    only; a bullet that leaves the arena is gone within the same phase. *)
Theorem update_bullets_in_bounds :
  forall (deltaTime : Q) (g : Game.t),
    Forall
      (fun b =>
         Bullet.markedForDeletion b = false /\
         (0 <= Bullet.y b /\ Bullet.y b <= height g) /\
         exists b0,
           In b0 (bullets g) /\ Bullet.markedForDeletion b0 = false /\
           b = Bullet_set_y (Bullet.y b0 + Bullet.speed b0 * deltaTime) b0)
      (bullets (update_bullets deltaTime g)).
Proof.
  intros dt g. apply Forall_forall. intros b Hb.
  unfold update_bullets in Hb. cbn [bullets set_bullets] in Hb.
  apply filter_In in Hb as [Hin Hlive]. apply negb_true_iff in Hlive.
  apply in_map_iff in Hin as (b0 & <- & Hin0).
  unfold Bullet_update in *. cbv zeta in *.
  cbn [Bullet.y Bullet_set_y height set_bullets] in *.
  destruct (Qltb (Bullet.y b0 + Bullet.speed b0 * dt) 0
            || Qgtb (Bullet.y b0 + Bullet.speed b0 * dt) (height g)) eqn:E.
  - discriminate Hlive.
  - apply orb_false_iff in E as [E1 E2]. unfold Qgtb in E2.
    apply Qltb_ge in E1. apply Qltb_ge in E2.
    split; [exact Hlive|]. split; [now split|].
    exists b0. repeat split; auto.
Qed.

Lemma Enemy_new_spec x y ty g :
  exists e,
    Enemy_new x y ty g = (e, snd (Enemy_new x y ty g)) /\
    Enemy.oid e = nextId g /\ Enemy.x e = x /\ Enemy.y e = y /\
    Enemy.type e = ty /\ Enemy.markedForDeletion e = false /\
    (0 < Enemy.hp e)%Z /\ (0 <= Enemy.scoreValue e)%Z /\
    Enemy.width e = (match ty with scout => 40 | fighter => 50 | boss => 120 end).
Proof.
  unfold Enemy_new, Math_random. destruct ty; eexists; cbn;
    (split; [reflexivity|]); cbn; repeat split; try reflexivity; lia.
Qed.

Lemma spawnEnemy_enemies g :
  exists e,
    enemies (Game_spawnEnemy g) = enemies g ++ [e] /\
    Enemy.oid e = nextId g /\
    Enemy.x e = randomSource g (randomCalls g) * (width g - 50) /\
    Enemy.y e = -50 /\
    Enemy.type e
    = (if Qltb (randomSource g (S (randomCalls g))) (0.3 + inject_Z (wave g) * 0.05)
       then fighter else scout) /\
    Enemy.markedForDeletion e = false /\
    (0 < Enemy.hp e)%Z /\ (0 <= Enemy.scoreValue e)%Z /\
    Enemy.width e = (match Enemy.type e with scout => 40 | fighter => 50 | boss => 120 end).
Proof.
  unfold Game_spawnEnemy, Math_random. cbv zeta.
  cbn [randomSource randomCalls set_randomCalls width wave].
  match goal with |- context [Enemy_new ?x ?y ?ty ?g1] =>
    destruct (Enemy_new_spec x y ty g1) as (e & E & H1 & H2 & H3 & H4 & H5 & H6 & H7 & H8);
    pose proof (Enemy_new_frame enemies x y ty g1 ltac:(solve_frame)) as Ee;
    rewrite E end.
  exists e. cbn [enemies set_enemies]. rewrite Ee. cbn [enemies set_randomCalls].
  rewrite H4. repeat split; auto.
Qed.

Lemma bossCount_app es1 es2 : bossCount (es1 ++ es2) = (bossCount es1 + bossCount es2)%nat.
Proof. unfold bossCount. now rewrite filter_app, length_app. Qed.

Lemma bossCount_map (h : Enemy.t -> Enemy.t) es :
  (forall e, Enemy.type (h e) = Enemy.type e) -> bossCount (map h es) = bossCount es.
Proof.
  intros Hh. unfold bossCount. induction es as [|e es IH]; [reflexivity|].
  cbn [map filter].
  assert (Hb : isBoss (h e) = isBoss e) by (unfold isBoss; now rewrite Hh).
  rewrite Hb. destruct (isBoss e); cbn [length]; now rewrite IH.
Qed.

Lemma bossCount_filter (keep : Enemy.t -> bool) es :
  (bossCount (filter keep es) <= bossCount es)%nat.
Proof.
  unfold bossCount. induction es as [|e es IH]; [reflexivity|].
  cbn [filter]. destruct (keep e), (isBoss e) eqn:B; cbn [filter length];
    rewrite ?B; cbn [length]; lia.
Qed.

Lemma Enemy_update_keeps dt g e :
  Enemy.type (Enemy_update dt g e) = Enemy.type e /\
  Enemy.scoreValue (Enemy_update dt g e) = Enemy.scoreValue e /\
  Enemy.hp (Enemy_update dt g e) = Enemy.hp e /\
  Enemy.oid (Enemy_update dt g e) = Enemy.oid e /\
  Enemy.y (Enemy_update dt g e) = Enemy.y e + Enemy.speedY e * dt /\
  Enemy.markedForDeletion (Enemy_update dt g e)
  = Enemy.markedForDeletion e || Qgtb (Enemy.y e + Enemy.speedY e * dt) (height g).
Proof.
  unfold Enemy_update. cbv zeta. cbn [Enemy.y Enemy_set_y Enemy_set_x].
  destruct (_ || _); cbn [Enemy.y Enemy_set_speedX];
    destruct (Qgtb _ _); cbn; repeat split;
    rewrite ?orb_true_r, ?orb_false_r; reflexivity.
Qed.

(** X7. After the enemy phase of [update] every enemy of the collection is
    live and has not passed the bottom edge.  The phase adds at most one
    enemy, never a boss, and removes the enemies that left the arena
    without any penalty: score, player, bullets and game state are as
    before. *)
Theorem update_enemies_escapes_cost_nothing :
  forall (deltaTime : Q) (g : Game.t),
    let g' := update_enemies deltaTime g in
    Forall (fun e => Enemy.markedForDeletion e = false /\ Enemy.y e <= height g) (enemies g') /\
    (length (enemies g') <= length (enemies g) + 1)%nat /\
    (bossCount (enemies g') <= bossCount (enemies g))%nat /\
    score g' = score g /\ player g' = player g /\
    bullets g' = bullets g /\ gameState g' = gameState g.
Proof.
  intros dt g g'. subst g'. split; [|split; [|split]].
  - apply Forall_forall. intros e He.
    unfold update_enemies in He. cbv zeta in He. cbn [enemies set_enemies] in He.
    apply filter_In in He as [Hin Hlive]. apply negb_true_iff in Hlive.
    apply in_map_iff in Hin as (e0 & <- & _).
    split; [exact Hlive|].
    destruct (Enemy_update_keeps dt
                (if Qleb (enemyTimer (set_enemyTimer (enemyTimer g - dt) g)) 0
                 then set_enemyTimer (enemyInterval (set_enemyTimer (enemyTimer g - dt) g))
                        (Game_spawnEnemy (set_enemyTimer (enemyTimer g - dt) g))
                 else set_enemyTimer (enemyTimer g - dt) g) e0)
      as (_ & _ & _ & _ & Hy & Hm).
    rewrite Hm in Hlive. apply orb_false_iff in Hlive as [_ Hlive].
    unfold Qgtb in Hlive. apply Qltb_ge in Hlive. rewrite Hy.
    match type of Hlive with _ <= height ?h =>
      replace (height h) with (height g) in Hlive; [exact Hlive|] end.
    destruct (Qleb _ _); [|reflexivity].
    cbn [height set_enemyTimer].
    now rewrite (spawnEnemy_frame height) by solve_frame.
  - unfold update_enemies. cbv zeta. cbn [enemies set_enemies].
    etransitivity; [apply filter_length_le|]. rewrite length_map.
    destruct (Qleb _ _); cbn [enemies set_enemyTimer]; [|lia].
    destruct (spawnEnemy_enemies (set_enemyTimer (enemyTimer g - dt) g)) as (e & -> & _).
    rewrite length_app. cbn. lia.
  - unfold update_enemies. cbv zeta. cbn [enemies set_enemies].
    etransitivity; [apply bossCount_filter|].
    rewrite bossCount_map by (intros; apply Enemy_update_keeps).
    destruct (Qleb _ _); cbn [enemies set_enemyTimer]; [|lia].
    destruct (spawnEnemy_enemies (set_enemyTimer (enemyTimer g - dt) g))
      as (e & -> & _ & _ & _ & Ht & _).
    rewrite bossCount_app.
    assert (Hb : bossCount [e] = 0%nat).
    { unfold bossCount, isBoss. cbn [filter]. rewrite Ht. now destruct (Qltb _ _). }
    rewrite Hb. cbn [enemies set_enemyTimer]. lia.
  - repeat split.
    + now rewrite (update_enemies_frame score) by solve_frame.
    + now rewrite (update_enemies_frame player) by solve_frame.
    + now rewrite (update_enemies_frame bullets) by solve_frame.
    + now rewrite (update_enemies_frame gameState) by solve_frame.
Qed.

(** ** Particles *)

Lemma Particle_aged_stays_dead dts p :
  Particle.markedForDeletion p = true ->
  Particle.markedForDeletion (Particle_aged dts p) = true.
Proof.
  revert p. induction dts as [|dt dts IH]; intros p H; [exact H|].
  cbn. apply IH. now apply Particle_update_stays_dead.
Qed.

Lemma Qsum_nonneg dts : forallb (Qle_bool 0) dts = true -> 0 <= Qsum dts.
Proof.
  induction dts as [|dt dts IH]; cbn; intros H; [lra|].
  apply andb_true_iff in H as [H1 H2]. apply Qle_bool_iff in H1.
  specialize (IH H2). unfold Qsum in IH. lra.
Qed.

(** ** Explosions and spawning under [Math.random] *)

Lemma Particle_new_fresh x y c g :
  unitRandom (randomSource g) ->
  Particle_freshAt x y (fst (Particle_new x y c g)).
Proof.
  intros Hr. unfold Particle_new, Math_random.
  cbn [randomSource randomCalls set_randomCalls].
  pose proof (Hr (randomCalls g)) as [A1 A2].
  pose proof (Hr (S (randomCalls g))) as [B1 B2].
  pose proof (Hr (S (S (randomCalls g)))) as [C1 C2].
  destruct c; cbn [fst]; unfold Particle_freshAt; cbn; repeat split; lra.
Qed.

Lemma pushParticles_fresh n x y c g :
  unitRandom (randomSource g) ->
  exists news,
    particles (pushParticles n x y c g) = particles g ++ news /\
    length news = n /\
    Forall (Particle_freshAt x y) news.
Proof.
  revert g. induction n as [|n IH]; intros g Hr.
  - exists []. cbn. now rewrite app_nil_r.
  - cbn [pushParticles].
    pose proof (Particle_new_fresh x y c g Hr) as Hf.
    pose proof (Particle_new_frame particles x y c g ltac:(solve_frame)) as Hp.
    pose proof (Particle_new_frame randomSource x y c g ltac:(solve_frame)) as Hs.
    destruct (Particle_new x y c g) as [p g1]. cbn [fst snd] in *.
    destruct (IH (set_particles (particles g1 ++ [p]) g1)) as (news & E & L & F).
    { cbn [randomSource set_particles]. now rewrite Hs. }
    exists (p :: news). rewrite E. cbn [particles set_particles]. rewrite Hp.
    rewrite <- app_assoc. cbn. repeat split; auto.
Qed.

(** X9. [createExplosion(x, y, count, color)] triggers the explosion sound
    once and appends exactly [count] particles to the collection, leaving
    those already there in place.  With [Math.random] in [0, 1) every new
    particle is live, sits at [(x, y)] with life 1, has a size in [2, 7)
    and both speed components in [-100, 100). *)
Theorem createExplosion_appends_fresh_particles :
  forall (x y : Q) (count : nat) (color : option string) (g : Game.t),
    unitRandom (randomSource g) ->
    exists news,
      particles (Game_createExplosion x y count color g) = particles g ++ news /\
      length news = count /\
      Forall (Particle_freshAt x y) news /\
      effects (Game_createExplosion x y count color g) = effects g ++ [AudioExplosion].
Proof.
  intros x y n c g Hr. unfold Game_createExplosion.
  destruct (pushParticles_fresh n x y c (emit AudioExplosion g) Hr) as (news & E & L & F).
  exists news. repeat split; auto.
  now rewrite (pushParticles_frame effects) by solve_frame.
Qed.

Lemma createExplosion_appends_fresh_particles_witness :
  exists news,
    particles (Game_createExplosion 10 20 3 None started) = particles started ++ news /\
    length news = 3%nat /\
    Forall (Particle_freshAt 10 20) news /\
    effects (Game_createExplosion 10 20 3 None started) = effects started ++ [AudioExplosion].
Proof.
  apply (createExplosion_appends_fresh_particles 10 20 3 None started).
  intros k. vm_compute. split; [discriminate | reflexivity].
Defined.

(** X10. With [Math.random] in [0, 1) and an arena wider than 50,
    [spawnEnemy] appends one live enemy at the top ([y = -50]) that lies
    within the arena horizontally; it is a scout or a fighter, never a
    boss, and from wave 14 on always a fighter. *)
Theorem spawnEnemy_inside_arena :
  forall g : Game.t,
    unitRandom (randomSource g) ->
    50 < width g ->
    exists e,
      enemies (Game_spawnEnemy g) = enemies g ++ [e] /\
      (0 <= Enemy.x e /\ Enemy.x e + Enemy.width e <= width g) /\
      Enemy.y e = -50 /\
      Enemy.markedForDeletion e = false /\
      (0 < Enemy.hp e)%Z /\
      isBoss e = false /\
      ((wave g < 14)%Z \/ Enemy.type e = fighter).
Proof.
  intros g Hr Hw.
  destruct (spawnEnemy_enemies g) as (e & E & _ & Hx & Hy & Ht & Hm & Hhp & _ & Hwd).
  exists e. split; [exact E|].
  pose proof (Hr (randomCalls g)) as [A1 A2].
  pose proof (Hr (S (randomCalls g))) as [B1 B2].
  assert (X1 : 0 <= Enemy.x e).
  { rewrite Hx. apply Qmult_le_0_compat; lra. }
  assert (X2 : Enemy.x e <= width g - 50).
  { rewrite Hx. rewrite <- (Qmult_1_l (width g - 50)) at 2.
    apply Qmult_le_compat_r; lra. }
  repeat split; auto.
  - rewrite Hwd, Ht. destruct (Qltb _ _); lra.
  - unfold isBoss. rewrite Ht. now destruct (Qltb _ _).
  - destruct (Z_lt_le_dec (wave g) 14) as [Hwave|Hwave]; [now left | right].
    rewrite Ht.
    assert (14 <= inject_Z (wave g))
      by (change 14 with (inject_Z 14); now rewrite <- Zle_Qle).
    destruct (Qltb _ _) eqn:E1; [reflexivity|].
    apply Qltb_ge in E1. lra.
Qed.

Lemma spawnEnemy_inside_arena_witness :
  exists e,
    enemies (Game_spawnEnemy started) = enemies started ++ [e] /\
    (0 <= Enemy.x e /\ Enemy.x e + Enemy.width e <= width started) /\
    Enemy.y e = -50 /\
    Enemy.markedForDeletion e = false /\
    (0 < Enemy.hp e)%Z /\
    isBoss e = false /\
    ((wave started < 14)%Z \/ Enemy.type e = fighter).
Proof.
  apply (spawnEnemy_inside_arena started).
  - intros k. vm_compute. split; [discriminate | reflexivity].
  - reflexivity.
Defined.

(** ** The chain reaction and the delayed victory *)

Lemma markOid_absent id es :
  ~ In id (map Enemy.oid es) -> markOid id es = es.
Proof.
  unfold markOid. induction es as [|e es IH]; intros H; [reflexivity|].
  cbn [map] in *. destruct (Nat.eqb (Enemy.oid e) id) eqn:E.
  - apply Nat.eqb_eq in E. exfalso. apply H. now left.
  - rewrite IH; [reflexivity|]. intros Hin. apply H. now right.
Qed.

Lemma markOid_marked id es e :
  NoDup (map Enemy.oid es) ->
  find (fun e => Nat.eqb (Enemy.oid e) id) es = Some e ->
  Enemy.markedForDeletion e = true ->
  markOid id es = es.
Proof.
  unfold markOid. induction es as [|h es IH]; intros Hnd Hf Hm; [reflexivity|].
  cbn [map find] in *. inversion Hnd as [|? ? Hnotin Hnd']; subst.
  destruct (Nat.eqb (Enemy.oid h) id) eqn:E.
  - injection Hf as ->. apply Nat.eqb_eq in E. subst id. f_equal.
    + destruct e; cbn in *; now subst.
    + now apply markOid_absent.
  - f_equal. now apply IH.
Qed.

Lemma find_app_l {A : Type} (f : A -> bool) (l1 l2 : list A) (a : A) :
  find f l1 = Some a -> find f (l1 ++ l2) = Some a.
Proof.
  induction l1 as [|h l1 IH]; cbn; [discriminate|]. destruct (f h); auto.
Qed.

Lemma find_none_absent id es :
  find (fun e => Nat.eqb (Enemy.oid e) id) es = None -> ~ In id (map Enemy.oid es).
Proof.
  induction es as [|h es IH]; cbn; [tauto|].
  destruct (Nat.eqb (Enemy.oid h) id) eqn:E; [discriminate|].
  apply Nat.eqb_neq in E. intros Hf [H|H]; [contradiction|]. now apply IH.
Qed.

Lemma chainKill_enemies id g :
  NoDup (map Enemy.oid (enemies g)) ->
  enemies (chainKill id g) = markOid id (enemies g).
Proof.
  intros Hnd. unfold chainKill, findOid.
  destruct (find (fun e => Nat.eqb (Enemy.oid e) id) (enemies g)) as [e|] eqn:F.
  - rewrite (find_app_l _ _ _ _ F).
    destruct (Enemy.markedForDeletion e) eqn:M.
    + symmetry. now apply (markOid_marked id _ e).
    + cbv zeta. now rewrite (createExplosion_frame enemies) by solve_frame.
  - pose proof (find_none_absent _ _ F) as Habs.
    rewrite (markOid_absent _ _ Habs).
    destruct (find _ (enemies g ++ detached g)) as [e|]; [|reflexivity].
    destruct (Enemy.markedForDeletion e); [reflexivity|].
    cbv zeta. rewrite (createExplosion_frame enemies) by solve_frame.
    cbn [enemies set_enemies set_detached].
    rewrite ?markOid_absent by assumption. reflexivity.
Qed.

Lemma map_oid_markOid id es : map Enemy.oid (markOid id es) = map Enemy.oid es.
Proof.
  unfold markOid. rewrite map_map. apply map_ext. intros e.
  now destruct (Nat.eqb _ _).
Qed.

Lemma fireChain_enemies ids :
  forall g,
    NoDup (map Enemy.oid (enemies g)) ->
    enemies (fireChain ids g)
    = map (fun e => if existsb (Nat.eqb (Enemy.oid e)) ids
                    then Enemy_set_markedForDeletion true e else e) (enemies g).
Proof.
  induction ids as [|id ids IH]; intros g Hnd.
  - cbn. now rewrite map_id.
  - cbn [fireChain fold_left]. fold (fireChain ids (chainKill id g)).
    rewrite IH by (rewrite chainKill_enemies, map_oid_markOid; assumption).
    rewrite chainKill_enemies by assumption.
    unfold markOid. rewrite map_map. apply map_ext. intros e. cbn [existsb].
    destruct (Nat.eqb (Enemy.oid e) id) eqn:E; cbn [Enemy.oid Enemy_set_markedForDeletion orb].
    + now destruct (existsb _ ids).
    + reflexivity.
Qed.

Lemma chainTimers_spec ids :
  forall k,
    map action (chainTimers k ids) = map ChainKill ids /\
    map delay (chainTimers k ids)
    = map (fun i => inject_Z (Z.of_nat i) * 100) (seq k (length ids)).
Proof.
  induction ids as [|id ids IH]; intros k; [now split|].
  cbn. destruct (IH (S k)) as [-> ->]. now split.
Qed.

(** X11. [triggerChainReaction] schedules one closure per enemy of the
    array, in array order, the one for index [i] after [i * 100] ms, and
    touches nothing but the timers.  When the closures for a set of
    enemies run, in any order and at any later time, every enemy of the
    array that belongs to the set is marked dead, every other enemy (one
    spawned after the boss died, say) is left exactly as it is, and none is
    removed.  The enemies of the array are distinct objects. *)
Theorem chain_reaction_kills_the_snapshot :
  forall (g : Game.t) (ids : list nat),
    NoDup (map Enemy.oid (enemies g)) ->
    (timers (Game_triggerChainReaction g)
     = timers g ++ chainTimers 0 (map Enemy.oid (enemies g)) /\
     map action (chainTimers 0 (map Enemy.oid (enemies g)))
     = map ChainKill (map Enemy.oid (enemies g)) /\
     map delay (chainTimers 0 (map Enemy.oid (enemies g)))
     = map (fun i => inject_Z (Z.of_nat i) * 100) (seq 0 (length (enemies g))) /\
     enemies (Game_triggerChainReaction g) = enemies g) /\
    enemies (fireChain ids g)
    = map (fun e => if existsb (Nat.eqb (Enemy.oid e)) ids
                    then Enemy_set_markedForDeletion true e else e) (enemies g) /\
    Forall (fun e => Enemy.markedForDeletion e = true)
      (enemies (fireChain (map Enemy.oid (enemies g)) g)).
Proof.
  intros g ids Hnd. split; [|split].
  - destruct (chainTimers_spec (map Enemy.oid (enemies g)) 0) as [A D].
    rewrite length_map in D. repeat split; auto.
    + apply timers_scheduleChain.
    + now rewrite (triggerChainReaction_frame enemies) by solve_frame.
  - now apply fireChain_enemies.
  - rewrite fireChain_enemies by assumption.
    apply Forall_forall. intros e' Hin. apply in_map_iff in Hin as (e & <- & Hin).
    assert (H : existsb (Nat.eqb (Enemy.oid e)) (map Enemy.oid (enemies g)) = true).
    { apply existsb_exists. exists (Enemy.oid e). split.
      - now apply in_map.
      - apply Nat.eqb_refl. }
    now rewrite H.
Qed.

Lemma chain_reaction_kills_the_snapshot_witness :
  (timers (Game_triggerChainReaction deadBossAndScout)
   = timers deadBossAndScout ++ chainTimers 0 (map Enemy.oid (enemies deadBossAndScout)) /\
   map action (chainTimers 0 (map Enemy.oid (enemies deadBossAndScout)))
   = map ChainKill (map Enemy.oid (enemies deadBossAndScout)) /\
   map delay (chainTimers 0 (map Enemy.oid (enemies deadBossAndScout)))
   = map (fun i => inject_Z (Z.of_nat i) * 100) (seq 0 (length (enemies deadBossAndScout))) /\
   enemies (Game_triggerChainReaction deadBossAndScout) = enemies deadBossAndScout) /\
  enemies (fireChain [1%nat] deadBossAndScout)
  = map (fun e => if existsb (Nat.eqb (Enemy.oid e)) [1%nat]
                  then Enemy_set_markedForDeletion true e else e) (enemies deadBossAndScout) /\
  Forall (fun e => Enemy.markedForDeletion e = true)
    (enemies (fireChain (map Enemy.oid (enemies deadBossAndScout)) deadBossAndScout)).
Proof.
  apply (chain_reaction_kills_the_snapshot deadBossAndScout [1%nat]).
  cbn. repeat constructor; cbn; intuition discriminate.
Defined.

Lemma length_remove_nth {A : Type} (l : list A) (n : nat) (a : A) :
  nth_error l n = Some a -> length (remove_nth n l) = pred (length l).
Proof.
  revert n. induction l as [|h l IH]; intros [|n] H; cbn in *; try discriminate.
  - reflexivity.
  - rewrite (IH n H). destruct l; [destruct n; discriminate | reflexivity].
Qed.

(** X12. The delayed victory is not tied to the run that scheduled it: a
    pending victory timeout survives [quitGame()] and [start()], and when
    it fires it sets the game state to VICTORY and shows the victory
    screen, in the menu after a quit (the game not running) as well as in
    the middle of the next run. *)
Theorem delayed_victory_outlives_its_run :
  forall (g : Game.t) (n : nat) (ms now : Q),
    nth_error (timers g) n = Some (mkTimer ms CallVictory) ->
    (timers (Game_quitGame g) = timers g /\ timers (Game_start now g) = timers g) /\
    (gameState (Game_quitGame g) = MENU /\
     gameState (fireTimer n (Game_quitGame g)) = VICTORY /\
     isRunning (fireTimer n (Game_quitGame g)) = false) /\
    (gameState (Game_start now g) = PLAYING /\
     gameState (fireTimer n (Game_start now g)) = VICTORY /\
     score (fireTimer n (Game_start now g)) = 0%Z /\
     effects (fireTimer n (Game_start now g))
     = effects (Game_start now g) ++ [UiShowVictory 0]) /\
    length (timers (fireTimer n g)) = pred (length (timers g)).
Proof.
  intros g n ms now Hn. split; [|split; [|split]].
  - split; reflexivity.
  - unfold fireTimer. cbn [timers Game_quitGame emit set_effects set_gameState
                             set_isPaused set_isRunning].
    rewrite Hn. cbn. repeat split.
  - unfold fireTimer.
    replace (timers (Game_start now g)) with (timers g) by reflexivity.
    rewrite Hn. cbn. repeat split.
  - unfold fireTimer. rewrite Hn. cbn [action].
    rewrite (victory_frame (fun g => length (timers g))) by solve_frame.
    cbn [timers set_timers]. eapply length_remove_nth. exact Hn.
Qed.

Lemma delayed_victory_outlives_its_run_witness :
  (timers (Game_quitGame bossJustDied) = timers bossJustDied /\
   timers (Game_start 5000 bossJustDied) = timers bossJustDied) /\
  (gameState (Game_quitGame bossJustDied) = MENU /\
   gameState (fireTimer 2 (Game_quitGame bossJustDied)) = VICTORY /\
   isRunning (fireTimer 2 (Game_quitGame bossJustDied)) = false) /\
  (gameState (Game_start 5000 bossJustDied) = PLAYING /\
   gameState (fireTimer 2 (Game_start 5000 bossJustDied)) = VICTORY /\
   score (fireTimer 2 (Game_start 5000 bossJustDied)) = 0%Z /\
   effects (fireTimer 2 (Game_start 5000 bossJustDied))
   = effects (Game_start 5000 bossJustDied) ++ [UiShowVictory 0]) /\
  length (timers (fireTimer 2 bossJustDied)) = pred (length (timers bossJustDied)).
Proof.
  apply (delayed_victory_outlives_its_run bossJustDied 2 2000 5000).
  reflexivity.
Defined.

(** ** Invariants of a run *)

Lemma sound_core g g' : core g' = core g -> sound g -> sound g'.
Proof.
  unfold core. intros [= Hp Hs He Hsc].
  unfold sound, healthy, payNonneg, bossKinds, enemyKinds.
  now rewrite Hp, Hs, He, Hsc.
Qed.

Lemma bossKinds_bossCount g : bossKinds g = bossCount (enemies g).
Proof.
  unfold bossKinds, bossCount, enemyKinds, isBoss.
  induction (enemies g) as [|e es IH]; [reflexivity|].
  cbn. destruct (Enemy.type e); cbn; now rewrite ?IH.
Qed.

Lemma scoresUp_refl g : scoresUp g g.
Proof. split; [reflexivity | lia]. Qed.

Lemma scoresUp_trans g1 g2 g3 : scoresUp g1 g2 -> scoresUp g2 g3 -> scoresUp g1 g3.
Proof.
  intros [K1 S1] [K2 S2]. split; [congruence|].
  intros H. specialize (S1 H).
  assert (H2 : payNonneg g2) by (unfold payNonneg in *; now rewrite K1).
  specialize (S2 H2). lia.
Qed.

Lemma scoresUp_same g g' :
  enemies g' = enemies g -> score g' = score g -> scoresUp g g'.
Proof.
  intros He Hs. split; [unfold enemyKinds; now rewrite He | rewrite Hs; lia].
Qed.

Lemma Enemy_takeDamage_score j a g e :
  nth_error (enemies g) j = Some e ->
  score (Enemy_takeDamage j a g)
  = (if (Enemy.hp e - a <=? 0)%Z then score g + Enemy.scoreValue e else score g)%Z.
Proof.
  intros He. unfold Enemy_takeDamage. rewrite He. cbv zeta.
  cbn [Enemy.hp Enemy_set_hp].
  destruct (Enemy.hp e - a <=? 0)%Z; [|reflexivity].
  cbn [Enemy.type Enemy_set_hp Enemy_set_markedForDeletion Enemy.scoreValue].
  destruct (Enemy.type e).
  - now rewrite (createExplosion_frame score) by solve_frame.
  - now rewrite (createExplosion_frame score) by solve_frame.
  - rewrite (setTimeout_frame score) by solve_frame.
    rewrite (triggerChainReaction_frame score) by solve_frame.
    now rewrite (createExplosion_frame score) by solve_frame.
Qed.

Lemma Enemy_takeDamage_scoresUp j a g : scoresUp g (Enemy_takeDamage j a g).
Proof.
  destruct (nth_error (enemies g) j) as [e|] eqn:He.
  - split.
    + unfold enemyKinds. rewrite (Enemy_takeDamage_enemies _ _ _ _ He).
      apply map_list_set with (w := e); [exact He|].
      unfold Enemy_damaged. cbv zeta. now destruct (_ <=? 0)%Z.
    + intros Hpay. rewrite (Enemy_takeDamage_score _ _ _ _ He).
      destruct (_ <=? 0)%Z; [|lia].
      unfold payNonneg, enemyKinds in Hpay. rewrite Forall_forall in Hpay.
      specialize (Hpay (Enemy.type e, Enemy.scoreValue e)).
      cbn [snd] in Hpay. apply nth_error_In in He.
      assert (0 <= Enemy.scoreValue e)%Z
        by (apply Hpay; apply (in_map (fun e => (Enemy.type e, Enemy.scoreValue e))); exact He).
      lia.
  - unfold Enemy_takeDamage. rewrite He. apply scoresUp_refl.
Qed.

Lemma fold_left_scoresUp {I : Type} (body : Game.t -> I -> Game.t) (l : list I) (g : Game.t) :
  (forall g i, scoresUp g (body g i)) -> scoresUp g (fold_left body l g).
Proof.
  intros Hb. revert g. induction l as [|i l IH]; intros g; cbn.
  - apply scoresUp_refl.
  - eapply scoresUp_trans; [apply Hb | apply IH].
Qed.

Lemma bulletsHitEnemies_scoresUp g : scoresUp g (bulletsHitEnemies g).
Proof.
  unfold bulletsHitEnemies. apply fold_left_scoresUp. intros g1 i.
  unfold bulletMeetsEnemies. apply fold_left_scoresUp. intros g2 j.
  unfold bulletMeetsEnemy.
  destruct (nth_error (bullets g2) i) as [b|]; [|apply scoresUp_refl].
  destruct (nth_error (enemies g2) j) as [e|]; [|apply scoresUp_refl].
  destruct (checkCollision b e); [|apply scoresUp_refl].
  match goal with |- scoresUp _ (Enemy_takeDamage _ _ ?h) =>
    apply (scoresUp_trans _ h); [now apply scoresUp_same|] end.
  apply Enemy_takeDamage_scoresUp.
Qed.

Lemma enemiesHitPlayer_kinds g :
  enemyKinds (state_of (enemiesHitPlayer g)) = enemyKinds g.
Proof.
  unfold enemiesHitPlayer. apply (forEachIndex_frame enemyKinds).
  intros j g1. unfold enemyMeetsPlayer.
  destruct (nth_error (enemies g1) j) as [e|] eqn:He; [|reflexivity].
  destruct (player g1) as [p|]; [|reflexivity].
  destruct (checkCollision e p); [|reflexivity].
  cbn [state_of].
  rewrite (createExplosion_frame enemyKinds) by solve_frame.
  rewrite (Player_takeDamage_frame enemyKinds) by solve_frame.
  unfold enemyKinds. cbn [enemies set_enemies].
  now apply map_list_set with (w := e).
Qed.

Lemma checkCollisions_scoresUp g : scoresUp g (state_of (Game_checkCollisions g)).
Proof.
  unfold Game_checkCollisions.
  apply (scoresUp_trans _ (bulletsHitEnemies g)); [apply bulletsHitEnemies_scoresUp|].
  split.
  - apply enemiesHitPlayer_kinds.
  - intros _. unfold enemiesHitPlayer.
    rewrite (forEachIndex_frame score)
      by (intros; apply (enemyMeetsPlayer_frame score); solve_frame).
    lia.
Qed.

(** The player through the collision pass. *)
Lemma Player_takeDamage_healthy a p g :
  (0 <= a)%Z -> player g = Some p -> healthy g ->
  healthy (Player_takeDamage a p g) /\ player (Player_takeDamage a p g) <> None.
Proof.
  intros Ha Hp Hh. unfold healthy in Hh. rewrite Hp in Hh. destruct Hh as [[H0 H1] H2].
  unfold Player_takeDamage. destruct (cheatMode g).
  - split; [|congruence]. unfold healthy. now rewrite Hp.
  - cbv zeta. cbn [Player.hp Player_set_hp].
    destruct (Player.hp p - a <=? 0)%Z eqn:E.
    + split; [|discriminate]. unfold healthy. cbn. split; [lia|discriminate].
    + apply Z.leb_gt in E. split; [|discriminate]. unfold healthy. cbn. split; [lia|].
      intros _. lia.
Qed.

Lemma forEachIndex_inv (P : Game.t -> Prop) (body : nat -> Game.t -> outcome)
      (l : list nat) (g : Game.t) :
  P g ->
  (forall j g, P g -> exists g', body j g = Normal g' /\ P g') ->
  exists g', forEachIndex body l g = Normal g' /\ P g'.
Proof.
  intros Hg Hb. revert g Hg. induction l as [|j l IH]; intros g Hg; cbn.
  - now exists g.
  - destruct (Hb j g Hg) as (g1 & -> & H1). cbn. now apply IH.
Qed.

Lemma enemiesHitPlayer_healthy g :
  healthy g -> player g <> None ->
  exists g',
    enemiesHitPlayer g = Normal g' /\ healthy g' /\ player g' <> None.
Proof.
  intros Hh Hp. unfold enemiesHitPlayer.
  destruct (forEachIndex_inv (fun g => healthy g /\ player g <> None) enemyMeetsPlayer
              (seq 0 (length (enemies g))) g) as (g' & E & H1 & H2); auto.
  - intros j g1 [A B]. unfold enemyMeetsPlayer.
    destruct (nth_error (enemies g1) j) as [e|]; [|now exists g1].
    destruct (player g1) as [p|] eqn:Ep; [|contradiction].
    destruct (checkCollision e p); [|exists g1; rewrite Ep; auto].
    eexists. split; [reflexivity|].
    match goal with |- context [Player_takeDamage 20 p ?h] =>
      destruct (Player_takeDamage_healthy 20 p h ltac:(lia) Ep) as [C D] end.
    { unfold healthy in *. cbn [player gameState set_enemies]. exact A. }
    split.
    + unfold healthy in *.
      rewrite (createExplosion_frame player) by solve_frame.
      rewrite (createExplosion_frame gameState) by solve_frame. exact C.
    + now rewrite (createExplosion_frame player) by solve_frame.
  - now exists g'.
Qed.

Lemma update_enemies_kinds dt g :
  payNonneg g -> payNonneg (update_enemies dt g) /\
  (bossKinds (update_enemies dt g) <= bossKinds g)%nat.
Proof.
  intros Hpay. split.
  - unfold payNonneg, enemyKinds in *. rewrite Forall_forall in *.
    intros k Hk. apply in_map_iff in Hk as (e & <- & He).
    unfold update_enemies in He. cbv zeta in He. cbn [enemies set_enemies] in He.
    apply filter_In in He as [He _].
    apply in_map_iff in He as (e0 & <- & He0).
    cbn [snd].
    match goal with |- (0 <= Enemy.scoreValue (Enemy_update dt ?h e0))%Z =>
      destruct (Enemy_update_keeps dt h e0) as (_ & -> & _) end.
    destruct (Qleb _ _); cbn [enemies set_enemyTimer] in He0.
    + destruct (spawnEnemy_enemies (set_enemyTimer (enemyTimer g - dt) g))
        as (e & E & _ & _ & _ & _ & _ & _ & Hsv & _).
      rewrite E in He0. cbn [enemies set_enemyTimer] in He0.
      apply in_app_or in He0 as [He0|[<-|[]]]; [|exact Hsv].
      apply (Hpay (Enemy.type e0, Enemy.scoreValue e0)).
      apply (in_map (fun e => (Enemy.type e, Enemy.scoreValue e))). exact He0.
    + apply (Hpay (Enemy.type e0, Enemy.scoreValue e0)).
      apply (in_map (fun e => (Enemy.type e, Enemy.scoreValue e))). exact He0.
  - rewrite !bossKinds_bossCount.
    unfold update_enemies. cbv zeta. cbn [enemies set_enemies].
    etransitivity; [apply bossCount_filter|].
    rewrite bossCount_map by (intros; apply Enemy_update_keeps).
    destruct (Qleb _ _); cbn [enemies set_enemyTimer]; [|lia].
    destruct (spawnEnemy_enemies (set_enemyTimer (enemyTimer g - dt) g))
      as (e & -> & _ & _ & _ & Ht & _).
    rewrite bossCount_app.
    assert (Hb : bossCount [e] = 0%nat).
    { unfold bossCount, isBoss. cbn [filter]. rewrite Ht. now destruct (Qltb _ _). }
    rewrite Hb. cbn [enemies set_enemyTimer]. lia.
Qed.

Lemma spawnBoss_enemies g :
  enemies (Game_spawnBoss g) = enemies g /\ existsb isBoss (enemies g) = true \/
  existsb isBoss (enemies g) = false /\
  exists e, enemies (Game_spawnBoss g) = enemies g ++ [e] /\
            Enemy.type e = boss /\ (0 <= Enemy.scoreValue e)%Z /\
            Enemy.markedForDeletion e = false /\
            Enemy.x e = width g / 2 - 60 /\ Enemy.y e = -100.
Proof.
  unfold Game_spawnBoss. destruct (existsb isBoss (enemies g)) eqn:E; cbn [negb].
  - now left.
  - right. split; [reflexivity|].
    destruct (Enemy_new_spec (width g / 2 - 60) (-100) boss g)
      as (e & En & _ & Hx & Hy & Ht & Hm & _ & Hsv & _).
    pose proof (Enemy_new_frame enemies (width g / 2 - 60) (-100) boss g ltac:(solve_frame))
      as Ee.
    rewrite En. exists e. cbn [enemies set_enemies]. rewrite Ee. repeat split; auto.
Qed.

Lemma bossCount_zero es : existsb isBoss es = false -> bossCount es = 0%nat.
Proof.
  unfold bossCount. induction es as [|e es IH]; [reflexivity|].
  cbn. destruct (isBoss e); [discriminate|]. exact IH.
Qed.

Lemma update_wave_kinds g :
  payNonneg g -> (bossKinds g <= 1)%nat ->
  payNonneg (update_wave g) /\ (bossKinds (update_wave g) <= 1)%nat.
Proof.
  intros Hpay Hb. unfold update_wave.
  destruct (_ >? _)%Z; [|now split]. cbv zeta.
  destruct (_ =? 0)%Z; [|now split].
  match goal with |- context [Game_spawnBoss ?h] =>
    destruct (spawnBoss_enemies h) as [[E _]|[Hnone (e & E & Ht & Hsv & _)]];
    assert (Eh : enemies h = enemies g) by reflexivity end.
  - unfold payNonneg, bossKinds, enemyKinds in *. rewrite E, Eh. now split.
  - rewrite Eh in *. split.
    + unfold payNonneg, enemyKinds in *. rewrite E, map_app.
      apply Forall_app. split; [exact Hpay|]. constructor; [exact Hsv | constructor].
    + rewrite bossKinds_bossCount, E, bossCount_app, (bossCount_zero _ Hnone).
      unfold bossCount, isBoss. cbn. rewrite Ht. cbn. lia.
Qed.

Lemma kinds_transfer g g' :
  enemyKinds g' = enemyKinds g ->
  (payNonneg g -> payNonneg g') /\ bossKinds g' = bossKinds g.
Proof. intros E. unfold payNonneg, bossKinds. now rewrite E. Qed.

Lemma healthy_transfer g g' :
  player g' = player g -> gameState g' = gameState g -> healthy g -> healthy g'.
Proof. intros Hp Hs. unfold healthy. now rewrite Hp, Hs. Qed.

Lemma Game_update_sound dt g :
  sound g ->
  exists g', Game_update dt g = Normal g' /\ sound g' /\ (score g <= score g')%Z.
Proof.
  intros Hs. unfold Game_update.
  destruct (_ || _); [exists g; split; [reflexivity | split; [exact Hs | lia]]|].
  cbv zeta.
  set (g1 := update_particles dt (update_background dt g)).
  assert (C1 : core g1 = core g).
  { subst g1. rewrite (update_particles_frame core) by solve_frame.
    now rewrite (update_background_frame core) by solve_frame. }
  pose proof (sound_core _ _ C1 Hs) as S1.
  assert (Sc1 : score g1 = score g) by (unfold core in C1; congruence).
  rewrite <- Sc1. clearbody g1. clear C1 Hs Sc1 g.
  destruct (gameState g1) eqn:Gs;
    try (exists g1; split; [reflexivity | split; [exact S1 | lia]]).
  destruct S1 as (Hh & Hpay & Hboss & Hsc).
  destruct (player g1) as [p|] eqn:Hp;
    [|unfold healthy in Hh; rewrite Hp in Hh; contradiction].
  (* the player's turn *)
  set (g2 := Player_update dt p g1).
  destruct (Player_update_player dt p g1) as (p' & Hp2 & _ & _ & _ & _ & Hhp & _).
  fold g2 in Hp2.
  assert (F2 : (gameState g2, enemies g2, score g2) = (gameState g1, enemies g1, score g1)).
  { subst g2.
    now rewrite (Player_update_frame (fun g => (gameState g, enemies g, score g)))
      by solve_frame. }
  clearbody g2. injection F2 as G2 E2 Sc2.
  assert (Hh2 : healthy g2).
  { unfold healthy in *. rewrite Hp2, G2, Hhp. now rewrite Hp in Hh. }
  (* bullets and enemies *)
  set (g3 := update_bullets dt g2).
  assert (C3 : core g3 = core g2)
    by (subst g3; now rewrite (update_bullets_frame core) by solve_frame).
  clearbody g3.
  set (g4 := update_enemies dt g3).
  assert (F4 : (player g4, gameState g4, score g4) = (player g3, gameState g3, score g3)).
  { subst g4.
    now rewrite (update_enemies_frame (fun g => (player g, gameState g, score g)))
      by solve_frame. }
  unfold core in C3. injection C3 as P3 G3 E3 Sc3.
  assert (Hpay3 : payNonneg g3 /\ bossKinds g3 = bossKinds g1).
  { unfold payNonneg, bossKinds, enemyKinds. rewrite E3, E2. now split. }
  destruct Hpay3 as [Hpay3 Hb3].
  destruct (update_enemies_kinds dt g3 Hpay3) as [Hpay4 Hb4]. fold g4 in Hpay4, Hb4.
  clearbody g4. injection F4 as P4 G4 Sc4.
  assert (Hh4 : healthy g4).
  { apply (healthy_transfer g2); congruence || auto. }
  (* the collision pass *)
  unfold Game_checkCollisions.
  set (g5 := bulletsHitEnemies g4).
  destruct (bulletsHitEnemies_scoresUp g4) as [K5 Sc5]. fold g5 in K5, Sc5.
  assert (F5 : (player g5, gameState g5) = (player g4, gameState g4)).
  { subst g5.
    now rewrite (bulletsHitEnemies_frame (fun g => (player g, gameState g))) by solve_frame. }
  clearbody g5. injection F5 as P5 G5.
  assert (Hh5 : healthy g5) by (now apply (healthy_transfer g4)).
  assert (Hn5 : player g5 <> None) by congruence.
  destruct (enemiesHitPlayer_healthy g5 Hh5 Hn5) as (g6 & E6 & Hh6 & Hn6).
  pose proof (enemiesHitPlayer_kinds g5) as K6.
  pose proof (forEachIndex_frame score enemyMeetsPlayer (seq 0 (length (enemies g5))) g5
                ltac:(intros; apply (enemyMeetsPlayer_frame score); solve_frame)) as Sc6.
  fold (enemiesHitPlayer g5) in Sc6. rewrite E6 in K6, Sc6. cbn [state_of] in K6, Sc6.
  rewrite E6. cbn [bind].
  (* wave progression *)
  destruct (kinds_transfer _ _ K5) as [T5 B5]. destruct (kinds_transfer _ _ K6) as [T6 B6].
  destruct (update_wave_kinds g6 (T6 (T5 Hpay4)) ltac:(lia)) as [Hpay7 Hb7].
  assert (F7 : (player (update_wave g6), gameState (update_wave g6), score (update_wave g6))
               = (player g6, gameState g6, score g6)).
  { unfold update_wave. destruct (_ >? _)%Z; [|reflexivity]. cbv zeta.
    destruct (_ =? 0)%Z; [|reflexivity].
    now rewrite (spawnBoss_frame (fun g => (player g, gameState g, score g))) by solve_frame. }
  injection F7 as P7 G7 Sc7.
  exists (update_wave g6). split; [reflexivity|].
  specialize (Sc5 Hpay4).
  repeat split; auto.
  - now apply (healthy_transfer g6).
  - lia.
  - lia.
Qed.

Lemma chainKill_kinds id g : enemyKinds (chainKill id g) = enemyKinds g.
Proof.
  unfold chainKill. destruct (findOid _ _) as [e|]; [|reflexivity].
  destruct (Enemy.markedForDeletion e); [reflexivity|]. cbv zeta.
  rewrite (createExplosion_frame enemyKinds) by solve_frame.
  unfold enemyKinds, markOid. cbn [enemies set_enemies set_detached].
  rewrite map_map. apply map_ext. intros e0. now destruct (Nat.eqb _ _).
Qed.

Lemma theGame_sound random : sound (theGame random).
Proof.
  unfold sound, healthy, payNonneg, bossKinds, enemyKinds. cbn.
  repeat split; try discriminate; try constructor; lia.
Qed.

Lemma step_sound g ev :
  sound g ->
  sound (step g ev) /\
  ((score g <= score (step g ev))%Z \/ isStart ev = true /\ score (step g ev) = 0%Z).
Proof.
  intros Hs.
  assert (Hcore : forall g', core g' = core g ->
            sound g' /\ ((score g <= score g')%Z \/ isStart ev = true /\ score g' = 0%Z)).
  { intros g' C. split; [now apply (sound_core g)|]. left.
    unfold core in C. injection C as _ _ _ ->. lia. }
  assert (Hstart : forall now, sound (Game_start now g)).
  { intros now. unfold sound, healthy, payNonneg, bossKinds, enemyKinds. cbn.
    repeat split; try constructor; lia. }
  destruct ev; cbn [step].
  - split; [apply Hstart | right; now split].
  - split; [apply Hstart | right; now split].
  - split; [apply Hstart | right; now split].
  - now apply Hcore.
  - destruct Hs as (Hh & Hp & Hb & Hsc). split; [|left; cbn; lia].
    unfold sound. repeat split; auto.
    unfold healthy in *. cbn [player gameState Game_quitGame emit set_effects set_gameState
                                set_isPaused set_isRunning].
    destruct (player g); [split; [tauto | discriminate] | discriminate].
  - now apply Hcore.
  - apply Hcore. unfold Game_handleInput. cbv zeta.
    repeat match goal with |- context [if ?c then _ else _] => destruct c end;
      reflexivity.
  - now apply Hcore.
  - unfold Game_loop. destruct (negb _); [now apply Hcore|]. cbv zeta.
    destruct (Game_update_sound ((timestamp - lastTime g) / 1000) (set_lastTime timestamp g))
      as (g' & -> & S' & Sc').
    { now apply (sound_core g). }
    cbn [fst]. split; [now apply (sound_core g') | left; exact Sc'].
  - unfold fireTimer. destruct (nth_error _ _) as [t|]; [|now apply Hcore].
    cbv zeta. destruct (action t).
    + destruct Hs as (Hh & Hp & Hb & Hsc). split; [|left; cbn; lia].
      unfold sound. repeat split; auto.
      unfold healthy in *. cbn [player gameState Game_victory emit set_effects set_gameState
                                  set_timers].
      destruct (player g); [split; [tauto | discriminate] | discriminate].
    + destruct Hs as (Hh & Hp & Hb & Hsc).
      pose proof (chainKill_kinds enemy (set_timers (remove_nth n (timers g)) g)) as K.
      destruct (kinds_transfer _ _ K) as [T B].
      assert (F : (player (chainKill enemy (set_timers (remove_nth n (timers g)) g)),
                   gameState (chainKill enemy (set_timers (remove_nth n (timers g)) g)),
                   score (chainKill enemy (set_timers (remove_nth n (timers g)) g)))
                  = (player g, gameState g, score g)).
      { now rewrite (chainKill_frame (fun g => (player g, gameState g, score g)))
          by solve_frame. }
      injection F as P G Sc.
      split; [|left; lia].
      unfold sound. repeat split.
      * now apply (healthy_transfer g).
      * now apply T.
      * rewrite B. exact Hb.
      * lia.
Qed.

Lemma run_sound evs : forall g, sound g -> sound (run evs g).
Proof.
  induction evs as [|ev evs IH]; intros g H; [exact H|].
  cbn [run fold_left]. apply IH. now apply step_sound.
Qed.

(** X13. No frame of any run throws: in every state the page's game can
    reach, [update] completes, so the error boundary of [loop] is never
    entered; a frame of a running game draws and requests the next
    frame. *)
Theorem no_frame_throws :
  forall (random : nat -> Q) (evs : list Event) (deltaTime timestamp : Q),
    let g := run evs (theGame random) in
    (exists g', Game_update deltaTime g = Normal g') /\
    (if isRunning g
     then exists g',
         Game_loop timestamp g = (emit RequestAnimationFrame g', Game_draw g')
     else Game_loop timestamp g = (g, [])).
Proof.
  intros random evs dt ts g.
  pose proof (run_sound evs _ (theGame_sound random)) as Hs. fold g in Hs.
  split.
  - destruct (Game_update_sound dt g Hs) as (g' & E & _). now exists g'.
  - unfold Game_loop. destruct (isRunning g); cbn [negb]; [|reflexivity]. cbv zeta.
    destruct (Game_update_sound ((ts - lastTime g) / 1000) (set_lastTime ts g))
      as (g' & -> & _).
    + now apply (sound_core g).
    + now exists g'.
Qed.

(** X14. In every state of every run the player's hp lies between 0 and
    100, a game in the Playing state has a player, and that player's hp is
    positive: the frame in which hp reaches 0 leaves the Playing state. *)
Theorem player_alive_while_playing :
  forall (random : nat -> Q) (evs : list Event),
    let g := run evs (theGame random) in
    match player g with
    | Some p =>
        (0 <= Player.hp p /\ Player.hp p <= 100)%Z /\
        (gameState g = PLAYING -> (0 < Player.hp p)%Z)
    | None => gameState g <> PLAYING
    end.
Proof.
  intros random evs g.
  destruct (run_sound evs _ (theGame_sound random)) as (Hh & _). exact Hh.
Qed.

(** X15. The score is never negative, and no event of a run lowers it
    except a start or restart, which sets it to 0. *)
Theorem score_never_decreases :
  forall (random : nat -> Q) (evs : list Event) (ev : Event),
    let g := run evs (theGame random) in
    (0 <= score g)%Z /\
    ((score g <= score (step g ev))%Z \/ isStart ev = true /\ score (step g ev) = 0%Z).
Proof.
  intros random evs ev g.
  pose proof (run_sound evs _ (theGame_sound random)) as Hs. fold g in Hs.
  split.
  - now destruct Hs as (_ & _ & _ & H).
  - now apply step_sound.
Qed.

(** X16. At most one boss is in the enemy array in any state of any run.
    [spawnBoss] creates a boss only when the array holds none, dead or
    alive, and then appends a live one at the top centre of the arena. *)
Theorem at_most_one_boss :
  forall (random : nat -> Q) (evs : list Event) (g0 : Game.t),
    (bossCount (enemies (run evs (theGame random))) <= 1)%nat /\
    (if existsb isBoss (enemies g0)
     then enemies (Game_spawnBoss g0) = enemies g0
     else exists e,
         enemies (Game_spawnBoss g0) = enemies g0 ++ [e] /\
         Enemy.type e = boss /\ Enemy.markedForDeletion e = false /\
         Enemy.x e = width g0 / 2 - 60 /\ Enemy.y e = -100).
Proof.
  intros random evs g0. split.
  - destruct (run_sound evs _ (theGame_sound random)) as (_ & _ & Hb & _).
    now rewrite <- bossKinds_bossCount.
  - destruct (spawnBoss_enemies g0) as [[E ->]|[-> (e & E & Ht & _ & Hm & Hx & Hy)]].
    + exact E.
    + now exists e.
Qed.

(** ** The keyboard *)

Lemma handleInput_frame {X : Type} (f : Game.t -> X) code altKey g :
  frame f [FisPaused; FcheatMode; FisMuted; Feffects] ->
  f (Game_handleInput code altKey g) = f g.
Proof.
  intros H.
  pose proof (H FisPaused) as Hp. pose proof (H FcheatMode) as Hc.
  pose proof (H FisMuted) as Hm. cbn in Hp, Hc, Hm.
  unfold Game_handleInput, Game_togglePause, Game_toggleCheatMode, Game_toggleMute.
  cbv zeta.
  repeat match goal with |- context [if ?c then _ else _] => destruct c end;
    rewrite ?emit_frame, ?Hp, ?Hc, ?Hm by (tauto || sub_frame H);
    rewrite ?emit_frame, ?Hp, ?Hc, ?Hm by (tauto || sub_frame H);
    rewrite ?emit_frame, ?Hp, ?Hc, ?Hm by (tauto || sub_frame H);
    reflexivity.
Qed.

(** X17. A key press records the key as held until its release, leaves
    every other key as it was, and acts as a toggle: Escape flips the pause
    flag only while the game is running, C flips the autopilot only
    together with Alt, M flips the mute flag.  No key event touches the
    player, the collections, the score, the wave or the game state. *)
Theorem keyboard_toggles :
  forall (g : Game.t) (code : string) (altKey : bool) (c : string),
    let down := step g (KeyDown code altKey) in
    let up := step g (KeyUp code) in
    isDown c down = (String.eqb c code || isDown c g) /\
    isDown c up = (negb (String.eqb c code) && isDown c g) /\
    isPaused down = xorb (isPaused g) (String.eqb code "Escape" && isRunning g) /\
    cheatMode down = xorb (cheatMode g) (altKey && String.eqb code "KeyC") /\
    isMuted down = xorb (isMuted g) (String.eqb code "KeyM") /\
    (core down, bullets down, particles down, wave down, isRunning down)
    = (core g, bullets g, particles g, wave g, isRunning g) /\
    (core up, bullets up, particles up, wave up, controls up)
    = (core g, bullets g, particles g, wave g, controls g).
Proof.
  intros g code alt c down up. subst down up. cbn [step].
  split; [|split; [|split; [|split; [|split; [|split]]]]].
  - unfold isDown. rewrite (handleInput_frame (fun g => keys g c)) by solve_frame.
    cbn. now destruct (String.eqb c code).
  - unfold isDown. cbn. now destruct (String.eqb c code).
  - unfold Game_handleInput. cbv zeta. cbn [isRunning set_keys].
    destruct (String.eqb code "Escape" && isRunning g);
      destruct (alt && String.eqb code "KeyC");
      destruct (String.eqb code "KeyM"); cbn;
      destruct (isPaused g); reflexivity.
  - unfold Game_handleInput. cbv zeta. cbn [isRunning set_keys].
    destruct (String.eqb code "Escape" && isRunning g);
      destruct (alt && String.eqb code "KeyC");
      destruct (String.eqb code "KeyM"); cbn;
      destruct (cheatMode g); reflexivity.
  - unfold Game_handleInput. cbv zeta. cbn [isRunning set_keys].
    destruct (String.eqb code "Escape" && isRunning g);
      destruct (alt && String.eqb code "KeyC");
      destruct (String.eqb code "KeyM"); cbn;
      destruct (isMuted g); reflexivity.
  - now rewrite (handleInput_frame
                   (fun g => (core g, bullets g, particles g, wave g, isRunning g)))
      by solve_frame.
  - reflexivity.
Qed.

(** ** Frames, pause and the clock *)

Lemma Game_update_controls dt g :
  (controls (state_of (Game_update dt g)), lastTime (state_of (Game_update dt g)),
   keys (state_of (Game_update dt g)))
  = (controls g, lastTime g, keys g).
Proof.
  set (f := fun g => (controls g, lastTime g, keys g)).
  change (f (state_of (Game_update dt g)) = f g).
  unfold Game_update. destruct (_ || _); [reflexivity|]. cbv zeta.
  set (g1 := update_particles dt (update_background dt g)).
  assert (H1 : f g1 = f g).
  { subst g1. rewrite (update_particles_frame f) by solve_frame.
    now rewrite (update_background_frame f) by solve_frame. }
  destruct (gameState g1); try exact H1.
  destruct (player g1) as [p|]; [|exact H1].
  set (g2 := update_enemies dt (update_bullets dt (Player_update dt p g1))).
  assert (H2 : f g2 = f g).
  { subst g2. rewrite (update_enemies_frame f) by solve_frame.
    rewrite (update_bullets_frame f) by solve_frame.
    now rewrite (Player_update_frame f) by solve_frame. }
  pose proof (checkCollisions_frame f g2 ltac:(solve_frame)) as H3.
  destruct (Game_checkCollisions g2) as [g3|g3]; cbn [bind state_of] in *.
  - rewrite <- H2, <- H3. unfold update_wave.
    destruct (_ >? _)%Z; [|reflexivity]. cbv zeta.
    destruct (_ =? 0)%Z; [|reflexivity].
    now rewrite (spawnBoss_frame f) by solve_frame.
  - congruence.
Qed.

(** X18. A frame of a running game sets the clock to its timestamp whether
    the game is paused or not, and never changes the running, pause,
    autopilot and mute flags or the key state.  While the game is paused a
    frame does nothing else: it draws the frozen state and requests the
    next frame, so the time spent paused is not replayed after the
    resume. *)
Theorem frames_keep_the_clock :
  forall (timestamp : Q) (g : Game.t),
    isRunning g = true ->
    lastTime (fst (Game_loop timestamp g)) = timestamp /\
    (isPaused (fst (Game_loop timestamp g)), cheatMode (fst (Game_loop timestamp g)),
     isMuted (fst (Game_loop timestamp g)), keys (fst (Game_loop timestamp g)))
    = (isPaused g, cheatMode g, isMuted g, keys g) /\
    (isPaused g = true ->
     Game_loop timestamp g
     = (emit RequestAnimationFrame (set_lastTime timestamp g),
        Game_draw (set_lastTime timestamp g))).
Proof.
  intros ts g Hr. unfold Game_loop. rewrite Hr. cbn [negb]. cbv zeta.
  pose proof (Game_update_controls ((ts - lastTime g) / 1000) (set_lastTime ts g)) as H.
  unfold controls in H. cbn [isRunning isPaused cheatMode isMuted detached lastTime keys
                               set_lastTime] in H.
  injection H as H1 H2 H3 H4 H5 H6 H7.
  split; [|split].
  - destruct (Game_update _ _) as [g1|g1]; cbn [fst state_of] in *; cbn; exact H6.
  - destruct (Game_update _ _) as [g1|g1]; cbn [fst state_of] in *; cbn;
      now rewrite H2, H3, H4, H7.
  - intros Hp. unfold Game_update. cbn [isRunning isPaused set_lastTime].
    rewrite Hr, Hp. reflexivity.
Qed.

Lemma frames_keep_the_clock_witness :
  lastTime (fst (Game_loop 5000 pausedStarted)) = 5000 /\
  (isPaused (fst (Game_loop 5000 pausedStarted)), cheatMode (fst (Game_loop 5000 pausedStarted)),
   isMuted (fst (Game_loop 5000 pausedStarted)), keys (fst (Game_loop 5000 pausedStarted)))
  = (isPaused pausedStarted, cheatMode pausedStarted, isMuted pausedStarted,
     keys pausedStarted) /\
  (isPaused pausedStarted = true ->
   Game_loop 5000 pausedStarted
   = (emit RequestAnimationFrame (set_lastTime 5000 pausedStarted),
      Game_draw (set_lastTime 5000 pausedStarted))).
Proof.
  apply (frames_keep_the_clock 5000 pausedStarted). reflexivity.
Defined.

(** ** Ramming *)

Lemma enemyMeetsPlayer_damage j g p e :
  player g = Some p ->
  cheatMode g = false ->
  nth_error (enemies g) j = Some e ->
  playerHp (state_of (enemyMeetsPlayer j g))
  = Some (if checkCollision e p then Z.max 0 (Player.hp p - 20) else Player.hp p) /\
  gameState (state_of (enemyMeetsPlayer j g))
  = (if checkCollision e p && (Player.hp p - 20 <=? 0)%Z then GAME_OVER else gameState g) /\
  score (state_of (enemyMeetsPlayer j g)) = score g.
Proof.
  intros Hp Hc He. unfold enemyMeetsPlayer, playerHp. rewrite He, Hp.
  destruct (checkCollision e p); cbn [state_of andb]; [|rewrite Hp; now repeat split].
  rewrite (createExplosion_frame player) by solve_frame.
  rewrite (createExplosion_frame gameState) by solve_frame.
  rewrite (createExplosion_frame score) by solve_frame.
  rewrite (Player_takeDamage_frame score) by solve_frame.
  rewrite Player_takeDamage_player by exact Hc.
  split; [reflexivity|]. split; [|reflexivity].
  unfold Player_takeDamage. cbn [cheatMode set_enemies]. rewrite Hc. cbv zeta.
  cbn [Player.hp Player_set_hp].
  destruct (Player.hp p - 20 <=? 0)%Z.
  - rewrite (emit_frame gameState) by solve_frame. reflexivity.
  - rewrite (emit_frame gameState) by solve_frame. reflexivity.
Qed.

Lemma enemiesHitPlayer_damage_from p (H0 : Z) (G0 : GameState) :
  forall todo done g pc,
    player g = Some pc ->
    Player_sameBox pc p ->
    cheatMode g = false ->
    enemies g = map (Enemy_rammed p) done ++ todo ->
    Player.hp pc = Z.max 0 (H0 - 20 * Z.of_nat (rams p done)) ->
    gameState g
    = (if (0 <? rams p done)%nat && (H0 - 20 * Z.of_nat (rams p done) <=? 0)%Z
       then GAME_OVER else G0) ->
    let g' := state_of (forEachIndex enemyMeetsPlayer (seq (length done) (length todo)) g) in
    playerHp g' = Some (Z.max 0 (H0 - 20 * Z.of_nat (rams p (done ++ todo)))) /\
    gameState g'
    = (if (0 <? rams p (done ++ todo))%nat
          && (H0 - 20 * Z.of_nat (rams p (done ++ todo)) <=? 0)%Z
       then GAME_OVER else G0) /\
    score g' = score g.
Proof.
  induction todo as [|e todo IH]; intros done g pc Hp Hbox Hc He Hhp Hgs.
  - cbn. rewrite app_nil_r. unfold playerHp. rewrite Hp. cbn. now rewrite Hhp.
  - cbn [length seq forEachIndex].
    assert (Hej : nth_error (enemies g) (length done) = Some e).
    { rewrite He. rewrite <- (length_map (Enemy_rammed p) done). apply nth_error_middle. }
    destruct (enemyMeetsPlayer_spec _ _ _ _ Hp Hej)
      as (g1 & p1 & Hstep & He1 & _ & _ & _ & Hch1 & Hp1 & Hbox1 & _).
    destruct (enemyMeetsPlayer_damage _ _ _ _ Hp Hc Hej) as (Dhp & Dgs & Dsc).
    rewrite Hstep in Dhp, Dgs, Dsc |- *. cbn [bind state_of] in *.
    assert (Hcc : checkCollision e pc = checkCollision e p)
      by now apply checkCollision_sameBox.
    rewrite Hcc in Dhp, Dgs.
    assert (Hr : Enemy_rammed pc e = Enemy_rammed p e)
      by (unfold Enemy_rammed; now rewrite Hcc).
    rewrite Hr in He1.
    assert (Hrams : rams p (done ++ [e])
                    = (rams p done + if checkCollision e p then 1 else 0)%nat).
    { unfold rams. rewrite filter_app, length_app. cbn.
      now destruct (checkCollision e p). }
    unfold playerHp in Dhp. rewrite Hp1 in Dhp. cbn in Dhp. injection Dhp as Dhp.
    specialize (IH (done ++ [e]) g1 p1 Hp1 (Player_sameBox_trans _ _ _ Hbox1 Hbox)).
    rewrite length_app, Nat.add_1_r, <- app_assoc in IH. cbn [app] in IH.
    rewrite <- Dsc. apply IH.
    + now rewrite Hch1.
    + rewrite He1, He.
      rewrite <- (length_map (Enemy_rammed p) done) at 1.
      rewrite list_set_middle, map_app, <- app_assoc. reflexivity.
    + rewrite Dhp, Hrams, Hhp. destruct (checkCollision e p); lia.
    + rewrite Dgs, Hrams, Hhp, Hgs.
      destruct (checkCollision e p); cbn [andb].
      * destruct (Z.max 0 (H0 - 20 * Z.of_nat (rams p done)) - 20 <=? 0)%Z eqn:E1;
          destruct (0 <? rams p done + 1)%nat eqn:E2;
          destruct (H0 - 20 * Z.of_nat (rams p done + 1) <=? 0)%Z eqn:E3;
          destruct (0 <? rams p done)%nat eqn:E4;
          destruct (H0 - 20 * Z.of_nat (rams p done) <=? 0)%Z eqn:E5;
          cbn [andb]; try reflexivity; exfalso;
          rewrite ?Z.leb_le, ?Z.leb_gt, ?Nat.ltb_lt, ?Nat.ltb_ge in *; lia.
      * now rewrite Nat.add_0_r.
Qed.

(** X19. Outside autonomous mode the loop of the enemies against the
    player takes 20 hp for each enemy that collides with the player,
    stopping at 0: a player with [hp >= 0] ends the pass with
    [max 0 (hp - 20 * rams)].  The pass moves the game to GAME_OVER exactly
    when at least one enemy collided and that value is 0, and it never
    changes the score: ramming pays nothing. *)
Theorem ramming_costs_twenty_each :
  forall (g : Game.t) (p : Player.t),
    player g = Some p ->
    cheatMode g = false ->
    (0 <= Player.hp p)%Z ->
    let g' := state_of (enemiesHitPlayer g) in
    playerHp g' = Some (Z.max 0 (Player.hp p - 20 * Z.of_nat (rams p (enemies g)))) /\
    gameState g'
    = (if (0 <? rams p (enemies g))%nat
          && (Player.hp p - 20 * Z.of_nat (rams p (enemies g)) <=? 0)%Z
       then GAME_OVER else gameState g) /\
    score g' = score g.
Proof.
  intros g p Hp Hc Hhp.
  apply (enemiesHitPlayer_damage_from p (Player.hp p) (gameState g) (enemies g) [] g p).
  - exact Hp.
  - repeat split.
  - exact Hc.
  - reflexivity.
  - cbn. lia.
  - reflexivity.
Qed.

Lemma ramming_costs_twenty_each_witness :
  let g' := state_of (enemiesHitPlayer weakPlayerTwoScouts) in
  playerHp g'
  = Some (Z.max 0 (20 - 20 * Z.of_nat (rams (Player_set_hp 20 startedPlayer)
                                        (enemies weakPlayerTwoScouts)))) /\
  gameState g'
  = (if (0 <? rams (Player_set_hp 20 startedPlayer) (enemies weakPlayerTwoScouts))%nat
        && (20 - 20 * Z.of_nat (rams (Player_set_hp 20 startedPlayer)
                                  (enemies weakPlayerTwoScouts)) <=? 0)%Z
     then GAME_OVER else gameState weakPlayerTwoScouts) /\
  score g' = score weakPlayerTwoScouts.
Proof.
  apply (ramming_costs_twenty_each weakPlayerTwoScouts (Player_set_hp 20 startedPlayer)).
  - reflexivity.
  - reflexivity.
  - cbn. lia.
Defined.

(** ** AssetManager *)

Lemma handleLoad_step a :
  AssetManager.images (AssetManager_handleLoad a) = AssetManager.images a /\
  AssetManager.totalAssets (AssetManager_handleLoad a) = AssetManager.totalAssets a /\
  AssetManager.onComplete (AssetManager_handleLoad a) = AssetManager.onComplete a /\
  AssetManager.loadedAssets (AssetManager_handleLoad a) = S (AssetManager.loadedAssets a) /\
  AssetManager.completions (AssetManager_handleLoad a)
  = (AssetManager.completions a
     + if Nat.eqb (S (AssetManager.loadedAssets a)) (AssetManager.totalAssets a)
          && AssetManager.onComplete a
       then 1 else 0)%nat.
Proof.
  unfold AssetManager_handleLoad. cbv zeta.
  destruct (_ && _); cbn; repeat split; lia.
Qed.

Lemma handleLoad_iter n :
  forall a,
    let a' := Nat.iter n AssetManager_handleLoad a in
    AssetManager.images a' = AssetManager.images a /\
    AssetManager.totalAssets a' = AssetManager.totalAssets a /\
    AssetManager.onComplete a' = AssetManager.onComplete a /\
    AssetManager.loadedAssets a' = (AssetManager.loadedAssets a + n)%nat /\
    AssetManager.completions a'
    = (AssetManager.completions a
       + if AssetManager.onComplete a
            && (AssetManager.loadedAssets a <? AssetManager.totalAssets a)%nat
            && (AssetManager.totalAssets a <=? AssetManager.loadedAssets a + n)%nat
         then 1 else 0)%nat.
Proof.
  induction n as [|n IH]; intros a.
  - cbn zeta. change (Nat.iter 0 AssetManager_handleLoad a) with a.
    rewrite !Nat.add_0_r. do 4 (split; [reflexivity|]).
    destruct (AssetManager.onComplete a); cbn [andb]; [|lia].
    destruct (AssetManager.loadedAssets a <? AssetManager.totalAssets a)%nat eqn:E1;
      destruct (AssetManager.totalAssets a <=? AssetManager.loadedAssets a)%nat eqn:E2;
      cbn [andb]; try lia.
    apply Nat.ltb_lt in E1. apply Nat.leb_le in E2. lia.
  - cbn zeta. rewrite Nat.iter_succ.
    destruct (IH a) as (I1 & I2 & I3 & I4 & I5).
    destruct (handleLoad_step (Nat.iter n AssetManager_handleLoad a))
      as (S1 & S2 & S3 & S4 & S5).
    rewrite S1, S2, S3, S4, S5, I1, I2, I3, I4, I5.
    do 3 (split; [reflexivity|]). split; [lia|].
    destruct (AssetManager.onComplete a); cbn [andb];
      destruct (Nat.eqb (S (AssetManager.loadedAssets a + n)) (AssetManager.totalAssets a))
        eqn:E0;
      destruct (AssetManager.loadedAssets a <? AssetManager.totalAssets a)%nat eqn:E1;
      destruct (AssetManager.totalAssets a <=? AssetManager.loadedAssets a + n)%nat eqn:E2;
      destruct (AssetManager.totalAssets a <=? AssetManager.loadedAssets a + S n)%nat eqn:E3;
      cbn [andb]; try lia; exfalso;
      rewrite ?Nat.eqb_eq, ?Nat.eqb_neq, ?Nat.ltb_lt, ?Nat.ltb_ge, ?Nat.leb_le, ?Nat.leb_gt
        in *; lia.
Qed.

Lemma loadImages_spec srcs :
  forall a,
    AssetManager.totalAssets (loadImages srcs a)
    = (AssetManager.totalAssets a + length srcs)%nat /\
    AssetManager.loadedAssets (loadImages srcs a) = AssetManager.loadedAssets a /\
    AssetManager.onComplete (loadImages srcs a) = AssetManager.onComplete a /\
    AssetManager.completions (loadImages srcs a) = AssetManager.completions a.
Proof.
  induction srcs as [|kv srcs IH]; intros a; cbn [loadImages fold_left length].
  - repeat split. lia.
  - destruct (IH (AssetManager_loadImage (fst kv) (snd kv) a)) as (I1 & I2 & I3 & I4).
    unfold loadImages in *. rewrite I1, I2, I3, I4. cbn. repeat split. lia.
Qed.

(** X20. The completion callback runs exactly once, at the load event that
    brings the count of loaded images up to the count of requested ones,
    provided it was registered before that event: after [k] requests and
    the registration, [n] load events have run it once if [1 <= k <= n]
    and not at all otherwise.  It never runs when no image was requested,
    when an image fails to load, or when it is registered only after the
    last load event. *)
Theorem assets_complete_once :
  forall (srcs : list (string * string)) (n : nat),
    AssetManager.completions
      (Nat.iter n AssetManager_handleLoad
         (AssetManager_onLoad (loadImages srcs AssetManager_new)))
    = (if (0 <? length srcs)%nat && (length srcs <=? n)%nat then 1 else 0)%nat /\
    AssetManager.completions
      (AssetManager_onLoad
         (Nat.iter n AssetManager_handleLoad (loadImages srcs AssetManager_new)))
    = 0%nat /\
    AssetManager.completions
      (Nat.iter n AssetManager_handleLoad (Game_loadAssets AssetManager_new))
    = (if (5 <=? n)%nat then 1 else 0)%nat.
Proof.
  intros srcs n.
  destruct (loadImages_spec srcs AssetManager_new) as (L1 & L2 & L3 & L4).
  cbn in L1, L2, L3, L4. split; [|split].
  - destruct (handleLoad_iter n (AssetManager_onLoad (loadImages srcs AssetManager_new)))
      as (_ & _ & _ & _ & ->).
    cbn [AssetManager_onLoad AssetManager.completions AssetManager.onComplete
           AssetManager.loadedAssets AssetManager.totalAssets andb].
    rewrite L1, L2, L4. reflexivity.
  - cbn [AssetManager_onLoad AssetManager.completions].
    destruct (handleLoad_iter n (loadImages srcs AssetManager_new)) as (_ & _ & _ & _ & ->).
    rewrite L3, L4. reflexivity.
  - destruct (handleLoad_iter n (Game_loadAssets AssetManager_new)) as (_ & _ & _ & _ & ->).
    reflexivity.
Qed.

Lemma assigned_handleLoad key n a :
  assigned key (Nat.iter n AssetManager_handleLoad a) = assigned key a.
Proof.
  unfold assigned. destruct (handleLoad_iter n a) as (-> & _). reflexivity.
Qed.

Lemma getImage_handleLoad key n a :
  AssetManager_getImage key (Nat.iter n AssetManager_handleLoad a)
  = AssetManager_getImage key a.
Proof. unfold AssetManager_getImage. now rewrite !assigned_handleLoad. Qed.

Lemma assigned_loadImage key key' src a :
  assigned key (AssetManager_loadImage key' src a)
  = (if String.eqb key' key then Some src else assigned key a).
Proof. unfold assigned. cbn. now destruct (String.eqb key' key). Qed.

(** X21. On a manager whose [images] object still has [Object.prototype]
    as its prototype, [getImage] returns the image of the latest
    [loadImage] for its key from the moment of the request on, whether or
    not the image has loaded; load events change no entry, and loading
    under one key leaves the images under the other keys as they are
    (loading under "__proto__" replaces the prototype, so that the keys
    without an image then read from the image element).  A key never
    loaded gives what the prototype has under that name: on a fresh
    manager that is undefined, except for the twelve names of
    [Object.prototype] ("constructor", "toString", ...).  After
    [loadAssets] the five sprites are there, the key "null", under which a
    bullet looks up its image, is undefined, and "constructor" is not. *)
Theorem getImage_after_loadImage :
  forall (a : AssetManager.t) (key key' src : string) (n : nat),
    assigned "__proto__" a = None ->
    AssetManager_getImage key
      (Nat.iter n AssetManager_handleLoad (AssetManager_loadImage key' src a))
    = (if String.eqb key' key then Image src
       else match assigned key a with
            | Some src' => Image src'
            | None =>
                if String.eqb key' "__proto__" then Inherited (ImageElement src) key
                else AssetManager_getImage key a
            end) /\
    AssetManager_getImage key AssetManager_new
    = (if existsb (String.eqb key) objectPrototypeKeys
       then Inherited ObjectPrototype key else Undefined) /\
    map (fun k => AssetManager_getImage k
                    (Nat.iter n AssetManager_handleLoad (Game_loadAssets AssetManager_new)))
      ["player"; "scout"; "fighter"; "boss"; "bg"; "null"; "constructor"]%string
    = [Image "assets/player_ship.png"; Image "assets/enemy_scout.png";
       Image "assets/enemy_fighter.png"; Image "assets/boss_ship.png";
       Image "assets/background_stars.png"; Undefined;
       Inherited ObjectPrototype "constructor"]%string.
Proof.
  intros a key key' src n Hproto. split; [|split].
  - rewrite getImage_handleLoad. unfold AssetManager_getImage.
    rewrite !assigned_loadImage.
    destruct (String.eqb key' key); [reflexivity|].
    destruct (assigned key a); [reflexivity|].
    destruct (String.eqb key' "__proto__"); reflexivity.
  - reflexivity.
  - cbn [map]. rewrite !getImage_handleLoad. reflexivity.
Qed.

Lemma getImage_after_loadImage_witness :
  AssetManager_getImage "player"
    (Nat.iter 3 AssetManager_handleLoad
       (AssetManager_loadImage "player" "assets/player_v2.png"
          (Game_loadAssets AssetManager_new)))
  = Image "assets/player_v2.png" /\
  AssetManager_getImage "scout"
    (Nat.iter 3 AssetManager_handleLoad
       (AssetManager_loadImage "player" "assets/player_v2.png"
          (Game_loadAssets AssetManager_new)))
  = Image "assets/enemy_scout.png".
Proof.
  split.
  - apply (getImage_after_loadImage (Game_loadAssets AssetManager_new)
             "player" "player" "assets/player_v2.png" 3).
    reflexivity.
  - apply (getImage_after_loadImage (Game_loadAssets AssetManager_new)
             "scout" "player" "assets/player_v2.png" 3).
    reflexivity.
Defined.

(** ** UIManager.updateScore *)

Lemma length_zeros_append k s :
  String.length (String.append (zeros k) s) = (k + String.length s)%nat.
Proof. induction k as [|k IH]; cbn; [reflexivity | now rewrite IH]. Qed.

Lemma parse_zeros k u :
  DecimalString.NilEmpty.uint_of_string
    (String.append (zeros k) (DecimalString.NilEmpty.string_of_uint u))
  = Some (Nat.iter k Decimal.D0 u).
Proof.
  induction k as [|k IH].
  - cbn. apply DecimalString.NilEmpty.usu.
  - rewrite Nat.iter_succ. cbn [zeros String.append DecimalString.NilEmpty.uint_of_string].
    rewrite IH. reflexivity.
Qed.

Lemma of_uint_zeros k u : Z.of_uint (Nat.iter k Decimal.D0 u) = Z.of_uint u.
Proof.
  induction k as [|k IH]; [reflexivity|]. rewrite Nat.iter_succ. exact IH.
Qed.

Lemma readNumber_zeros k u :
  u <> Decimal.Nil ->
  readNumber (String.append (zeros k) (DecimalString.NilEmpty.string_of_uint u))
  = Some (Z.of_uint u).
Proof.
  intros Hu. unfold readNumber, DecimalString.NilZero.int_of_string.
  pose proof (parse_zeros k u) as Hp.
  destruct (String.append (zeros k) (DecimalString.NilEmpty.string_of_uint u))
    as [|c rest] eqn:E.
  - destruct k; [destruct u; [contradiction|discriminate..] | discriminate].
  - assert (Hc : Ascii.eqb c "-" = false).
    { destruct k.
      - destruct u; [contradiction|..]; injection E as <- _; reflexivity.
      - injection E as <- _. reflexivity. }
    rewrite Hc. unfold DecimalString.NilZero.uint_of_string. rewrite Hp. cbn.
    now rewrite of_uint_zeros.
Qed.

Lemma Number_toString_nonneg z :
  (0 <= z)%Z ->
  exists u, u <> Decimal.Nil /\
            Number_toString z = DecimalString.NilEmpty.string_of_uint u /\
            Z.of_uint u = z.
Proof.
  intros Hz. unfold Number_toString. pose proof (DecimalZ.of_to z) as Hof.
  destruct z as [|p|p]; [| |lia].
  - exists (Decimal.D0 Decimal.Nil). repeat split. discriminate.
  - exists (Pos.to_uint p). cbn in *. split; [apply DecimalPos.Unsigned.to_uint_nonnil|].
    split; [|exact Hof].
    pose proof (DecimalPos.Unsigned.to_uint_nonnil p) as Hn.
    now destruct (Pos.to_uint p).
Qed.

(** X22. The score display of a non-negative score has at least six
    characters: the decimal digits of the score, preceded by as many zeros
    as it takes to reach six and by none if the score has six digits or
    more, so that no digit is ever cut off; read back as a number the text
    gives the score. *)
Theorem scoreText_reads_back :
  forall score : Z,
    (0 <= score)%Z ->
    UIManager_scoreText score
    = String.append (zeros (6 - String.length (Number_toString score)))
        (Number_toString score) /\
    String.length (UIManager_scoreText score)
    = Nat.max 6 (String.length (Number_toString score)) /\
    readNumber (UIManager_scoreText score) = Some score.
Proof.
  intros score Hs. unfold UIManager_scoreText, padStart0.
  split; [reflexivity|]. split.
  - rewrite length_zeros_append. lia.
  - destruct (Number_toString_nonneg score Hs) as (u & Hu & -> & <-).
    now apply readNumber_zeros.
Qed.

Lemma scoreText_reads_back_witness :
  UIManager_scoreText 540
  = String.append (zeros (6 - String.length (Number_toString 540))) (Number_toString 540) /\
  String.length (UIManager_scoreText 540)
  = Nat.max 6 (String.length (Number_toString 540)) /\
  readNumber (UIManager_scoreText 540) = Some 540%Z.
Proof.
  apply (scoreText_reads_back 540). lia.
Defined.

(** The display of the score the specification computes for one scout,
    one fighter and one boss, and of a seven-digit score. *)
Example scoreText_540 :
  UIManager_scoreText 540 = "000540"%string /\
  UIManager_scoreText 0 = "000000"%string /\
  UIManager_scoreText 1234567 = "1234567"%string.
Proof. vm_compute. repeat split. Qed.

(** ** Hits on one enemy *)

Lemma kind_damaged_iter n e :
  Enemy.scoreValue (Nat.iter n (Enemy_damaged 1) e) = Enemy.scoreValue e /\
  Enemy.type (Nat.iter n (Enemy_damaged 1) e) = Enemy.type e.
Proof.
  induction n as [|n [IH1 IH2]]; [now split|]. rewrite Nat.iter_succ.
  unfold Enemy_damaged at 1 3. cbv zeta. destruct (_ <=? 0)%Z; cbn; now split.
Qed.

Lemma marked_damaged_iter n e :
  Enemy.markedForDeletion e = false -> (0 < Enemy.hp e)%Z ->
  Enemy.markedForDeletion (Nat.iter n (Enemy_damaged 1) e) = (Enemy.hp e <=? Z.of_nat n)%Z.
Proof.
  intros Hm Hhp. induction n as [|n IH].
  - cbn. rewrite Hm. symmetry. apply Z.leb_gt. lia.
  - rewrite Nat.iter_succ. unfold Enemy_damaged at 1. cbv zeta.
    cbn [Enemy.hp Enemy_set_hp]. rewrite hp_damaged_iter.
    destruct (Enemy.hp e - Z.of_nat n - 1 <=? 0)%Z eqn:E.
    + cbn [Enemy.markedForDeletion Enemy_set_markedForDeletion].
      symmetry. apply Z.leb_le. apply Z.leb_le in E. lia.
    + cbn [Enemy.markedForDeletion Enemy_set_hp]. rewrite IH. apply Z.leb_gt in E.
      destruct (Enemy.hp e <=? Z.of_nat n)%Z eqn:E1;
        destruct (Enemy.hp e <=? Z.of_nat (S n))%Z eqn:E2;
        rewrite ?Z.leb_le, ?Z.leb_gt in *; try reflexivity; lia.
Qed.

Lemma takeDamage_iter j e n :
  forall g,
    nth_error (enemies g) j = Some e ->
    (0 < Enemy.hp e)%Z ->
    enemies (Nat.iter n (Enemy_takeDamage j 1) g)
    = list_set j (Nat.iter n (Enemy_damaged 1) e) (enemies g) /\
    score (Nat.iter n (Enemy_takeDamage j 1) g)
    = (score g + Enemy.scoreValue e * Z.max 0 (Z.of_nat n - Enemy.hp e + 1))%Z.
Proof.
  intros g He Hhp. induction n as [|n [IH1 IH2]].
  - cbn [Nat.iter nat_rect]. split.
    + symmetry. now apply list_set_same.
    + change (Nat.iter 0 (Enemy_takeDamage j 1) g) with g. lia.
  - rewrite !Nat.iter_succ.
    assert (Hn : nth_error (enemies (Nat.iter n (Enemy_takeDamage j 1) g)) j
                 = Some (Nat.iter n (Enemy_damaged 1) e)).
    { rewrite IH1. eapply nth_error_list_set_eq. exact He. }
    split.
    + rewrite (Enemy_takeDamage_enemies _ _ _ _ Hn), IH1. apply list_set_twice.
    + rewrite (Enemy_takeDamage_score _ _ _ _ Hn), IH2, hp_damaged_iter.
      destruct (kind_damaged_iter n e) as [-> _].
      destruct (Enemy.hp e - Z.of_nat n - 1 <=? 0)%Z eqn:E;
        rewrite ?Z.leb_le, ?Z.leb_gt in E.
      * replace (Z.max 0 (Z.of_nat (S n) - Enemy.hp e + 1))
          with (Z.max 0 (Z.of_nat n - Enemy.hp e + 1) + 1)%Z by lia. ring.
      * replace (Z.max 0 (Z.of_nat (S n) - Enemy.hp e + 1)) with 0%Z by lia.
        replace (Z.max 0 (Z.of_nat n - Enemy.hp e + 1)) with 0%Z by lia. ring.
Qed.

(** X23. An enemy with positive hp dies at exactly its hp-th unit hit:
    after [n] calls of [takeDamage(1)] it is marked dead if and only if
    [n >= hp].  Its score value is awarded at that hit and once more at
    every hit after it, so [n] hits add [scoreValue * max 0 (n - hp + 1)]
    to the score. *)
Theorem hits_needed_and_score_paid :
  forall (g : Game.t) (j : nat) (e : Enemy.t) (n : nat),
    nth_error (enemies g) j = Some e ->
    Enemy.markedForDeletion e = false ->
    (0 < Enemy.hp e)%Z ->
    let g' := Nat.iter n (Enemy_takeDamage j 1) g in
    (exists e',
        nth_error (enemies g') j = Some e' /\
        Enemy.hp e' = (Enemy.hp e - Z.of_nat n)%Z /\
        Enemy.markedForDeletion e' = (Enemy.hp e <=? Z.of_nat n)%Z) /\
    score g' = (score g + Enemy.scoreValue e * Z.max 0 (Z.of_nat n - Enemy.hp e + 1))%Z.
Proof.
  intros g j e n He Hm Hhp g'. subst g'.
  destruct (takeDamage_iter j e n g He Hhp) as [E1 E2]. split; [|exact E2].
  exists (Nat.iter n (Enemy_damaged 1) e). split; [|split].
  - rewrite E1. eapply nth_error_list_set_eq. exact He.
  - apply hp_damaged_iter.
  - now apply marked_damaged_iter.
Qed.

Lemma hits_needed_and_score_paid_witness :
  let g' := Nat.iter 4 (Enemy_takeDamage 0 1) oneFighter in
  (exists e',
      nth_error (enemies g') 0 = Some e' /\
      Enemy.hp e' = (3 - Z.of_nat 4)%Z /\
      Enemy.markedForDeletion e' = (3 <=? Z.of_nat 4)%Z) /\
  score g' = (score oneFighter + 30 * Z.max 0 (Z.of_nat 4 - 3 + 1))%Z.
Proof.
  apply (hits_needed_and_score_paid oneFighter 0
           (Enemy.mk 0 100 100 50 50 false fighter 3 30 0 80 0) 4).
  - reflexivity.
  - reflexivity.
  - reflexivity.
Defined.

(** ** The wave counter over several checks *)

Lemma update_wave_step g :
  score (update_wave g) = score g /\
  wave (update_wave g) = (if (wave g <? waveTarget (score g))%Z then wave g + 1 else wave g)%Z.
Proof.
  assert (Hiff : (score g >? wave g * 500)%Z = (wave g <? waveTarget (score g))%Z).
  { unfold waveTarget.
    pose proof (Z.div_mod (score g + 499) 500 ltac:(lia)) as Hd.
    pose proof (Z.mod_pos_bound (score g + 499) 500 ltac:(lia)) as Hb.
    destruct (score g >? wave g * 500)%Z eqn:E1;
      destruct (wave g <? (score g + 499) / 500)%Z eqn:E2; try reflexivity;
      rewrite ?Z.gtb_lt, ?Z.ltb_lt, ?Z.ltb_ge in *.
    - lia.
    - assert (~ (wave g * 500 < score g)%Z) by (intros H; apply Z.gtb_lt in H; congruence).
      lia. }
  rewrite <- Hiff. unfold update_wave.
  destruct (score g >? wave g * 500)%Z; [|now split]. cbv zeta.
  destruct (_ =? 0)%Z.
  - rewrite (spawnBoss_frame score) by solve_frame.
    rewrite (spawnBoss_frame wave) by solve_frame. now split.
  - now split.
Qed.

(** X24. With the score held fixed, [n] wave checks raise the wave by one
    each until it reaches the score divided by 500, rounded up, and leave
    it there: the wave after [n] checks is
    [max wave (min (wave + n) (ceil (score / 500)))]. *)
Theorem wave_catches_up_to_target :
  forall (n : nat) (g : Game.t),
    score (Nat.iter n update_wave g) = score g /\
    wave (Nat.iter n update_wave g)
    = Z.max (wave g) (Z.min (wave g + Z.of_nat n) (waveTarget (score g))).
Proof.
  induction n as [|n IH]; intros g.
  - change (Nat.iter 0 update_wave g) with g. split; [reflexivity|lia].
  - destruct (IH g) as [IH1 IH2]. rewrite !Nat.iter_succ.
    destruct (update_wave_step (Nat.iter n update_wave g)) as [S1 W1].
    rewrite S1, W1, IH1, IH2. split; [reflexivity|].
    rewrite Nat2Z.inj_succ. generalize (waveTarget (score g)) as target. intros target.
    destruct (Z.max (wave g) (Z.min (wave g + Z.of_nat n) target) <? target)%Z eqn:E;
      [apply Z.ltb_lt in E | apply Z.ltb_ge in E]; lia.
Qed.
(** ** Binary64 rounding *)

Lemma pow2_pos e : 0 < Double.pow2 e.
Proof. unfold Double.pow2. apply Qpower_0_lt. reflexivity. Qed.

Lemma pow2_plus a b : Double.pow2 (a + b) == Double.pow2 a * Double.pow2 b.
Proof. unfold Double.pow2. apply Qpower_plus. discriminate. Qed.

Lemma pow2_Z n : (0 <= n)%Z -> inject_Z (2 ^ n) == Double.pow2 n.
Proof. intros H. unfold Double.pow2. now rewrite Zpower_Qpower. Qed.

Lemma pow2_le a b : (a <= b)%Z -> Double.pow2 a <= Double.pow2 b.
Proof. intros H. unfold Double.pow2. apply Qpower_le_compat_l; [exact H|]. discriminate. Qed.

Lemma pow2_lt_inv a b : Double.pow2 a < Double.pow2 b -> (a < b)%Z.
Proof.
  intros H. destruct (Z_lt_le_dec a b) as [L|L]; [exact L|].
  apply pow2_le in L. lra.
Qed.

Lemma pow2_succ a : Double.pow2 (a + 1) == 2 * Double.pow2 a.
Proof. rewrite pow2_plus. change (Double.pow2 1) with 2. ring. Qed.

Lemma ilog2_spec q :
  0 < q -> Double.pow2 (Double.ilog2 q) <= q /\ q < Double.pow2 (Double.ilog2 q + 1).
Proof.
  intros Hq. destruct q as [n d]. unfold Double.ilog2. cbn [Qnum Qden].
  assert (Hn : (0 < n)%Z) by (unfold Qlt in Hq; cbn in Hq; lia).
  set (a := Z.log2 n). set (b := Z.log2 (Zpos d)).
  destruct (Z.log2_spec n Hn) as [A1 A2]. fold a in A1, A2.
  destruct (Z.log2_spec (Zpos d) (eq_refl : (0 < Zpos d)%Z)) as [B1 B2]. fold b in B1, B2.
  assert (Ha : (0 <= a)%Z) by apply Z.log2_nonneg.
  assert (Hb : (0 <= b)%Z) by apply Z.log2_nonneg.
  assert (Q1 : (n # d) * inject_Z (Zpos d) == inject_Z n).
  { unfold Qeq, Qmult, inject_Z. cbn. lia. }
  assert (D0 : 0 < inject_Z (Zpos d)) by (unfold Qlt; cbn; lia).
  assert (QA1 : Double.pow2 a <= inject_Z n) by (rewrite <- pow2_Z, <- Zle_Qle; assumption).
  assert (QA2 : inject_Z n < Double.pow2 (a + 1))
    by (rewrite <- pow2_Z, <- Zlt_Qlt by lia; replace (a + 1)%Z with (Z.succ a) by lia; assumption).
  assert (QB1 : Double.pow2 b <= inject_Z (Zpos d)) by (rewrite <- pow2_Z, <- Zle_Qle; assumption).
  assert (QB2 : inject_Z (Zpos d) < Double.pow2 (b + 1))
    by (rewrite <- pow2_Z, <- Zlt_Qlt by lia; replace (b + 1)%Z with (Z.succ b) by lia; assumption).
  pose proof (pow2_pos (a - b)) as P0. pose proof (pow2_pos b) as Pb.
  assert (E1 : Double.pow2 a == Double.pow2 (a - b) * Double.pow2 b)
    by (rewrite <- pow2_plus; now replace (a - b + b)%Z with a by lia).
  assert (Up : (n # d) < Double.pow2 (a - b + 1)).
  { rewrite pow2_succ. rewrite pow2_succ in QA2.
    set (P := Double.pow2 (a - b)) in *. set (B := Double.pow2 b) in *.
    set (D := inject_Z (Zpos d)) in *. set (A := Double.pow2 a) in *.
    set (N := inject_Z n) in *. set (q := n # d) in *.
    destruct (Qlt_le_dec q (2 * P)) as [L|L]; [exact L|]. exfalso.
    assert (2 * P * D <= q * D) by (apply Qmult_le_compat_r; lra).
    assert (2 * P * B <= 2 * P * D) by (apply Qmult_le_l; lra).
    lra. }
  assert (Lo : Double.pow2 (a - b - 1) <= (n # d)).
  { assert (E2 : Double.pow2 (a - b) == 2 * Double.pow2 (a - b - 1))
      by (rewrite <- pow2_succ; now replace (a - b - 1 + 1)%Z with (a - b)%Z by lia).
    rewrite pow2_succ in QB2. pose proof (pow2_pos (a - b - 1)) as P1.
    set (P := Double.pow2 (a - b)) in *. set (B := Double.pow2 b) in *.
    set (D := inject_Z (Zpos d)) in *. set (A := Double.pow2 a) in *.
    set (N := inject_Z n) in *. set (q := n # d) in *.
    set (P' := Double.pow2 (a - b - 1)) in *.
    destruct (Qlt_le_dec q P') as [L|L]; [|exact L]. exfalso.
    assert (q * D <= P' * D) by (apply Qmult_le_compat_r; lra).
    assert (P' * D <= P' * (2 * B)) by (apply Qmult_le_l; lra).
    assert (P' * (2 * B) == A) by (rewrite E1, E2; ring).
    assert (q * D < P' * D) by (apply Qmult_lt_compat_r; lra).
    lra. }
  unfold Qleb. destruct (Qle_bool _ _) eqn:E.
  - apply Qle_bool_iff in E. split; assumption.
  - split; [exact Lo|]. replace (a - b - 1 + 1)%Z with (a - b)%Z by lia.
    apply Qnot_le_lt. intros C. apply Qle_bool_iff in C. congruence.
Qed.

Lemma ilog2_unique q e :
  Double.pow2 e <= q -> q < Double.pow2 (e + 1) -> Double.ilog2 q = e.
Proof.
  intros H1 H2. assert (Hq : 0 < q) by (pose proof (pow2_pos e); lra).
  destruct (ilog2_spec q Hq) as [S1 S2].
  assert (Double.ilog2 q < e + 1)%Z by (apply pow2_lt_inv; lra).
  assert (e < Double.ilog2 q + 1)%Z by (apply pow2_lt_inv; lra).
  lia.
Qed.

Lemma ilog2_mono p q : 0 < p -> p <= q -> (Double.ilog2 p <= Double.ilog2 q)%Z.
Proof.
  intros Hp Hpq. destruct (ilog2_spec p Hp) as [S1 _].
  destruct (ilog2_spec q ltac:(lra)) as [_ T2].
  assert (Double.ilog2 p < Double.ilog2 q + 1)%Z by (apply pow2_lt_inv; lra). lia.
Qed.

Lemma floor_bounds x : inject_Z (Qfloor x) <= x /\ x < inject_Z (Qfloor x) + 1.
Proof.
  split; [apply Qfloor_le|]. pose proof (Qlt_floor x) as H.
  rewrite inject_Z_plus in H. exact H.
Qed.

Lemma nearestEven_cases x :
  let f := Qfloor x in
  (Double.nearestEven x = f /\ x - inject_Z f <= 1 # 2) \/
  (Double.nearestEven x = (f + 1)%Z /\ 1 # 2 <= x - inject_Z f).
Proof.
  intros f. unfold Double.nearestEven. fold f.
  destruct (Qcompare (x - inject_Z f) (1 # 2)) eqn:E.
  - apply Qeq_alt in E. destruct (Z.even f); [left|right]; split; try reflexivity; lra.
  - apply Qlt_alt in E. left. split; [reflexivity|lra].
  - apply Qgt_alt in E. right. split; [reflexivity|lra].
Qed.

Lemma nearestEven_error x :
  x - (1 # 2) <= inject_Z (Double.nearestEven x) /\
  inject_Z (Double.nearestEven x) <= x + (1 # 2).
Proof.
  destruct (floor_bounds x) as [F1 F2].
  destruct (nearestEven_cases x) as [[-> H]|[-> H]];
    rewrite ?inject_Z_plus; change (inject_Z 1) with 1; lra.
Qed.

Lemma nearestEven_ge x n : inject_Z n <= x -> (n <= Double.nearestEven x)%Z.
Proof.
  intros H. assert (n <= Qfloor x)%Z.
  { rewrite <- (Qfloor_Z n). now apply Qfloor_resp_le. }
  destruct (nearestEven_cases x) as [[-> _]|[-> _]]; lia.
Qed.

Lemma nearestEven_le x n : x <= inject_Z n -> (Double.nearestEven x <= n)%Z.
Proof.
  intros H. assert (F : (Qfloor x <= n)%Z).
  { rewrite <- (Qfloor_Z n). now apply Qfloor_resp_le. }
  destruct (floor_bounds x) as [F1 F2].
  destruct (nearestEven_cases x) as [[-> _]|[-> H1]]; [lia|].
  destruct (Z.eq_dec (Qfloor x) n) as [E|E]; [|lia].
  rewrite E in H1. lra.
Qed.

Lemma nearestEven_mono x y : x <= y -> (Double.nearestEven x <= Double.nearestEven y)%Z.
Proof.
  intros H. pose proof (Qfloor_resp_le _ _ H) as F.
  destruct (Z.eq_dec (Qfloor x) (Qfloor y)) as [E|E].
  - unfold Double.nearestEven. rewrite E.
    destruct (Qcompare (x - inject_Z (Qfloor y)) (1 # 2)) eqn:Ex;
      destruct (Qcompare (y - inject_Z (Qfloor y)) (1 # 2)) eqn:Ey;
      rewrite <- ?Qeq_alt, <- ?Qlt_alt, <- ?Qgt_alt in *;
      try destruct (Z.even (Qfloor y)); try lia; lra.
  - destruct (nearestEven_cases x) as [[-> _]|[-> _]];
      destruct (nearestEven_cases y) as [[-> _]|[-> _]]; lia.
Qed.

Lemma ulpExponent_ge q : (-1074 <= Double.ulpExponent q)%Z.
Proof. unfold Double.ulpExponent. lia. Qed.

Lemma roundPos_scaled q :
  Double.roundPos q
  = inject_Z (Double.nearestEven (q / Double.pow2 (Double.ulpExponent q)))
    * Double.pow2 (Double.ulpExponent q).
Proof. reflexivity. Qed.

Lemma div_pow2 q k : q / Double.pow2 k * Double.pow2 k == q.
Proof. pose proof (pow2_pos k). field. lra. Qed.

Lemma roundPos_error q :
  0 < q ->
  Double.roundPos q - q <= Double.pow2 (Double.ulpExponent q - 1) /\
  q - Double.roundPos q <= Double.pow2 (Double.ulpExponent q - 1).
Proof.
  intros Hq. rewrite roundPos_scaled. set (k := Double.ulpExponent q).
  pose proof (pow2_pos k) as Pk. pose proof (div_pow2 q k) as Dk.
  destruct (nearestEven_error (q / Double.pow2 k)) as [E1 E2].
  set (x := q / Double.pow2 k) in *. set (m := inject_Z (Double.nearestEven x)) in *.
  assert (Hk : Double.pow2 k == 2 * Double.pow2 (k - 1))
    by (rewrite <- pow2_succ; now replace (k - 1 + 1)%Z with k by lia).
  set (P := Double.pow2 k) in *. set (P' := Double.pow2 (k - 1)) in *.
  assert ((x - (1 # 2)) * P <= m * P) by (apply Qmult_le_compat_r; lra).
  assert (m * P <= (x + (1 # 2)) * P) by (apply Qmult_le_compat_r; lra).
  assert ((x - (1 # 2)) * P == q - P') by (rewrite Hk in *; lra).
  assert ((x + (1 # 2)) * P == q + P') by (rewrite Hk in *; lra).
  lra.
Qed.

Lemma half_ulp_bound q :
  0 < q ->
  Double.pow2 (Double.ulpExponent q - 1) <= q * Double.pow2 (-53) + Double.pow2 (-1075).
Proof.
  intros Hq. unfold Double.ulpExponent. destruct (ilog2_spec q Hq) as [S1 _].
  set (e := Double.ilog2 q) in *. pose proof (pow2_pos (-53)) as P53.
  pose proof (pow2_pos (-1075)) as P1075.
  destruct (Z.max_spec (e - 52) (-1074)) as [[_ ->]|[_ ->]].
  - change (-1074 - 1)%Z with (-1075)%Z.
    assert (0 <= q * Double.pow2 (-53)) by (apply Qmult_le_0_compat; lra). lra.
  - replace (e - 52 - 1)%Z with (e + -53)%Z by lia. rewrite pow2_plus.
    assert (Double.pow2 e * Double.pow2 (-53) <= q * Double.pow2 (-53))
      by (apply Qmult_le_compat_r; lra).
    lra.
Qed.

Lemma roundPos_nonneg q : 0 < q -> 0 <= Double.roundPos q.
Proof.
  intros Hq. rewrite roundPos_scaled. set (k := Double.ulpExponent q).
  pose proof (pow2_pos k) as Pk. apply Qmult_le_0_compat; [|lra].
  change 0 with (inject_Z 0). rewrite <- Zle_Qle. apply nearestEven_ge.
  change (inject_Z 0) with 0. apply Qle_shift_div_l; lra.
Qed.

Lemma roundPos_mono p q : 0 < p -> p <= q -> Double.roundPos p <= Double.roundPos q.
Proof.
  intros Hp Hpq. assert (Hq : 0 < q) by lra.
  rewrite !roundPos_scaled.
  pose proof (ilog2_mono p q Hp Hpq) as He.
  destruct (ilog2_spec p Hp) as [Sp1 Sp2]. destruct (ilog2_spec q Hq) as [Sq1 Sq2].
  unfold Double.ulpExponent.
  set (ep := Double.ilog2 p) in *. set (eq := Double.ilog2 q) in *.
  set (kp := Z.max (ep - 52) (-1074)). set (kq := Z.max (eq - 52) (-1074)).
  pose proof (pow2_pos kp) as Pp. pose proof (pow2_pos kq) as Pq.
  destruct (Z.eq_dec kp kq) as [E|E].
  - rewrite E. apply Qmult_le_compat_r; [|lra]. rewrite <- Zle_Qle.
    apply nearestEven_mono. apply Qmult_le_compat_r; [exact Hpq|].
    apply Qlt_le_weak, Qinv_lt_0_compat, Pq.
  - assert (Hk : (kp < kq)%Z) by lia.
    assert (Hkq : kq = (eq - 52)%Z) by lia.
    assert (Hee : (ep + 1 <= eq)%Z) by lia.
    assert (Hkp : (kp <= eq)%Z) by lia.
    pose proof (pow2_le _ _ Hee) as Hpow.
    apply Qle_trans with (Double.pow2 eq).
    + (* round p does not pass 2^eq *)
      assert (M : Double.pow2 eq == inject_Z (2 ^ (eq - kp)) * Double.pow2 kp).
      { rewrite pow2_Z by lia. rewrite <- pow2_plus.
        now replace (eq - kp + kp)%Z with eq by lia. }
      rewrite M. apply Qmult_le_compat_r; [|lra]. rewrite <- Zle_Qle.
      apply nearestEven_le. apply Qle_shift_div_r; [exact Pp|].
      rewrite <- M. lra.
    + assert (M : Double.pow2 eq == inject_Z (2 ^ 52) * Double.pow2 kq).
      { rewrite pow2_Z by lia. rewrite <- pow2_plus.
        now replace (52 + kq)%Z with eq by lia. }
      rewrite M. apply Qmult_le_compat_r; [|lra]. rewrite <- Zle_Qle.
      apply nearestEven_ge. apply Qle_shift_div_l; [exact Pq|].
      rewrite <- M. lra.
Qed.

Lemma round_pos q : 0 < q -> Double.round q == Double.roundPos q.
Proof.
  intros H. unfold Double.round. rewrite Qred_correct.
  destruct (Qcompare_spec q 0); [lra | lra | reflexivity].
Qed.

Lemma round_neg q : q < 0 -> Double.round q == - Double.roundPos (- q).
Proof.
  intros H. unfold Double.round. rewrite Qred_correct.
  destruct (Qcompare_spec q 0); [lra | reflexivity | lra].
Qed.

Lemma round_zero q : q == 0 -> Double.round q == 0.
Proof.
  intros H. unfold Double.round. rewrite Qred_correct.
  destruct (Qcompare_spec q 0); [reflexivity | lra | lra].
Qed.

Lemma round_mono p q : p <= q -> Double.round p <= Double.round q.
Proof.
  intros H.
  assert (Sp : (p < 0 /\ Double.round p == - Double.roundPos (- p) /\ 0 <= Double.roundPos (- p)) \/
               (p == 0 /\ Double.round p == 0) \/
               (0 < p /\ Double.round p == Double.roundPos p /\ 0 <= Double.roundPos p)).
  { destruct (Q_dec p 0) as [[Hp|Hp]|Hp].
    - left. repeat split; [exact Hp | now apply round_neg | apply roundPos_nonneg; lra].
    - right. right. repeat split; [exact Hp | now apply round_pos | now apply roundPos_nonneg].
    - right. left. split; [exact Hp | now apply round_zero]. }
  assert (Sq : (q < 0 /\ Double.round q == - Double.roundPos (- q) /\ 0 <= Double.roundPos (- q)) \/
               (q == 0 /\ Double.round q == 0) \/
               (0 < q /\ Double.round q == Double.roundPos q /\ 0 <= Double.roundPos q)).
  { destruct (Q_dec q 0) as [[Hq|Hq]|Hq].
    - left. repeat split; [exact Hq | now apply round_neg | apply roundPos_nonneg; lra].
    - right. right. repeat split; [exact Hq | now apply round_pos | now apply roundPos_nonneg].
    - right. left. split; [exact Hq | now apply round_zero]. }
  destruct Sp as [(Hp & -> & Np)|[(Hp & ->)|(Hp & -> & Np)]];
    destruct Sq as [(Hq & -> & Nq)|[(Hq & ->)|(Hq & -> & Nq)]]; try lra.
  - assert (Double.roundPos (- q) <= Double.roundPos (- p)) by (apply roundPos_mono; lra).
    lra.
  - now apply roundPos_mono.
Qed.

Lemma round_comp p q : p == q -> Double.round p == Double.round q.
Proof. intros H. apply Qle_antisym; apply round_mono; lra. Qed.

(** Rounding moves [q] by at most [2^-53 |q| + 2^-1075]. *)
Lemma round_error q :
  Double.round q - q <= Qabs q * Double.pow2 (-53) + Double.pow2 (-1075) /\
  q - Double.round q <= Qabs q * Double.pow2 (-53) + Double.pow2 (-1075).
Proof.
  pose proof (pow2_pos (-1075)) as P.
  destruct (Q_dec q 0) as [[Hq|Hq]|Hq].
  - rewrite (round_neg q Hq), (Qabs_neg q) by lra.
    destruct (roundPos_error (- q) ltac:(lra)) as [E1 E2].
    pose proof (half_ulp_bound (- q) ltac:(lra)). lra.
  - rewrite (round_pos q Hq), (Qabs_pos q) by lra.
    destruct (roundPos_error q Hq) as [E1 E2].
    pose proof (half_ulp_bound q Hq). lra.
  - rewrite (round_zero q Hq), Hq. cbn [Qabs Z.abs Qnum Qden]. lra.
Qed.

(** ** The collision test over doubles *)

Lemma tenth_value : Double.lit 0.1 = 3602879701896397 # 36028797018963968.
Proof. vm_compute. reflexivity. Qed.

Lemma pow2_m53 : Double.pow2 (-53) = 1 # 9007199254740992.
Proof. reflexivity. Qed.

Lemma pow2_m50 : Double.pow2 (-50) = 1 # 1125899906842624.
Proof. reflexivity. Qed.

Lemma pow2_m1072 : Double.pow2 (-1072) == 8 * Double.pow2 (-1075).
Proof.
  replace (-1072)%Z with (3 + -1075)%Z by reflexivity. rewrite pow2_plus. reflexivity.
Qed.

(** Rounding moves a number of magnitude at most [B] by at most
    [B * 2^-53 + 2^-1075]. *)
Lemma round_within q B :
  - B <= q -> q <= B ->
  q - (B * (1 # 9007199254740992) + Double.pow2 (-1075)) <= Double.round q /\
  Double.round q <= q + (B * (1 # 9007199254740992) + Double.pow2 (-1075)).
Proof.
  intros H1 H2. destruct (round_error q) as [E1 E2]. rewrite pow2_m53 in E1, E2.
  assert (Qabs q <= B) by (apply Qabs_Qle_condition; split; assumption).
  lra.
Qed.

Lemma abs_bounds x : - Qabs x <= x /\ x <= Qabs x /\ 0 <= Qabs x.
Proof.
  pose proof (Qabs_nonneg x). pose proof (Qle_Qabs x).
  pose proof (Qle_Qabs (- x)) as H1. rewrite Qabs_opp in H1. lra.
Qed.

(** The margin of an extent lies within [|w| * 2^-53 + 2^-1075] of its
    tenth. *)
Lemma margin_near w W :
  - W <= w -> w <= W ->
  w * 0.1 - (W * (1 # 9007199254740992) + Double.pow2 (-1075)) <= Double.margin w /\
  Double.margin w <= w * 0.1 + (W * (1 # 9007199254740992) + Double.pow2 (-1075)).
Proof.
  intros H1 H2. unfold Double.margin, Double.mul. rewrite tenth_value.
  destruct (round_within (w * (3602879701896397 # 36028797018963968)) (W * (1 # 5)))
    as [E1 E2]; lra.
Qed.

Section Edges.
Variables (x w : Q).
Let eta := Double.pow2 (-1075).

Lemma left_edge_near :
  Qabs (Double.add x (Double.margin w) - (x + w * 0.1)) <= Double.slack x w.
Proof.
  unfold Double.slack. rewrite pow2_m50, pow2_m1072. fold eta.
  assert (He : 0 < eta) by apply pow2_pos.
  destruct (abs_bounds x) as (X1 & X2 & X3). destruct (abs_bounds w) as (W1 & W2 & W3).
  set (X := Qabs x) in *. set (W := Qabs w) in *.
  destruct (margin_near w W W1 W2) as [M1 M2]. fold eta in M1, M2.
  set (m := Double.margin w) in *.
  unfold Double.add.
  destruct (round_within (x + m) (X + W + eta)) as [E1 E2]; try lra.
  fold eta in E1, E2.
  apply Qabs_Qle_condition. split; lra.
Qed.

Lemma right_edge_near :
  Qabs (Double.sub (Double.add x w) (Double.margin w) - (x + w - w * 0.1)) <= Double.slack x w.
Proof.
  unfold Double.slack. rewrite pow2_m50, pow2_m1072. fold eta.
  assert (He : 0 < eta) by apply pow2_pos.
  destruct (abs_bounds x) as (X1 & X2 & X3). destruct (abs_bounds w) as (W1 & W2 & W3).
  set (X := Qabs x) in *. set (W := Qabs w) in *.
  destruct (margin_near w W W1 W2) as [M1 M2]. fold eta in M1, M2.
  set (m := Double.margin w) in *.
  unfold Double.add, Double.sub.
  destruct (round_within (x + w) (X + W)) as [S1 S2]; try lra. fold eta in S1, S2.
  set (s := Double.round (x + w)) in *.
  destruct (round_within (s - m) (3 * X + 3 * W + 2 * eta)) as [E1 E2]; try lra.
  fold eta in E1, E2.
  apply Qabs_Qle_condition. split; lra.
Qed.
End Edges.

(** Two numbers farther apart than the errors of their computed values
    compare the same way as the computed values. *)
Lemma Qltb_stable a b a' b' ta tb :
  Qabs (a' - a) <= ta -> Qabs (b' - b) <= tb -> ta + tb < Qabs (a - b) ->
  Qltb a' b' = Qltb a b.
Proof.
  intros Ha Hb Hab.
  apply Qabs_Qle_condition in Ha. apply Qabs_Qle_condition in Hb.
  destruct (Qltb a b) eqn:E; [apply Qltb_lt in E | apply Qltb_ge in E].
  - rewrite (Qabs_neg (a - b)) in Hab by lra. apply Qltb_lt. lra.
  - rewrite (Qabs_pos (a - b)) in Hab by lra. apply Qltb_ge. lra.
Qed.

Lemma checkCollision_clear {A B : Type} `{Rect A} `{Rect B} (a : A) (b : B) :
  Double.clear a b -> Double.checkCollision a b = checkCollision a b.
Proof.
  unfold Double.clear, spec_shrink. cbn [s_left s_right s_top s_bottom].
  intros (_ & C1 & C2 & C3 & C4).
  unfold Double.checkCollision, checkCollision, Qgtb. cbv zeta.
  fold (Double.margin (rect_width a)) (Double.margin (rect_width b))
       (Double.margin (rect_height a)) (Double.margin (rect_height b)).
  pose proof (left_edge_near (rect_x a) (rect_width a)) as La.
  pose proof (right_edge_near (rect_x a) (rect_width a)) as Ra.
  pose proof (left_edge_near (rect_x b) (rect_width b)) as Lb.
  pose proof (right_edge_near (rect_x b) (rect_width b)) as Rb.
  pose proof (left_edge_near (rect_y a) (rect_height a)) as Ta.
  pose proof (right_edge_near (rect_y a) (rect_height a)) as Ba.
  pose proof (left_edge_near (rect_y b) (rect_height b)) as Tb.
  pose proof (right_edge_near (rect_y b) (rect_height b)) as Bb.
  f_equal; [f_equal; [f_equal|]|].
  - eapply Qltb_stable; [exact La | exact Rb |].
    eapply Qlt_le_trans; [exact C1|]. apply Qle_lteq. right.
    apply Qabs_wd. ring.
  - eapply Qltb_stable; [exact Lb | exact Ra |].
    rewrite Qabs_Qminus.
    assert (E : Double.slack (rect_x b) (rect_width b) + Double.slack (rect_x a) (rect_width a)
                == Double.slack (rect_x a) (rect_width a) + Double.slack (rect_x b) (rect_width b))
      by ring.
    rewrite E. eapply Qlt_le_trans; [exact C2|]. apply Qle_lteq. right. apply Qabs_wd. ring.
  - eapply Qltb_stable; [exact Ta | exact Bb |].
    eapply Qlt_le_trans; [exact C3|]. apply Qle_lteq. right.
    apply Qabs_wd. ring.
  - eapply Qltb_stable; [exact Tb | exact Ba |].
    rewrite Qabs_Qminus.
    assert (E : Double.slack (rect_y b) (rect_height b) + Double.slack (rect_y a) (rect_height a)
                == Double.slack (rect_y a) (rect_height a) + Double.slack (rect_y b) (rect_height b))
      by ring.
    rewrite E. eapply Qlt_le_trans; [exact C4|]. apply Qle_lteq. right. apply Qabs_wd. ring.
Qed.

Lemma checkCollision_double_true {A B : Type} `{Rect A} `{Rect B} (a : A) (b : B) :
  Double.checkCollision a b = true
  <-> spec_overlap (Double.spec_shrink a) (Double.spec_shrink b).
Proof.
  unfold Double.checkCollision, spec_overlap, Double.spec_shrink, Double.margin, Qgtb.
  cbn [s_left s_right s_top s_bottom]. cbv zeta.
  rewrite !andb_true_iff, !Qltb_lt. tauto.
Qed.

Lemma margin_40 : Double.margin 40 = 4.
Proof. vm_compute. reflexivity. Qed.

Lemma adjacent_boxes_apart x y :
  Double.checkCollision (mkBox x y 40 40) (mkBox (Double.add x 40) y 40 40) = false /\
  Double.checkCollision (mkBox (Double.add x 40) y 40 40) (mkBox x y 40 40) = false.
Proof.
  set (x' := Double.add x 40).
  assert (M : Double.sub x' 4 <= Double.add x' 4)
    by (unfold Double.sub, Double.add; apply round_mono; lra).
  split.
  - destruct (Double.checkCollision _ _) eqn:E; [|reflexivity].
    apply checkCollision_double_true in E.
    unfold spec_overlap, Double.spec_shrink in E.
    cbn [s_left s_right s_top s_bottom rect_x rect_y rect_width rect_height Box_Rect
           bx by_ bw bh] in E.
    rewrite margin_40 in E. fold x' in E. lra.
  - destruct (Double.checkCollision _ _) eqn:E; [|reflexivity].
    apply checkCollision_double_true in E.
    unfold spec_overlap, Double.spec_shrink in E.
    cbn [s_left s_right s_top s_bottom rect_x rect_y rect_width rect_height Box_Rect
           bx by_ bw bh] in E.
    rewrite margin_40 in E. fold x' in E. lra.
Qed.

(** C3 (as amended). The collision test holds exactly when the two boxes,
    each moved inward by its margins, overlap strictly on both axes, where
    a margin is the double product of the extent by the double 0.1 and the
    edges are the doubles [x + margin] and [(x + width) - margin] (and the
    same along [y]).  For boxes of magnitude up to [2^1000] that is the
    test on boxes shrunk by exactly 10% whenever no two edges it compares
    are closer than [2^-50] times the magnitudes of the positions and
    extents that enter them (plus [2^-1071]).  Two 40x40 boxes that touch
    along an edge ([B.x] is the double [A.x + 40], same [y]) do not
    collide, in either order of the test.  Closer than the bound rounding
    decides, either way: the bullet at 59.4 collides with the scout at
    59.9, where the exact test says no, and the bullet at 35.8 does not
    collide with the scout at 0.3, where the exact test says yes. *)
Theorem checkCollision_margin_overlap :
  forall (A B : Type) (RA : Rect A) (RB : Rect B) (a : A) (b : B) (x y : Q),
    (Double.checkCollision a b = true
     <-> spec_overlap (Double.spec_shrink a) (Double.spec_shrink b)) /\
    (Double.clear a b ->
     (Double.checkCollision a b = true <-> spec_overlap (spec_shrink a) (spec_shrink b))) /\
    (Double.checkCollision (mkBox x y 40 40) (mkBox (Double.add x 40) y 40 40) = false /\
     Double.checkCollision (mkBox (Double.add x 40) y 40 40) (mkBox x y 40 40) = false) /\
    ((Double.checkCollision touchingBullet touchedScout = true /\
      checkCollision touchingBullet touchedScout = false) /\
     (Double.checkCollision grazingBullet grazedScout = false /\
      checkCollision grazingBullet grazedScout = true)).
Proof.
  intros A B RA RB a b x y. split; [|split; [|split]].
  - apply checkCollision_double_true.
  - intros Hc. rewrite (checkCollision_clear a b Hc). apply checkCollision_true.
  - apply adjacent_boxes_apart.
  - vm_compute. repeat split.
Qed.

Lemma checkCollision_margin_overlap_witness :
  Double.clear centredBullet centredScout /\
  (Double.checkCollision centredBullet centredScout = true
   <-> spec_overlap (spec_shrink centredBullet) (spec_shrink centredScout)).
Proof.
  assert (Hc : Double.clear centredBullet centredScout)
    by (repeat split; vm_compute; solve [reflexivity | discriminate]).
  split; [exact Hc|].
  destruct (checkCollision_margin_overlap _ _ _ _ centredBullet centredScout 0 0)
    as (_ & H & _).
  exact (H Hc).
Defined.

(** C3, the claim as stated fails where edges touch.  The bullet at 59.4
    collides with the scout at 59.9, although the boxes shrunk by exactly
    10% only touch; the bullet at 35.8 does not collide with the scout at
    0.3, although the boxes shrunk by exactly 10% overlap. *)
Lemma rounding_decides_touching_edges :
  (Double.checkCollision touchingBullet touchedScout = true /\
   ~ spec_overlap (spec_shrink touchingBullet) (spec_shrink touchedScout)) /\
  (Double.checkCollision grazingBullet grazedScout = false /\
   spec_overlap (spec_shrink grazingBullet) (spec_shrink grazedScout)).
Proof.
  split; split.
  - vm_compute. reflexivity.
  - rewrite <- checkCollision_true. vm_compute. discriminate.
  - vm_compute. reflexivity.
  - rewrite <- checkCollision_true. vm_compute. reflexivity.
Qed.

(** The edges of the first pair, to the last digit: the doubles 59.4 and
    59.9 are half a pixel apart, the double [59.4 + 5] is not [64.4] less
    the error of 59.4 but the next double up, and so the bullet's right
    edge ends a unit in the last place to the right of the scout's left
    edge. *)
Example touching_edges_in_doubles :
  Double.lit 59.9 - Double.lit 59.4 == 1 # 2 /\
  s_right (spec_shrink touchingBullet) == s_left (spec_shrink touchedScout) /\
  s_right (Double.spec_shrink touchingBullet) - s_left (Double.spec_shrink touchedScout)
  == Double.pow2 (-47).
Proof. repeat split; vm_compute; reflexivity. Qed.

(** ** The life of a particle over doubles *)

Lemma pow2_m51 : Double.pow2 (-51) = 1 # 2251799813685248.
Proof. reflexivity. Qed.

Lemma eta_small : Double.pow2 (-1075) <= 1 # 9007199254740992.
Proof. rewrite <- pow2_m53. apply pow2_le. lia. Qed.

Lemma round_0 : Double.round 0 = 0.
Proof. reflexivity. Qed.

Lemma round_1 : Double.round 1 = 1.
Proof. vm_compute. reflexivity. Qed.

(** One update of the life of a particle: [life - deltaTime * 2] in
    doubles, for a life in (0, 1] and a frame time that is not negative. *)
Lemma life_step (life dt : Q) :
  0 < life -> life <= 1 -> 0 <= dt ->
  let life' := Double.sub life (Double.mul dt 2) in
  life' <= 1 /\
  (0 < life' ->
   life - 2 * dt - Double.pow2 (-51) <= life' /\ life' <= life - 2 * dt + Double.pow2 (-51)) /\
  (Double.pow2 (-51) < life - 2 * dt -> 0 < life').
Proof.
  intros H0 H1 Hdt. cbv zeta. unfold Double.sub, Double.mul.
  rewrite pow2_m51. pose proof eta_small as He. pose proof (pow2_pos (-1075)) as He0.
  set (eta := Double.pow2 (-1075)) in *.
  assert (Hm : 0 <= Double.round (dt * 2))
    by (rewrite <- round_0; apply round_mono; lra).
  set (m := Double.round (dt * 2)) in *.
  assert (Hle : Double.round (life - m) <= 1)
    by (rewrite <- round_1; apply round_mono; lra).
  split; [exact Hle|]. split.
  - intros Hpos.
    assert (Harg : 0 < life - m).
    { destruct (Qlt_le_dec 0 (life - m)) as [L|L]; [exact L|].
      apply round_mono in L. rewrite round_0 in L. lra. }
    assert (Hdt1 : dt * 2 <= 1).
    { destruct (Qlt_le_dec 1 (dt * 2)) as [L|L]; [|exact L].
      assert (L' : 1 <= dt * 2) by lra. apply round_mono in L'. rewrite round_1 in L'.
      fold m in L'. lra. }
    destruct (round_within (dt * 2) 1) as [M1 M2]; try lra. fold m eta in M1, M2.
    destruct (round_within (life - m) 1) as [E1 E2]; try lra. fold eta in E1, E2.
    split; lra.
  - intros Hfar.
    destruct (round_within (dt * 2) 1) as [M1 M2]; try lra. fold m eta in M1, M2.
    destruct (round_within (life - m) 1) as [E1 E2]; try lra. fold eta in E1, E2.
    lra.
Qed.

Lemma Particle_update_double_life dt p :
  Particle.life (Double.Particle_update dt p)
  = Double.sub (Particle.life p) (Double.mul dt 2) /\
  Particle.markedForDeletion (Double.Particle_update dt p)
  = Particle.markedForDeletion p || Qleb (Double.sub (Particle.life p) (Double.mul dt 2)) 0.
Proof.
  unfold Double.Particle_update. cbv zeta.
  cbn [Particle.life Particle_set_life Particle_set_x Particle_set_y].
  destruct (Qleb _ _); cbn; split; try reflexivity;
    now rewrite ?orb_true_r, ?orb_false_r.
Qed.

Lemma Particle_aged_double_stays_dead dts :
  forall p,
    Particle.markedForDeletion p = true ->
    Particle.markedForDeletion (Double.Particle_aged dts p) = true.
Proof.
  induction dts as [|dt dts IH]; intros p H; [exact H|].
  cbn. apply IH. destruct (Particle_update_double_life dt p) as [_ ->]. now rewrite H.
Qed.

Lemma Particle_aged_double_sandwich :
  forall (deltaTimes : list Q) (p : Particle.t),
    Particle.markedForDeletion p = false ->
    0 < Particle.life p ->
    Particle.life p <= 1 ->
    forallb (Qle_bool 0) deltaTimes = true ->
    let slack := inject_Z (Z.of_nat (length deltaTimes)) * Double.pow2 (-51) in
    (2 * Qsum deltaTimes + slack < Particle.life p ->
     Particle.markedForDeletion (Double.Particle_aged deltaTimes p) = false) /\
    (Particle.life p + slack <= 2 * Qsum deltaTimes ->
     Particle.markedForDeletion (Double.Particle_aged deltaTimes p) = true).
Proof.
  induction deltaTimes as [|dt dts IH]; intros p Hlive H0 H1 Hpos; cbv zeta.
  - split; intros H; [exact Hlive|]. exfalso.
    change (Qsum []) with 0 in H.
    change (inject_Z (Z.of_nat (length (@nil Q)))) with 0 in H. lra.
  - cbn [forallb] in Hpos. apply andb_true_iff in Hpos as [Hdt Hrest].
    apply Qle_bool_iff in Hdt.
    pose proof (Qsum_nonneg dts Hrest) as Hsum.
    change (Double.Particle_aged (dt :: dts) p)
      with (Double.Particle_aged dts (Double.Particle_update dt p)).
    change (Qsum (dt :: dts)) with (dt + Qsum dts).
    cbn [length]. rewrite Nat2Z.inj_succ, <- Z.add_1_r, inject_Z_plus.
    change (inject_Z 1) with 1.
    pose proof (pow2_pos (-51)) as Hd.
    assert (Hn : 0 <= inject_Z (Z.of_nat (length dts)) * Double.pow2 (-51)).
    { apply Qmult_le_0_compat; [|lra]. change 0 with (inject_Z 0).
      rewrite <- Zle_Qle. lia. }
    set (d := Double.pow2 (-51)) in *.
    destruct (life_step (Particle.life p) dt H0 H1 Hdt) as (S1 & S2 & S3). fold d in S2, S3.
    destruct (Particle_update_double_life dt p) as [El Em]. rewrite Hlive in Em. cbn [orb] in Em.
    set (p' := Double.Particle_update dt p) in *.
    set (life' := Double.sub (Particle.life p) (Double.mul dt 2)) in *.
    specialize (IH p').
    split; intros H.
    + assert (Hp' : 0 < life') by (apply S3; lra).
      destruct (S2 Hp') as [B1 B2].
      assert (Em' : Particle.markedForDeletion p' = false).
      { rewrite Em. apply not_true_is_false. intros C. apply Qle_bool_iff in C. lra. }
      rewrite El in IH. destruct (IH Em' Hp' S1 Hrest) as [IH1 _]. apply IH1.
      fold d. lra.
    + destruct (Qleb life' 0) eqn:E.
      * now apply Particle_aged_double_stays_dead.
      * assert (Hp' : 0 < life').
        { apply Qnot_le_lt. intros C. apply Qle_bool_iff in C. unfold Qleb in E. congruence. }
        destruct (S2 Hp') as [B1 B2].
        rewrite El in IH. destruct (IH Em Hp' S1 Hrest) as [_ IH2]. apply IH2.
        fold d. lra.
Qed.


(** X8. One update takes the double [deltaTime * 2] off the life of a
    particle, in doubles, and marks the particle when what is left is zero
    or less; so life decays at twice real time, up to rounding.  A live
    particle with a life in (0, 1], such as a fresh one, survives a
    sequence of [n] frames with non-negative frame times if twice the time
    elapsed stays below its life by more than [n * 2^-51], and is marked
    dead by the end of the sequence if twice the time elapsed reaches its
    life plus [n * 2^-51]; in between, rounding decides. *)
Theorem Particle_lives_half_its_life :
  forall (deltaTimes : list Q) (p : Particle.t),
    Particle.markedForDeletion p = false ->
    0 < Particle.life p ->
    Particle.life p <= 1 ->
    forallb (Qle_bool 0) deltaTimes = true ->
    let slack := inject_Z (Z.of_nat (length deltaTimes)) * Double.pow2 (-51) in
    (forall deltaTime,
        Particle.life (Double.Particle_update deltaTime p)
        = Double.sub (Particle.life p) (Double.mul deltaTime 2) /\
        Particle.markedForDeletion (Double.Particle_update deltaTime p)
        = Qleb (Double.sub (Particle.life p) (Double.mul deltaTime 2)) 0) /\
    (2 * Qsum deltaTimes + slack < Particle.life p ->
     Particle.markedForDeletion (Double.Particle_aged deltaTimes p) = false) /\
    (Particle.life p + slack <= 2 * Qsum deltaTimes ->
     Particle.markedForDeletion (Double.Particle_aged deltaTimes p) = true).
Proof.
  intros dts p Hlive H0 H1 Hpos. cbv zeta. split.
  - intros dt. destruct (Particle_update_double_life dt p) as [El Em].
    rewrite Hlive in Em. now split.
  - now apply Particle_aged_double_sandwich.
Qed.

Lemma Particle_lives_half_its_life_witness :
  Particle.markedForDeletion
    (Double.Particle_aged [Double.lit 0.1; Double.lit 0.1; Double.lit 0.1] freshParticle)
  = false /\
  Particle.markedForDeletion
    (Double.Particle_aged [Double.lit 0.25; Double.lit 0.25; Double.lit 0.016] freshParticle)
  = true.
Proof.
  split.
  - destruct (Particle_lives_half_its_life
                [Double.lit 0.1; Double.lit 0.1; Double.lit 0.1] freshParticle
                eq_refl eq_refl (Qle_refl 1) eq_refl) as (_ & H & _).
    apply H. vm_compute. reflexivity.
  - destruct (Particle_lives_half_its_life
                [Double.lit 0.25; Double.lit 0.25; Double.lit 0.016] freshParticle
                eq_refl eq_refl (Qle_refl 1) eq_refl) as (_ & _ & H).
    apply H. vm_compute. discriminate.
Defined.

(** Five frames of a tenth of a second: the doubles leave the fresh
    particle a life of [2^-54] and it lives on to the sixth frame, where
    exact arithmetic on the same frame times has it dead at the fifth. *)
Example five_tenths_leave_a_residue :
  let tenths := repeat (Double.lit 0.1) 5 in
  Particle.markedForDeletion (Double.Particle_aged tenths freshParticle) = false /\
  Particle.life (Double.Particle_aged tenths freshParticle) = Double.pow2 (-54) /\
  Particle.markedForDeletion (Double.Particle_aged (Double.lit 0.1 :: tenths) freshParticle)
  = true /\
  Particle.markedForDeletion (Particle_aged tenths freshParticle) = true.
Proof. vm_compute. repeat split. Qed.
(** ** The wave check of a frame *)

Lemma enemyMeetsPlayer_keeps_player j g :
  player g <> None ->
  exists g', enemyMeetsPlayer j g = Normal g' /\ player g' <> None.
Proof.
  intros Hp. unfold enemyMeetsPlayer.
  destruct (nth_error (enemies g) j) as [e|]; [|now exists g].
  destruct (player g) as [p|] eqn:Ep; [|contradiction].
  destruct (checkCollision e p); [|exists g; rewrite Ep; auto].
  cbv zeta. eexists. split; [reflexivity|].
  rewrite (createExplosion_frame player) by solve_frame.
  set (g1 := set_enemies _ g).
  destruct (Player_takeDamage_sameBox 20 p g1) as (p' & Hp' & _).
  rewrite (set_player_same g1 p Ep) in Hp'. rewrite Hp'. discriminate.
Qed.

Lemma checkCollisions_completes g :
  player g <> None -> exists g', Game_checkCollisions g = Normal g'.
Proof.
  intros Hp. unfold Game_checkCollisions, enemiesHitPlayer.
  assert (Hp1 : player (bulletsHitEnemies g) <> None)
    by now rewrite (bulletsHitEnemies_frame player) by solve_frame.
  destruct (forEachIndex_inv (fun g => player g <> None) enemyMeetsPlayer
              (seq 0 (length (enemies (bulletsHitEnemies g)))) (bulletsHitEnemies g) Hp1)
    as (g' & E & _).
  - intros j g1 H1. now apply enemyMeetsPlayer_keeps_player.
  - now exists g'.
Qed.

(** What a frame's update does to the wave: one step up if the frame
    reaches the wave check and the score it ends with is past the
    threshold of the wave it began with, nothing otherwise. *)
Lemma Game_update_wave dt g :
  wave (state_of (Game_update dt g))
  = (if checksWave g && (wave g * 500 <? score (state_of (Game_update dt g)))%Z
     then wave g + 1 else wave g)%Z.
Proof.
  unfold Game_update, checksWave.
  destruct (isRunning g); cbn [negb orb andb]; [|reflexivity].
  destruct (isPaused g); cbn [negb orb andb]; [reflexivity|]. cbv zeta.
  set (g1 := update_particles dt (update_background dt g)).
  assert (Hs : gameState g1 = gameState g).
  { subst g1. rewrite (update_particles_frame gameState) by solve_frame.
    now rewrite (update_background_frame gameState) by solve_frame. }
  assert (Hp : player g1 = player g).
  { subst g1. rewrite (update_particles_frame player) by solve_frame.
    now rewrite (update_background_frame player) by solve_frame. }
  assert (Hw : wave g1 = wave g).
  { subst g1. rewrite (update_particles_frame wave) by solve_frame.
    now rewrite (update_background_frame wave) by solve_frame. }
  clearbody g1. rewrite <- Hs, <- Hp, <- Hw. clear Hs Hp Hw.
  destruct (gameState g1); try reflexivity.
  destruct (player g1) as [p|]; [|reflexivity].
  set (g2 := update_enemies dt (update_bullets dt (Player_update dt p g1))).
  assert (Hw2 : wave g2 = wave g1).
  { subst g2. rewrite (update_enemies_frame wave) by solve_frame.
    rewrite (update_bullets_frame wave) by solve_frame.
    now rewrite (Player_update_frame wave) by solve_frame. }
  assert (Hp2 : player g2 <> None).
  { subst g2. rewrite (update_enemies_frame player) by solve_frame.
    rewrite (update_bullets_frame player) by solve_frame.
    destruct (Player_update_player dt p g1) as (p' & -> & _). discriminate. }
  destruct (checkCollisions_completes g2 Hp2) as (g3 & E3).
  pose proof (checkCollisions_frame wave g2 ltac:(solve_frame)) as Hw3.
  rewrite E3 in *. cbn [bind state_of andb] in *.
  destruct (update_wave_step g3) as [Es _]. rewrite Es.
  rewrite <- Hw2, <- Hw3. unfold update_wave.
  replace (score g3 >? wave g3 * 500)%Z with (wave g3 * 500 <? score g3)%Z
    by (rewrite Z.gtb_ltb; reflexivity).
  destruct (wave g3 * 500 <? score g3)%Z; [|reflexivity]. cbv zeta.
  destruct (_ =? 0)%Z; [|reflexivity].
  now rewrite (spawnBoss_frame wave) by solve_frame.
Qed.

Lemma frames_wave tss :
  forall g,
    (wave g <= wave (run (map AnimationFrame tss) g) <= wave g + Z.of_nat (length tss))%Z.
Proof.
  induction tss as [|ts tss IH]; intros g; cbn [map run fold_left length].
  - lia.
  - fold (run (map AnimationFrame tss) (step g (AnimationFrame ts))).
    specialize (IH (step g (AnimationFrame ts))). cbn [step] in *.
    destruct (Game_loop_schedule ts g) as [E|E]; injection E as Ew; rewrite ?Ew in IH; lia.
Qed.

(** C10. One frame advances the wave counter by at most one, whatever the
    score: after [loop] (and after [update]) the wave is the old wave or
    the old wave plus one.  It is the old wave plus one exactly when the
    frame gets to the wave check (the game runs unpaused in the Playing
    state) and the score the frame ends with is past 500 times the old
    wave.  So [n] successive frames raise the wave by at most [n]; a frame
    of a game that is being played raises it whenever the score is past the
    threshold when the frame begins (the score of a state whose enemies
    pay no negative score does not fall within a frame); and a score that
    is past several thresholds raises it by one per wave check until the
    wave reaches the score divided by 500, rounded up. *)
Theorem frame_advances_wave_at_most_once :
  forall (timestamp deltaTime : Q) (g : Game.t) (timestamps : list Q) (n : nat),
    (wave (fst (Game_loop timestamp g)) = wave g \/
     wave (fst (Game_loop timestamp g)) = (wave g + 1)%Z) /\
    (wave (state_of (Game_update deltaTime g)) = wave g \/
     wave (state_of (Game_update deltaTime g)) = (wave g + 1)%Z) /\
    wave (state_of (Game_update deltaTime g))
    = (if checksWave g && (wave g * 500 <? score (state_of (Game_update deltaTime g)))%Z
       then wave g + 1 else wave g)%Z /\
    (wave g <= wave (run (map AnimationFrame timestamps) g)
     <= wave g + Z.of_nat (length timestamps))%Z /\
    (sound g -> checksWave g = true -> (wave g * 500 < score g)%Z ->
     wave (state_of (Game_update deltaTime g)) = (wave g + 1)%Z) /\
    wave (Nat.iter n update_wave g)
    = Z.max (wave g) (Z.min (wave g + Z.of_nat n) (waveTarget (score g))).
Proof.
  intros ts dt g tss n. split; [|split; [|split; [|split; [|split]]]].
  - destruct (Game_loop_schedule ts g) as [E|E]; injection E; auto.
  - destruct (Game_update_schedule dt g) as [E|E]; injection E; auto.
  - apply Game_update_wave.
  - apply frames_wave.
  - intros Hs Hc Hlt. rewrite Game_update_wave, Hc. cbn [andb].
    destruct (Game_update_sound dt g Hs) as (g' & -> & _ & Hup). cbn [state_of].
    destruct (wave g * 500 <? score g')%Z eqn:E; [reflexivity|].
    apply Z.ltb_ge in E. lia.
  - assert (H : score (Nat.iter n update_wave g) = score g /\
                wave (Nat.iter n update_wave g)
                = Z.max (wave g) (Z.min (wave g + Z.of_nat n) (waveTarget (score g)))).
    { induction n as [|n [IH1 IH2]].
      - change (Nat.iter 0 update_wave g) with g. split; [reflexivity|lia].
      - rewrite !Nat.iter_succ.
        destruct (update_wave_step (Nat.iter n update_wave g)) as [S1 W1].
        rewrite S1, W1, IH1, IH2. split; [reflexivity|].
        rewrite Nat2Z.inj_succ. generalize (waveTarget (score g)) as target. intros target.
        destruct (Z.max (wave g) (Z.min (wave g + Z.of_nat n) target) <? target)%Z eqn:E;
          [apply Z.ltb_lt in E | apply Z.ltb_ge in E]; lia. }
    apply H.
Qed.

Lemma frame_advances_wave_at_most_once_witness :
  sound scored1600 /\ checksWave scored1600 = true /\
  (wave scored1600 * 500 < score scored1600)%Z /\
  wave (state_of (Game_update 0.016 scored1600)) = (wave scored1600 + 1)%Z.
Proof.
  assert (Hs : sound scored1600).
  { unfold sound, healthy, payNonneg, bossKinds. vm_compute.
    repeat split; try discriminate; repeat constructor. }
  split; [exact Hs|]. split; [reflexivity|]. split; [reflexivity|].
  destruct (frame_advances_wave_at_most_once 0 0.016 scored1600 [] 0)
    as (_ & _ & _ & _ & H & _).
  apply H; [exact Hs | reflexivity | reflexivity].
Defined.
(** ** The rounding against the machine's doubles

    The kernel's own binary64 numbers, computed by the processor, give the
    same values as [Double.round] on operations of the kind the two
    methods perform. *)

From Stdlib Require Import Floats.

Example round_agrees_with_hardware :
  map Double.ofFloat
    [(1 / 10)%float; (594 / 10 + 5)%float; (1 / 10 + 2 / 10)%float;
     (40 * (1 / 10))%float; (3 / 10 + 40 - 4)%float; (1 - 2 * (1 / 10))%float;
     (- 1 / 3)%float]
  = map Some
      [Double.lit 0.1; Double.add (Double.lit 59.4) 5;
       Double.add (Double.lit 0.1) (Double.lit 0.2);
       Double.mul 40 (Double.lit 0.1);
       Double.sub (Double.add (Double.lit 0.3) 40) 4;
       Double.sub 1 (Double.mul 2 (Double.lit 0.1));
       Double.lit (- 1 # 3)].
Proof. vm_compute. reflexivity. Qed.
